(** * A shallow embedding of the work-stealing system scheduler

    Source: [src/system_scheduler/system_scheduler.hpp] and
    [src/system_scheduler/system_scheduler.cpp].

    Conventions.
    - A C++ function that mutates [*this] becomes a function from the
      object to the updated object.  A reference argument
      ([std::function<void()>& task]) is passed in and handed back.
    - Results live in [option]: [None] stands for "no normal return",
      which is either undefined behaviour (signed overflow, a vector
      index out of range, a remainder by zero), an exception that
      escapes, or a loop that never terminates.
    - [int] is a [Z] checked against the 32-bit signed range,
      [uint32_t] and [size_t] are [Z] reduced modulo [2^32] and [2^64]. *)

From Stdlib Require Import ZArith Lia.
From stdpp Require Import base tactics option list list_numbers.

Local Open Scope Z_scope.

(** ** Machine integers *)

Definition INT_MIN : Z := - 2 ^ 31.
Definition INT_MAX : Z := 2 ^ 31 - 1.

(** The value of an [int] expression; overflow is undefined. *)
Definition int_ (z : Z) : option Z :=
  if (INT_MIN <=? z) && (z <=? INT_MAX) then Some z else None.

(** [a % b] on [int]: truncated remainder, undefined when the quotient
    is not representable or [b] is zero. *)
Definition int_rem (a b : Z) : option Z :=
  if b =? 0 then None else _ ← int_ (Z.quot a b); Some (Z.rem a b).

Definition wrap32 (z : Z) : Z := z mod 2 ^ 32.
Definition wrap64 (z : Z) : Z := z mod 2 ^ 64.

(** [a % b] on [size_t]. *)
Definition size_rem (a b : Z) : option Z :=
  if b =? 0 then None else Some (a mod b).

(** ** [std::vector] element access

    [v[k]] with an [int] or [size_t] index; an index outside
    [0 .. size-1] is undefined. *)

Definition vec_at {A} (v : list A) (k : Z) : option A :=
  if k <? 0 then None else v !! Z.to_nat k.

Definition vec_set {A} (v : list A) (k : Z) (x : A) : option (list A) :=
  if (0 <=? k) && (k <? Z.of_nat (length v))
  then Some (<[Z.to_nat k := x]> v) else None.

Section Scheduler.

(** Tasks are closures run for their effect.  [W] is the part of the
    program state that tasks act on; a task is a transformer of [W]. *)
Context {W : Type}.

Definition Task : Type := W → W.

(** [std::function<void()>]: [None] is the empty function, which is also
    what a moved-from [std::function] is left as by the standard library
    implementations. *)
Definition fn : Type := option Task.

(** ** [lock_free_deque] *)

Definition DEFAULT_CAPACITY : Z := 1024.

(** The [buffer] pointer is never null in a deque owned by a scheduler
    (only the move operations, which the scheduler does not call, null
    it), so the vector itself is stored. *)
Record lock_free_deque : Type := mk_deque {
  capacity : Z;
  buffer : list fn;
  top : Z;
  bottom : Z
}.

Definition set_buffer (v : list fn) (d : lock_free_deque) :=
  mk_deque (capacity d) v (top d) (bottom d).
Definition set_top (t : Z) (d : lock_free_deque) :=
  mk_deque (capacity d) (buffer d) t (bottom d).
Definition set_bottom (b : Z) (d : lock_free_deque) :=
  mk_deque (capacity d) (buffer d) (top d) b.

(** [lock_free_deque()] *)
Definition new_deque : lock_free_deque :=
  mk_deque DEFAULT_CAPACITY (replicate (Z.to_nat DEFAULT_CAPACITY) None) 0 0.

(** The copy loop of [resize]:
    [for (int i = t; i < b; ++i) new[i % new_cap] = std::move(old[i % old_cap]);]
    with [n] the number of iterations left. *)
Fixpoint resize_copy (n : nat) (i old_capacity new_capacity : Z)
    (old new : list fn) : option (list fn) :=
  match n with
  | O => Some new
  | S n' =>
      ko ← int_rem i old_capacity;
      x ← vec_at old ko;
      kn ← int_rem i new_capacity;
      new' ← vec_set new kn x;
      old' ← vec_set old ko None;
      i' ← int_ (i + 1);
      resize_copy n' i' old_capacity new_capacity old' new'
  end.

Definition resize (d : lock_free_deque) : option lock_free_deque :=
  let old_capacity := capacity d in
  new_capacity ← int_ (old_capacity * 2);
  if new_capacity <? 0 then None else
  let new_buffer := replicate (Z.to_nat new_capacity) (None : fn) in
  let t := top d in
  let b := bottom d in
  new_buffer ← resize_copy (Z.to_nat (b - t)) t old_capacity new_capacity
                  (buffer d) new_buffer;
  Some (mk_deque new_capacity new_buffer t b).

Definition push (task : fn) (d : lock_free_deque) : option lock_free_deque :=
  let b := bottom d in
  let t := top d in
  size ← int_ (b - t);
  let cap := capacity d in
  '(d, b, cap) ← (if cap <=? size
                  then d' ← resize d; Some (d', bottom d', capacity d')
                  else Some (d, b, cap));
  k ← int_rem b cap;
  buf ← vec_set (buffer d) k task;
  b1 ← int_ (b + 1);
  Some (set_bottom b1 (set_buffer buf d)).

(** [top.compare_exchange_strong(expected, desired)] *)
Definition compare_exchange_top (expected desired : Z) (d : lock_free_deque)
    : bool * lock_free_deque :=
  if top d =? expected then (true, set_top desired d) else (false, d).

(** [task = std::move(buffer[k])]: the slot is read and left empty. *)
Definition move_slot (k : Z) (d : lock_free_deque) : option (fn * lock_free_deque) :=
  x ← vec_at (buffer d) k;
  buf ← vec_set (buffer d) k None;
  Some (x, set_buffer buf d).

Definition pop (task : fn) (d : lock_free_deque)
    : option (bool * fn * lock_free_deque) :=
  b ← int_ (bottom d - 1);
  let d := set_bottom b d in
  let t := top d in
  let cap := capacity d in
  if t <=? b then
    k ← int_rem b cap;
    '(task, d) ← move_slot k d;
    if t =? b then
      t1 ← int_ (t + 1);
      let '(swapped, d) := compare_exchange_top t t1 d in
      if negb swapped then
        b1 ← int_ (b + 1);
        Some (false, None, set_bottom b1 d)
      else Some (true, task, d)
    else Some (true, task, d)
  else
    b1 ← int_ (b + 1);
    Some (false, task, set_bottom b1 d).

(** [steal], one shared-memory access at a time.  The control point of a
    thief records the values it has loaded so far. *)
Inductive steal_pc : Type :=
  | StealLoadTop
  | StealLoadBottom (t : Z)
  | StealLoadCapacity (t b : Z)
  | StealMove (t cap : Z)
  | StealCas (t : Z)
  | StealReturn (result : bool).

(** A thief: its control point and the [task] reference it was given. *)
Definition thief : Type := steal_pc * fn.

Definition steal_step (th : thief) (d : lock_free_deque)
    : option (thief * lock_free_deque) :=
  let '(pc, task) := th in
  match pc with
  | StealLoadTop => Some ((StealLoadBottom (top d), task), d)
  | StealLoadBottom t => Some ((StealLoadCapacity t (bottom d), task), d)
  | StealLoadCapacity t b =>
      let cap := capacity d in
      if t <? b then Some ((StealMove t cap, task), d)
      else Some ((StealReturn false, task), d)
  | StealMove t cap =>
      k ← int_rem t cap;
      '(task, d) ← move_slot k d;
      Some ((StealCas t, task), d)
  | StealCas t =>
      t1 ← int_ (t + 1);
      let '(swapped, d) := compare_exchange_top t t1 d in
      Some ((StealReturn swapped, task), d)
  | StealReturn r => Some ((StealReturn r, task), d)
  end.

(** A call of [steal] running without interference: its accesses in
    program order. *)
Fixpoint steal_run (n : nat) (th : thief) (d : lock_free_deque)
    : option (bool * fn * lock_free_deque) :=
  match th, n with
  | (StealReturn r, task), _ => Some (r, task, d)
  | _, O => None
  | _, S n' => '(th', d') ← steal_step th d; steal_run n' th' d'
  end.

Definition steal (task : fn) (d : lock_free_deque)
    : option (bool * fn * lock_free_deque) :=
  steal_run 5 (StealLoadTop, task) d.

Definition deque_empty (d : lock_free_deque) : bool := bottom d <=? top d.

Definition deque_size (d : lock_free_deque) : Z :=
  if top d <=? bottom d then bottom d - top d else 0.

(** ** [priority_t] and [work_queue_t] *)

Inductive priority_t : Type := LOW | NORMAL | HIGH | CRITICAL.

(** [static_cast<int>(priority)] *)
Definition priority_int (p : priority_t) : Z :=
  match p with LOW => 0 | NORMAL => 1 | HIGH => 2 | CRITICAL => 3 end.

(** [task_queues] holds one deque per priority; each [shared_ptr] has a
    single owner, so the deques are stored in place. *)
Record work_queue_t : Type := mk_work_queue {
  task_queues : list lock_free_deque;
  active : bool
}.

Definition set_task_queues (l : list lock_free_deque) (q : work_queue_t) :=
  mk_work_queue l (active q).

(** [work_queue_t()] *)
Definition new_work_queue : work_queue_t :=
  mk_work_queue (replicate (Z.to_nat (priority_int CRITICAL + 1)) new_deque) true.

Definition push_task (prio : Z) (task : fn) (q : work_queue_t)
    : option work_queue_t :=
  d ← vec_at (task_queues q) prio;
  d' ← push task d;
  l ← vec_set (task_queues q) prio d';
  Some (set_task_queues l q).

(** The loop shared by [pop_task] and [steal_task]:
    [for (int p = CRITICAL; p >= LOW; --p) if (task_queues[p]->op(task)) return true;]
    [return false;]  The counter [n] is [p + 1]. *)
Fixpoint priority_scan
    (op : fn → lock_free_deque → option (bool * fn * lock_free_deque))
    (n : nat) (task : fn) (q : work_queue_t)
    : option (bool * fn * work_queue_t) :=
  match n with
  | O => Some (false, task, q)
  | S p =>
      d ← vec_at (task_queues q) (Z.of_nat p);
      '(ok, task, d') ← op task d;
      l ← vec_set (task_queues q) (Z.of_nat p) d';
      let q := set_task_queues l q in
      if ok : bool then Some (true, task, q) else priority_scan op p task q
  end.

Definition pop_task (task : fn) (q : work_queue_t) :=
  priority_scan pop (Z.to_nat (priority_int CRITICAL + 1)) task q.

Definition steal_task (task : fn) (q : work_queue_t) :=
  priority_scan steal (Z.to_nat (priority_int CRITICAL + 1)) task q.

Definition queue_empty (q : work_queue_t) : bool :=
  forallb deque_empty (task_queues q).

Definition queue_size (q : work_queue_t) : Z :=
  foldl (λ total d, wrap64 (total + deque_size d)) 0 (task_queues q).

(** ** [system_scheduler] *)

Record system_scheduler : Type := mk_scheduler {
  priority_level : priority_t;
  work_queues : list work_queue_t;
  stop_flag : bool;
  idle_count : Z;
  active_thread_count : Z;
  min_threads : Z;
  max_threads : Z;
  worker_numa_nodes : list Z;
  next_queue : Z;
  num_queues : Z
}.

Definition set_priority_level (p : priority_t) (s : system_scheduler) :=
  mk_scheduler p (work_queues s) (stop_flag s) (idle_count s)
    (active_thread_count s) (min_threads s) (max_threads s)
    (worker_numa_nodes s) (next_queue s) (num_queues s).
Definition set_work_queues (qs : list work_queue_t) (s : system_scheduler) :=
  mk_scheduler (priority_level s) qs (stop_flag s) (idle_count s)
    (active_thread_count s) (min_threads s) (max_threads s)
    (worker_numa_nodes s) (next_queue s) (num_queues s).
Definition set_stop_flag (b : bool) (s : system_scheduler) :=
  mk_scheduler (priority_level s) (work_queues s) b (idle_count s)
    (active_thread_count s) (min_threads s) (max_threads s)
    (worker_numa_nodes s) (next_queue s) (num_queues s).
Definition set_idle_count (n : Z) (s : system_scheduler) :=
  mk_scheduler (priority_level s) (work_queues s) (stop_flag s) n
    (active_thread_count s) (min_threads s) (max_threads s)
    (worker_numa_nodes s) (next_queue s) (num_queues s).
Definition set_next_queue (n : Z) (s : system_scheduler) :=
  mk_scheduler (priority_level s) (work_queues s) (stop_flag s) (idle_count s)
    (active_thread_count s) (min_threads s) (max_threads s)
    (worker_numa_nodes s) n (num_queues s).

(** The constructor.  [hardware_concurrency] is what
    [std::thread::hardware_concurrency()] returns and [num_nodes] the
    number of NUMA nodes ([1] without NUMA, which also gives the
    all-zero node table of the non-Linux branch).  The spawned threads
    are the worker ids [0 .. init_threads-1]. *)
Definition new_system_scheduler (hardware_concurrency num_nodes : Z)
    (priority : priority_t) (thread_count : Z) : system_scheduler :=
  let init_threads :=
    if 0 <? thread_count then thread_count else hardware_concurrency in
  mk_scheduler priority
    (replicate (Z.to_nat init_threads) new_work_queue)
    false 0 init_threads init_threads init_threads
    ((λ i, i mod num_nodes) <$> seqZ 0 init_threads)
    0 init_threads.

(** [operator==] ignores both operands. *)
Definition scheduler_eq (a b : system_scheduler) : bool := true.

Definition get_priority (s : system_scheduler) : priority_t := priority_level s.

Definition set_priority (priority : priority_t) (s : system_scheduler) :=
  set_priority_level priority s.

Definition get_active_thread_count (s : system_scheduler) : Z :=
  active_thread_count s.

(** The default argument in the declarations of [schedule] and
    [bulk_schedule]: [priority_t priority = priority_t::NORMAL].  A call
    that omits the argument passes [None]. *)
Definition priority_argument (priority : option priority_t) : priority_t :=
  default NORMAL priority.

(** [while (!work_queues[chosen].active) chosen = (chosen + 1) % num;]
    The candidates repeat after [num] probes, so [num] probes of fuel
    decide whether the loop ends. *)
Fixpoint skip_inactive (fuel : nat) (qs : list work_queue_t) (num chosen : Z)
    : option Z :=
  match fuel with
  | O => None
  | S fuel' =>
      q ← vec_at qs chosen;
      if active q then Some chosen
      else
        chosen' ← size_rem (wrap64 (chosen + 1)) num;
        skip_inactive fuel' qs num chosen'
  end.

Definition schedule (task : fn) (priority : option priority_t)
    (s : system_scheduler) : option system_scheduler :=
  let priority := priority_argument priority in
  if stop_flag s then Some s else
  let num := num_queues s in
  let fetched := next_queue s in
  let s := set_next_queue (wrap64 (fetched + 1)) s in
  chosen ← size_rem fetched num;
  chosen ← skip_inactive (Z.to_nat num) (work_queues s) num chosen;
  q ← vec_at (work_queues s) chosen;
  q' ← push_task (priority_int priority) task q;
  qs ← vec_set (work_queues s) chosen q';
  Some (set_work_queues qs s).

(** A loop over the elements of [l] that threads the state and stops at
    the first failure. *)
Fixpoint for_each {A S : Type} (body : A → S → option S) (l : list A) (s : S)
    : option S :=
  match l with
  | [] => Some s
  | x :: l' => s' ← body x s; for_each body l' s'
  end.

(** [std::function<void(uint32_t)>] *)
Definition IndexedTask : Type := Z → Task.

Definition chunk_start (chunk chunk_size remainder : Z) : Z :=
  wrap32 (wrap32 (chunk * chunk_size) + Z.min chunk remainder).

Definition chunk_end (chunk chunk_size remainder : Z) : Z :=
  let start := chunk_start chunk chunk_size remainder in
  wrap32 (wrap32 (start + chunk_size) + (if chunk <? remainder then 1 else 0)).

(** The lambda handed to [schedule]:
    [[=]() { for (uint32_t i = start; i < end; ++i) task(i); }] *)
Definition chunk_closure (start end_ : Z) (task : IndexedTask) : Task :=
  λ w, foldl (λ w i, task i w) w (seqZ start (end_ - start)).

Definition bulk_num_chunks (active_threads n : Z) : Z :=
  let num_chunks := Z.max (wrap32 (active_threads * 8)) n in
  if num_chunks =? 0 then 1 else num_chunks.

(** [bulk_schedule] reaches [schedule] through the virtual table, so the
    loop is written over any scheduler [S] with its [schedule]. *)
Definition bulk_schedule_on {S : Type}
    (schedule : fn → option priority_t → S → option S)
    (active_threads : Z) (n : Z) (task : IndexedTask)
    (priority : option priority_t) (s : S) : option S :=
  let priority := priority_argument priority in
  let num_chunks := bulk_num_chunks active_threads n in
  let chunk_size := n / num_chunks in
  let remainder := n mod num_chunks in
  for_each (λ chunk s,
      let start := chunk_start chunk chunk_size remainder in
      let end_ := chunk_end chunk chunk_size remainder in
      if start <? end_
      then schedule (Some (chunk_closure start end_ task)) (Some priority) s
      else Some s)
    (seqZ 0 num_chunks) s.

Definition bulk_schedule (n : Z) (task : IndexedTask)
    (priority : option priority_t) (s : system_scheduler)
    : option system_scheduler :=
  bulk_schedule_on schedule (active_thread_count s) n task priority s.

(** [set_stopped]; the message on [std::cerr] is not part of the state. *)
Definition set_stopped (s : system_scheduler) : system_scheduler :=
  set_stop_flag true s.

(** What an [std::exception_ptr] can hold. *)
Inductive exception_ptr : Type :=
  | NoException | StdException | OtherException.

(** [set_error] prints what a [std::exception] says; anything else
    escapes a [noexcept] function. *)
Definition set_error (error : exception_ptr) (s : system_scheduler)
    : option system_scheduler :=
  match error with
  | NoException | StdException => Some s
  | OtherException => None
  end.

(** ** The worker loop *)

(** [steal_indices]: every queue index but the worker's own. *)
Definition steal_indices (thread_id : nat) (s : system_scheduler) : list nat :=
  filter (λ i, i ≠ thread_id) (seq 0 (length (work_queues s))).

(** The sweep over the shuffled peers:
    [if (work_queues[id].active && work_queues[id].steal_task(task)) { found; break; }] *)
Fixpoint steal_sweep (ids : list nat) (task : fn) (qs : list work_queue_t)
    : option (bool * fn * list work_queue_t) :=
  match ids with
  | [] => Some (false, task, qs)
  | steal_id :: ids' =>
      q ← qs !! steal_id;
      if active q then
        '(ok, task, q') ← steal_task task q;
        let qs := <[steal_id := q']> qs in
        if ok : bool then Some (true, task, qs) else steal_sweep ids' task qs
      else steal_sweep ids' task qs
  end.

(** One turn of [while (true)] in [worker_loop], with [shuffled] the
    order [std::shuffle] put [steal_indices] in.  The result is the
    scheduler, the program state after a found task ran, and whether
    [worker_loop] returned. *)
Definition worker_iteration (thread_id : nat) (shuffled : list nat)
    (s : system_scheduler) (w : W) : option (system_scheduler * W * bool) :=
  let task : fn := None in
  '(found_task, task, s) ←
    (if bool_decide (thread_id < length (work_queues s))%nat then
       q ← work_queues s !! thread_id;
       '(ok, task, q') ← pop_task task q;
       Some (ok : bool, task : fn, set_work_queues (<[thread_id := q']> (work_queues s)) s)
     else Some (false, task, s));
  '(found_task, task, s) ←
    (if negb (found_task : bool) then
       '(ok, task, qs) ← steal_sweep shuffled task (work_queues s);
       Some (ok, task, set_work_queues qs s)
     else Some (found_task, task, s));
  if found_task : bool then
    run ← (task : fn);
    Some (s, run w, false)
  else
    let s := set_idle_count (wrap32 (idle_count s + 1)) s in
    let s := set_idle_count (wrap32 (idle_count s - 1)) s in
    if stop_flag s && forallb queue_empty (work_queues s)
    then Some (s, w, true)
    else Some (s, w, false).

(** ** Executions

    A pool is the scheduler, the program state the tasks act on, and the
    workers whose [worker_loop] has returned.  An execution is a
    sequence of completed calls and completed worker turns. *)
Record pool : Type := mk_pool {
  scheduler : system_scheduler;
  program : W;
  returned : list nat
}.

Inductive event : Type :=
  | Schedule (task : fn) (priority : option priority_t)
  | BulkSchedule (n : Z) (task : IndexedTask) (priority : option priority_t)
  | SetPriority (priority : priority_t)
  | SetStopped
  | SetError (error : exception_ptr)
  | WorkerTurn (thread_id : nat) (shuffled : list nat)
  | DestructorStop.

(** [DestructorStop] is the store to [stop_flag] that opens the
    destructor; its joins are over once every worker has returned. *)
Definition joined (p : pool) : bool :=
  bool_decide (seq 0 (Z.to_nat (max_threads (scheduler p))) ⊆ returned p).

Definition step (e : event) (p : pool) : option pool :=
  let s := scheduler p in
  match e with
  | Schedule task priority =>
      s' ← schedule task priority s; Some (mk_pool s' (program p) (returned p))
  | BulkSchedule n task priority =>
      if (0 <=? n) && (n <? 2 ^ 32) then
        s' ← bulk_schedule n task priority s;
        Some (mk_pool s' (program p) (returned p))
      else None
  | SetPriority priority =>
      Some (mk_pool (set_priority priority s) (program p) (returned p))
  | SetStopped => Some (mk_pool (set_stopped s) (program p) (returned p))
  | SetError error =>
      s' ← set_error error s; Some (mk_pool s' (program p) (returned p))
  | WorkerTurn thread_id shuffled =>
      if bool_decide ((thread_id < Z.to_nat (max_threads s))%nat
                      ∧ (thread_id ∉ returned p)
                      ∧ (shuffled ≡ₚ steal_indices thread_id s)) then
        '(s', w', ret) ← worker_iteration thread_id shuffled s (program p);
        Some (mk_pool s' w' (if ret : bool then thread_id :: returned p else returned p))
      else None
  | DestructorStop => Some (mk_pool (set_stop_flag true s) (program p) (returned p))
  end.

Definition execute (es : list event) (p : pool) : option pool :=
  for_each step es p.

(** ** The process-wide schedulers

    The statics of [query_system_context] and [get_system_scheduler] and
    the global [current_scheduler].  Schedulers live in a store; a
    [shared_ptr] or a reference to one is its index there, and a null
    pointer or a static not yet initialised is [None]. *)
Inductive scheduler_class : Type := PoolScheduler | MacosScheduler.

Record process : Type := mk_process {
  store : list (scheduler_class * system_scheduler);
  context_instance : option nat;
  current_scheduler : option nat;
  fallback_scheduler : option nat
}.

Definition new_process : process := mk_process [] None None None.

(** [query_system_context]: the static is built by the first call, with
    the constructor's default arguments. *)
Definition query_system_context (hardware_concurrency num_nodes : Z)
    (g : process) : nat * process :=
  match context_instance g with
  | Some instance => (instance, g)
  | None =>
      let instance := length (store g) in
      (instance,
       mk_process
         (store g ++ [(PoolScheduler,
                       new_system_scheduler hardware_concurrency num_nodes
                         NORMAL 0)])
         (Some instance) (current_scheduler g) (fallback_scheduler g))
  end.

Definition set_system_scheduler (scheduler : option nat) (g : process)
    : process :=
  mk_process (store g) (context_instance g) scheduler (fallback_scheduler g).

(** [get_system_scheduler]: the installed scheduler if there is one,
    else the static, built by the first call that gets this far. *)
Definition get_system_scheduler (hardware_concurrency num_nodes : Z)
    (priority : option priority_t) (g : process) : nat * process :=
  let priority := priority_argument priority in
  match current_scheduler g with
  | Some current => (current, g)
  | None =>
      match fallback_scheduler g with
      | Some scheduler => (scheduler, g)
      | None =>
          let scheduler := length (store g) in
          (scheduler,
           mk_process
             (store g ++ [(MacosScheduler,
                           new_system_scheduler hardware_concurrency num_nodes
                             priority 0)])
             (context_instance g) (current_scheduler g) (Some scheduler))
      end
  end.

(** Calls on the process-wide state, each with the pointer it returns
    if it returns one. *)
Inductive process_call : Type :=
  | QueryContext
  | Install (scheduler : option nat)
  | GetScheduler (priority : option priority_t).

Definition process_step (hardware_concurrency num_nodes : Z)
    (c : process_call) (g : process) : option nat * process :=
  match c with
  | QueryContext =>
      let '(i, g') := query_system_context hardware_concurrency num_nodes g in
      (Some i, g')
  | Install scheduler => (None, set_system_scheduler scheduler g)
  | GetScheduler priority =>
      let '(i, g') :=
        get_system_scheduler hardware_concurrency num_nodes priority g in
      (Some i, g')
  end.

Definition process_run (hardware_concurrency num_nodes : Z)
    (cs : list process_call) (g : process) : process :=
  foldl (λ g c, (process_step hardware_concurrency num_nodes c g).2) g cs.

(** ** The dispatcher-backed scheduler

    [macos_system_scheduler::schedule] hands the task to the global
    dispatch queue of the mapped priority; the dispatcher is the list of
    blocks it was given. *)
Inductive dispatch_priority : Type :=
  | DISPATCH_QUEUE_PRIORITY_LOW
  | DISPATCH_QUEUE_PRIORITY_DEFAULT
  | DISPATCH_QUEUE_PRIORITY_HIGH.

Definition macos_dispatch_priority (priority : priority_t) : dispatch_priority :=
  match priority with
  | LOW => DISPATCH_QUEUE_PRIORITY_LOW
  | NORMAL => DISPATCH_QUEUE_PRIORITY_DEFAULT
  | HIGH => DISPATCH_QUEUE_PRIORITY_HIGH
  | CRITICAL => DISPATCH_QUEUE_PRIORITY_HIGH
  end.

Definition macos_schedule (task : fn) (priority : option priority_t)
    (dispatched : list (dispatch_priority * fn))
    : option (list (dispatch_priority * fn)) :=
  let priority := priority_argument priority in
  Some (dispatched ++ [(macos_dispatch_priority priority, task)]).

(** ** Vocabulary of the properties *)

(** Completed operations on one deque, as its owner and a thief issue
    them one after the other. *)
Inductive deque_op : Type :=
  | Push (task : fn)
  | Pop
  | Steal.

Definition apply_op (o : deque_op) (d : lock_free_deque)
    : option lock_free_deque :=
  match o with
  | Push task => push task d
  | Pop => '(_, _, d') ← pop None d; Some d'
  | Steal => '(_, _, d') ← steal None d; Some d'
  end.

Definition apply_ops (os : list deque_op) (d : lock_free_deque)
    : option lock_free_deque :=
  for_each apply_op os d.

(** Two thieves on one deque, their accesses interleaved in the order
    given. *)
Inductive thief_id : Type := ThiefA | ThiefB.

Definition thieves_step (who : thief_id)
    (st : thief * thief * lock_free_deque)
    : option (thief * thief * lock_free_deque) :=
  let '(a, b, d) := st in
  match who with
  | ThiefA => '(a', d') ← steal_step a d; Some (a', b, d')
  | ThiefB => '(b', d') ← steal_step b d; Some (a, b', d')
  end.

Definition interleave (order : list thief_id)
    (st : thief * thief * lock_free_deque) :=
  for_each thieves_step order st.

(** What every operation of the deque keeps true.  The lower bound on
    [bottom - top] is [-1], not [0]: a pop that takes the last task
    leaves [bottom] one below [top]. *)
Record deque_inv (d : lock_free_deque) : Prop := {
  inv_capacity : 0 < capacity d;
  inv_buffer : Z.of_nat (length (buffer d)) = capacity d;
  inv_top : 0 ≤ top d;
  inv_bottom : 0 ≤ bottom d;
  inv_below : top d ≤ bottom d + 1;
  inv_fits : bottom d - top d ≤ capacity d;
  inv_int : bottom d ≤ INT_MAX
}.

(** A deque that can take [m] more pushes without leaving [int]. *)
Definition deque_room (m : Z) (d : lock_free_deque) : Prop :=
  deque_inv d ∧ bottom d + m ≤ 2 ^ 30.

Definition queue_room (m : Z) (q : work_queue_t) : Prop :=
  length (task_queues q) = 4%nat ∧ Forall (deque_room m) (task_queues q).

(** A scheduler as the constructor leaves it and the operations keep
    it: one queue per worker, counters in range, and room for [m] more
    submissions per queue. *)
Record scheduler_room (m : Z) (s : system_scheduler) : Prop := {
  room_num : num_queues s = Z.of_nat (length (work_queues s));
  room_pos : 0 < num_queues s < 2 ^ 64;
  room_next : 0 ≤ next_queue s < 2 ^ 64;
  room_queues : Forall (queue_room m) (work_queues s)
}.

(** What the constructor establishes and every completed call or worker
    turn keeps: each queue has its four deques, each deque is within
    [deque_inv], and there is one queue per counted queue. *)
Definition queue_wf (q : work_queue_t) : Prop :=
  length (task_queues q) = 4%nat ∧ Forall deque_inv (task_queues q).

Record scheduler_wf (s : system_scheduler) : Prop := {
  wf_num : num_queues s = Z.of_nat (length (work_queues s));
  wf_queues : Forall queue_wf (work_queues s)
}.

(** The call [schedule] made on [s] put [task] into the deque of
    priority [p] of one of the queues, giving [s']. *)
Definition enqueues_at (task : fn) (p : priority_t)
    (s s' : system_scheduler) : Prop :=
  ∃ (i : Z) (q q' : work_queue_t),
    vec_at (work_queues s) i = Some q
    ∧ push_task (priority_int p) task q = Some q'
    ∧ vec_set (work_queues s) i q' = Some (work_queues s').

(** The submissions among [ts] that round-robin placement over [num]
    queues hands to queue [i] when the counter starts at [c]. *)
Fixpoint dealt {A : Type} (num c i : Z) (ts : list A) : list A :=
  match ts with
  | [] => []
  | t :: ts' =>
      if c mod num =? i then t :: dealt num (c + 1) i ts'
      else dealt num (c + 1) i ts'
  end.

(** One submission: the task and the priority argument of the call. *)
Definition submission : Type := fn * option priority_t.

Definition submit (x : submission) (s : system_scheduler) :=
  schedule x.1 x.2 s.

Definition deposit (x : submission) (q : work_queue_t) :=
  push_task (priority_int (priority_argument x.2)) x.1 q.

(** The outcome [r] of scanning the deques of [q] with [op] from the
    highest index below [n] downwards: either [op] succeeded on the
    deque of some priority [p] after failing, without effect, on every
    higher one, and [r] carries that task and the queue with that deque
    updated; or [op] failed on all of them and [r] is a failure with
    [task] and [q] as they were. *)
Definition scan_outcome
    (op : fn → lock_free_deque → option (bool * fn * lock_free_deque))
    (n : nat) (task : fn) (q : work_queue_t)
    (r : bool * fn * work_queue_t) : Prop :=
  (∃ (p : nat) d x d',
      (p < n)%nat ∧ task_queues q !! p = Some d
      ∧ op task d = Some (true, x, d')
      ∧ (∀ p' dp, (p < p' < n)%nat → task_queues q !! p' = Some dp →
           op task dp = Some (false, task, dp))
      ∧ r = (true, x, set_task_queues (<[p := d']> (task_queues q)) q))
  ∨ ((∀ p dp, (p < n)%nat → task_queues q !! p = Some dp →
        op task dp = Some (false, task, dp))
     ∧ r = (false, task, q)).

(** The ranges [(start, end)] that [bulk_schedule] computes, one per
    chunk, and the indices a range holds. *)
Definition bulk_ranges (active_threads n : Z) : list (Z * Z) :=
  let num_chunks := bulk_num_chunks active_threads n in
  let chunk_size := n / num_chunks in
  let remainder := n mod num_chunks in
  (λ chunk, (chunk_start chunk chunk_size remainder,
             chunk_end chunk chunk_size remainder)) <$> seqZ 0 num_chunks.

Definition range_indices (r : Z * Z) : list Z := seqZ r.1 (r.2 - r.1).

(** A scheduler that only records the calls of [schedule] it receives. *)
Definition record_schedule (task : fn) (priority : option priority_t)
    (calls : list submission) : option (list submission) :=
  Some (calls ++ [(task, priority)]).

(** On a deque within its invariant an operation either fails without
    any effect or succeeds. *)
Definition fails_cleanly
    (op : fn → lock_free_deque → option (bool * fn * lock_free_deque))
    : Prop :=
  ∀ task d, deque_inv d →
    op task d = Some (false, task, d) ∨ ∃ x d', op task d = Some (true, x, d').

(** The tasks a deque holds: [l] lists, oldest first, what the slots of
    the indices [top], ..., [bottom - 1] hold. *)
Record holds (d : lock_free_deque) (l : list fn) : Prop := {
  holds_inv : deque_inv d;
  holds_length : Z.of_nat (length l) = bottom d - top d;
  holds_slots : ∀ (k : nat) x, l !! k = Some x →
    buffer d !! Z.to_nat ((top d + Z.of_nat k) mod capacity d) = Some x
}.

(** What an execution does to the stop flag and to the default
    priority, read off the events alone. *)
Definition requests_stop (e : event) : bool :=
  match e with SetStopped | DestructorStop => true | _ => false end.

Definition last_set_priority (es : list event) (p0 : priority_t) : priority_t :=
  foldl (λ p e, match e with SetPriority q => q | _ => p end) p0 es.

(** One turn of every worker [0 .. n-1], each with its peers in index
    order. *)
Definition every_worker_turns (n : nat) (s : system_scheduler) : list event :=
  (λ i, WorkerTurn i (steal_indices i s)) <$> seq 0 n.

(** A running scheduler with one worker whose queue holds [l] at
    priority [p] and nothing at the other priorities, no task taken
    yet. *)
Record single_queue (p : priority_t) (l : list fn) (s : system_scheduler)
    : Prop := {
  sq_queue : ∃ q, work_queues s = [q] ∧ active q = true
      ∧ length (task_queues q) = 4%nat
      ∧ ∀ (j : nat) d, task_queues q !! j = Some d →
          holds d (if decide (j = Z.to_nat (priority_int p)) then l else [])
          ∧ top d = 0;
  sq_num : num_queues s = 1;
  sq_max : max_threads s = 1;
  sq_running : stop_flag s = false;
  sq_next : 0 ≤ next_queue s < 2 ^ 64;
  sq_idle : 0 ≤ idle_count s < 2 ^ 32
}.

End Scheduler.

Arguments lock_free_deque : clear implicits.
Arguments Task : clear implicits.
Arguments fn : clear implicits.
Arguments work_queue_t : clear implicits.
Arguments system_scheduler : clear implicits.
Arguments IndexedTask : clear implicits.
Arguments pool : clear implicits.
Arguments event : clear implicits.
Arguments thief : clear implicits.
Arguments deque_op : clear implicits.
Arguments submission : clear implicits.
Arguments process : clear implicits.

(** An indexed task that appends the index it is called with to a log,
    and the indices a recorded closure calls it with, in order. *)
Definition index_log : IndexedTask (list Z) := λ i l, l ++ [i].

Definition invocations (x : submission (list Z)) : list Z :=
  from_option (λ t : Task (list Z), t []) [] x.1.

(** ** The matrix demo

    What [multiply_matrices] of [scheduler.cpp] does before it hands
    its closures to the scheduler.  It reads the sizes of [A], of the
    first row of [A] and of the first row of [B] (indexing an empty
    vector has no defined result), sizes [C], and cuts the rows into
    one block per hardware thread: block [t] of [num_threads] starts at
    [t * block_size] and ends before [(t + 1) * block_size], the last
    one before [rowsA].  The result is what the closures capture:
    [colsA], [colsB] and the row range of each.  The products the
    closures compute are floating point and stay outside. *)
Definition Matrix : Type := list (list Z).

(** A [size_t] or [unsigned] value stored in an [int]: the value modulo
    [2^32], read in two's complement. *)
Definition int_cast (z : Z) : Z := (z + 2 ^ 31) mod 2 ^ 32 - 2 ^ 31.

Definition int_div (a b : Z) : option Z :=
  if b =? 0 then None else int_ (Z.quot a b).

Definition row_block (rowsA num_threads block_size t : Z) : option (Z * Z) :=
  start_row ← int_ (t * block_size);
  t1 ← int_ (t + 1);
  end_row ← int_ (t1 * block_size);
  n1 ← int_ (num_threads - 1);
  Some (start_row, if t =? n1 then rowsA else end_row).

(** [C.resize(rowsA, std::vector<int>(colsB, 0))]: a negative [int]
    converts to a [size_t] beyond [max_size], and the exception
    escapes. *)
Definition resize_rows (rowsA colsB : Z) : option unit :=
  if (0 <=? colsB) && (0 <=? rowsA) then Some () else None.

Definition row_blocks (A B : Matrix) (hardware_concurrency : Z) :
    option (Z * Z * list (Z * Z)) :=
  let rowsA := int_cast (Z.of_nat (length A)) in
  a0 ← vec_at A 0;
  let colsA := int_cast (Z.of_nat (length a0)) in
  b0 ← vec_at B 0;
  let colsB := int_cast (Z.of_nat (length b0)) in
  _ ← resize_rows rowsA colsB;
  let num_threads := int_cast hardware_concurrency in
  block_size ← int_div rowsA num_threads;
  blocks ← mapM (row_block rowsA num_threads block_size) (seqZ 0 num_threads);
  Some (colsA, colsB, blocks).

(** A task that appends its number to a log. *)
Definition log_task (i : nat) : fn (list nat) := Some (λ l, l ++ [i]).

(** The deque a fresh one becomes by pushing [ts] in order. *)
Definition deque_after {W} (ts : list (fn W)) : lock_free_deque W :=
  default new_deque (apply_ops (Push <$> ts) new_deque).

(** * Properties *)

(** ** Integers and vectors *)

Lemma int_in_range (z : Z) : INT_MIN ≤ z ≤ INT_MAX → int_ z = Some z.
Proof.
  intros [Hlo Hhi]. unfold int_.
  apply Z.leb_le in Hlo, Hhi. by rewrite Hlo, Hhi.
Qed.

Lemma int_Some (z r : Z) : int_ z = Some r → r = z ∧ INT_MIN ≤ z ≤ INT_MAX.
Proof.
  unfold int_. destruct (INT_MIN <=? z) eqn:Hlo, (z <=? INT_MAX) eqn:Hhi;
    simpl; intros [= <-]. apply Z.leb_le in Hlo, Hhi. done.
Qed.

Lemma int_rem_nonneg (a b : Z) :
  0 ≤ a ≤ INT_MAX → 0 < b → int_rem a b = Some (a mod b).
Proof.
  intros Ha Hb. unfold int_rem.
  destruct (Z.eqb_spec b 0) as [->|_]; [lia|].
  rewrite Z.quot_div_nonneg, Z.rem_mod_nonneg by lia.
  assert (0 ≤ a / b ≤ a).
  { split; [apply Z.div_pos; lia|]. apply Z.div_le_upper_bound; nia. }
  rewrite int_in_range; [done|]. unfold INT_MIN, INT_MAX in *. lia.
Qed.

Lemma vec_at_lookup {A} (v : list A) (k : Z) :
  0 ≤ k → vec_at v k = v !! Z.to_nat k.
Proof. intros. unfold vec_at. by destruct (Z.ltb_spec k 0); [lia|]. Qed.

Lemma vec_at_Some {A} (v : list A) (k : Z) (x : A) :
  vec_at v k = Some x → 0 ≤ k < Z.of_nat (length v) ∧ v !! Z.to_nat k = Some x.
Proof.
  unfold vec_at. destruct (Z.ltb_spec k 0); [done|]. intros Hx.
  split; [|done]. apply lookup_lt_Some in Hx. lia.
Qed.

Lemma vec_at_in_range {A} (v : list A) (k : Z) :
  0 ≤ k < Z.of_nat (length v) → ∃ x, vec_at v k = Some x.
Proof.
  intros. rewrite vec_at_lookup by lia.
  apply lookup_lt_is_Some_2. lia.
Qed.

Lemma vec_set_in_range {A} (v : list A) (k : Z) (x : A) :
  0 ≤ k < Z.of_nat (length v) → vec_set v k x = Some (<[Z.to_nat k := x]> v).
Proof.
  intros [Hlo Hhi]. unfold vec_set.
  apply Z.leb_le in Hlo. apply Z.ltb_lt in Hhi. by rewrite Hlo, Hhi.
Qed.

Lemma vec_set_Some {A} (v v' : list A) (k : Z) (x : A) :
  vec_set v k x = Some v' →
  0 ≤ k < Z.of_nat (length v) ∧ v' = <[Z.to_nat k := x]> v.
Proof.
  unfold vec_set.
  destruct (Z.leb_spec 0 k), (Z.ltb_spec k (Z.of_nat (length v)));
    simpl; intros [= <-]. done.
Qed.

Lemma for_each_app {A S} (body : A → S → option S) (l1 l2 : list A) (s : S) :
  for_each body (l1 ++ l2) s = s' ← for_each body l1 s; for_each body l2 s'.
Proof.
  revert s. induction l1 as [|x l1 IH]; intros s; simpl; [done|].
  destruct (body x s) as [s1|]; simpl; [apply IH|done].
Qed.

Lemma for_each_preserves {A S} (P : S → Prop) (body : A → S → option S)
    (l : list A) (s s' : S) :
  (∀ x s1 s2, P s1 → body x s1 = Some s2 → P s2) →
  P s → for_each body l s = Some s' → P s'.
Proof.
  intros Hbody. revert s. induction l as [|x l IH]; intros s Hs; simpl.
  - by intros [= <-].
  - destruct (body x s) as [s1|] eqn:Hx; simpl; [|done]. eauto.
Qed.

Section Properties.

Context {W : Type}.

Implicit Types (d : lock_free_deque W) (task : fn W) (q : work_queue_t W).
Implicit Types (s : system_scheduler W).

(** ** The deque *)

Lemma new_deque_inv : deque_inv (@new_deque W).
Proof.
  split; simpl; rewrite ?length_replicate;
    unfold DEFAULT_CAPACITY, INT_MAX; lia.
Qed.

Lemma move_slot_in_range d (k : Z) :
  0 ≤ k < Z.of_nat (length (buffer d)) →
  ∃ x, vec_at (buffer d) k = Some x
       ∧ move_slot k d = Some (x, set_buffer (<[Z.to_nat k := None]> (buffer d)) d).
Proof.
  intros Hk. destruct (vec_at_in_range (buffer d) k Hk) as [x Hx].
  exists x. split; [done|]. unfold move_slot.
  rewrite Hx. simpl. by rewrite vec_set_in_range.
Qed.

Lemma mod_index (i cap : Z) : 0 < cap → 0 ≤ i mod cap < cap.
Proof. intros. apply Z.mod_pos_bound. lia. Qed.

(** [steal] without interference, in closed form. *)
Lemma steal_unfold task d :
  steal task d =
    if top d <? bottom d then
      k ← int_rem (top d) (capacity d);
      '(x, d1) ← move_slot k d;
      t1 ← int_ (top d + 1);
      let '(swapped, d2) := compare_exchange_top (top d) t1 d1 in
      Some (swapped, x, d2)
    else Some (false, task, d).
Proof.
  unfold steal. simpl.
  destruct (top d <? bottom d); simpl; [|done].
  destruct (int_rem (top d) (capacity d)) as [k|]; simpl; [|done].
  destruct (move_slot k d) as [[x d1]|]; simpl; [|done].
  destruct (int_ (top d + 1)) as [t1|]; simpl; [|done].
  by destruct (compare_exchange_top (top d) t1 d1).
Qed.

(** A steal on an empty deque fails and changes nothing. *)
Lemma steal_empty task d :
  bottom d ≤ top d → steal task d = Some (false, task, d).
Proof.
  intros. rewrite steal_unfold. by destruct (Z.ltb_spec (top d) (bottom d)); [lia|].
Qed.

(** A steal on a deque with [top < bottom] takes the slot at [top]. *)
Lemma steal_nonempty task d :
  deque_inv d → top d < bottom d →
  ∃ x, buffer d !! Z.to_nat (top d mod capacity d) = Some x
    ∧ steal task d = Some (true, x,
        set_top (top d + 1)
          (set_buffer (<[Z.to_nat (top d mod capacity d) := None]> (buffer d)) d)).
Proof.
  intros [] Hlt. rewrite steal_unfold.
  destruct (Z.ltb_spec (top d) (bottom d)); [|lia].
  rewrite int_rem_nonneg by lia. simpl.
  pose proof (mod_index (top d) (capacity d) ltac:(lia)).
  destruct (move_slot_in_range d (top d mod capacity d)) as (x & Hx & ->); [lia|].
  rewrite vec_at_lookup in Hx by lia.
  exists x. split; [done|]. simpl.
  rewrite int_in_range by (unfold INT_MIN; lia). simpl.
  unfold compare_exchange_top. simpl. by rewrite Z.eqb_refl.
Qed.

Lemma steal_inv task d ok x d' :
  deque_inv d → steal task d = Some (ok, x, d') → deque_inv d'.
Proof.
  intros Hinv Hs. destruct (Z.lt_ge_cases (top d) (bottom d)) as [Hlt|Hge].
  - destruct (steal_nonempty task d Hinv Hlt) as (y & _ & Heq).
    rewrite Heq in Hs. injection Hs as <- <- <-.
    destruct Hinv. split; simpl; rewrite ?length_insert; lia.
  - rewrite steal_empty in Hs by done. by injection Hs as <- <- <-.
Qed.

(** A pop on an empty deque fails and changes nothing. *)
Lemma pop_empty task d :
  deque_inv d → bottom d ≤ top d → pop task d = Some (false, task, d).
Proof.
  intros [] Hle. unfold pop.
  rewrite int_in_range by (unfold INT_MIN; lia). simpl.
  destruct (Z.leb_spec (top d) (bottom d - 1)); [lia|].
  rewrite int_in_range by (unfold INT_MIN; lia). simpl.
  unfold set_bottom. simpl. destruct d; simpl. do 3 f_equal. lia.
Qed.

(** A pop on a deque with [top < bottom] takes the slot at [bottom - 1];
    [top] advances when that was the last task, and [bottom] stays
    decremented in either case. *)
Lemma pop_nonempty task d :
  deque_inv d → top d < bottom d →
  ∃ x, buffer d !! Z.to_nat ((bottom d - 1) mod capacity d) = Some x
    ∧ pop task d = Some (true, x,
        mk_deque (capacity d)
          (<[Z.to_nat ((bottom d - 1) mod capacity d) := None]> (buffer d))
          (if top d =? bottom d - 1 then top d + 1 else top d)
          (bottom d - 1)).
Proof.
  intros [] Hlt. unfold pop.
  rewrite int_in_range by (unfold INT_MIN; lia). simpl.
  destruct (Z.leb_spec (top d) (bottom d - 1)); [|lia].
  rewrite int_rem_nonneg by lia. simpl.
  pose proof (mod_index (bottom d - 1) (capacity d) ltac:(lia)).
  destruct (move_slot_in_range (set_bottom (bottom d - 1) d)
              ((bottom d - 1) mod capacity d)) as (x & Hx & ->); [simpl; lia|].
  rewrite vec_at_lookup in Hx by lia.
  exists x. split; [done|]. simpl.
  destruct (Z.eqb_spec (top d) (bottom d - 1)); [|done].
  rewrite (int_in_range (top d + 1)) by (unfold INT_MIN; lia). simpl.
  unfold compare_exchange_top. simpl. by rewrite Z.eqb_refl.
Qed.

Lemma pop_inv task d ok x d' :
  deque_inv d → pop task d = Some (ok, x, d') → deque_inv d'.
Proof.
  intros Hinv Hp. destruct (Z.lt_ge_cases (top d) (bottom d)) as [Hlt|Hge].
  - destruct (pop_nonempty task d Hinv Hlt) as (y & _ & Heq).
    rewrite Heq in Hp. injection Hp as <- <- <-.
    destruct Hinv. split; simpl; rewrite ?length_insert;
      try destruct (Z.eqb_spec (top d) (bottom d - 1)); lia.
  - rewrite pop_empty in Hp by done. by injection Hp as <- <- <-.
Qed.

(** The copy loop of [resize] stays inside both buffers. *)
Lemma resize_copy_defined (n : nat) (i oc nc : Z) (old new : list (fn W)) :
  0 ≤ i → i + Z.of_nat n ≤ INT_MAX → 0 < oc → 0 < nc →
  Z.of_nat (length old) = oc → Z.of_nat (length new) = nc →
  ∃ new', resize_copy n i oc nc old new = Some new'
          ∧ length new' = length new.
Proof.
  revert i old new. induction n as [|n IH]; intros i old new Hi Hn Hoc Hnc Hold Hnew.
  - simpl. eauto.
  - cbn [resize_copy].
    rewrite !int_rem_nonneg by lia. simpl.
    pose proof (mod_index i oc Hoc). pose proof (mod_index i nc Hnc).
    destruct (vec_at_in_range old (i mod oc)) as [x ->]; [lia|]. simpl.
    rewrite !vec_set_in_range by lia. simpl.
    rewrite int_in_range by (unfold INT_MIN; lia). simpl.
    destruct (IH (i + 1) (<[Z.to_nat (i mod oc) := None]> old)
                (<[Z.to_nat (i mod nc) := x]> new)) as (new' & Heq & Hlen);
      rewrite ?length_insert; try lia.
    exists new'. split; [done|]. by rewrite Hlen, length_insert.
Qed.

Lemma resize_defined d :
  deque_inv d → bottom d < 2 ^ 30 → capacity d ≤ bottom d - top d →
  ∃ d', resize d = Some d' ∧ capacity d' = 2 * capacity d
        ∧ Z.of_nat (length (buffer d')) = capacity d'
        ∧ top d' = top d ∧ bottom d' = bottom d.
Proof.
  intros [] Hb Hfull. unfold resize.
  rewrite int_in_range by (unfold INT_MIN, INT_MAX; lia). simpl.
  destruct (Z.ltb_spec (capacity d * 2) 0); [lia|].
  match goal with
  | |- context [resize_copy ?n ?i ?oc ?nc ?old ?new] =>
      destruct (resize_copy_defined n i oc nc old new) as (new' & Heq & Hlen);
        rewrite ?length_replicate; try lia; rewrite Heq
  end.
  simpl. eexists. split; [done|]. simpl.
  rewrite Hlen, length_replicate. lia.
Qed.

(** A push lands, advances [bottom] by one and leaves [top] alone. *)
Lemma push_defined task d :
  deque_inv d → bottom d < 2 ^ 30 →
  ∃ d', push task d = Some d' ∧ deque_inv d'
        ∧ bottom d' = bottom d + 1 ∧ top d' = top d.
Proof.
  intros Hinv Hb. pose proof Hinv as []. unfold push.
  rewrite int_in_range by (unfold INT_MIN, INT_MAX; lia). simpl.
  destruct (Z.leb_spec (capacity d) (bottom d - top d)) as [Hfull|Hroom].
  - destruct (resize_defined d Hinv Hb Hfull) as (d' & -> & Hcap & Hlen & Ht & Hbot).
    simpl. rewrite Hbot.
    rewrite int_rem_nonneg by lia. simpl.
    pose proof (mod_index (bottom d) (capacity d') ltac:(lia)).
    rewrite vec_set_in_range by lia. simpl.
    rewrite int_in_range by (unfold INT_MIN, INT_MAX; lia). simpl.
    eexists. split; [done|].
    split; [|simpl; lia].
    split; simpl; rewrite ?length_insert; unfold INT_MAX; lia.
  - simpl. rewrite int_rem_nonneg by lia. simpl.
    pose proof (mod_index (bottom d) (capacity d) ltac:(lia)).
    rewrite vec_set_in_range by lia. simpl.
    rewrite int_in_range by (unfold INT_MIN, INT_MAX; lia). simpl.
    eexists. split; [done|].
    split; [|simpl; lia].
    split; simpl; rewrite ?length_insert; unfold INT_MAX; lia.
Qed.

(** ** Claims about the deque *)

(** C5 (fails on the code).  On a fresh deque, one [push] followed by one
    [pop] returns the task and leaves [top = 1] and [bottom = 0]: the
    deque holds no live task, yet [bottom - top] is [-1], outside
    [[0, capacity]].  The branch of [pop] that wins the last task
    advances [top] and returns without storing [b + 1] back into
    [bottom]. *)
Theorem pop_last_breaks_index_invariant (task : fn W) :
  ∃ d, apply_ops [Push task; Pop] new_deque = Some d
       ∧ top d = 1 ∧ bottom d = 0 ∧ bottom d - top d = -1
       ∧ ¬ (0 ≤ bottom d - top d ≤ capacity d).
Proof.
  eexists. split; [vm_compute; reflexivity|]. simpl. lia.
Qed.

(** What the deque does keep through every completed operation:
    [-1 ≤ bottom - top ≤ capacity]. *)
Lemma resize_copy_length (n : nat) (i oc nc : Z) (old new new' : list (fn W)) :
  resize_copy n i oc nc old new = Some new' → length new' = length new.
Proof.
  revert i old new. induction n as [|n IH]; intros i old new; simpl.
  - by intros [= <-].
  - intros Hr. simplify_option_eq.
    match goal with H : vec_set new _ _ = Some _ |- _ =>
      apply vec_set_Some in H as [_ ->] end.
    erewrite IH by done. by rewrite length_insert.
Qed.

Lemma push_inv task d d' : deque_inv d → push task d = Some d' → deque_inv d'.
Proof.
  intros [] Hpush. unfold push in Hpush.
  rewrite int_in_range in Hpush by (unfold INT_MIN, INT_MAX in *; lia).
  simpl in Hpush.
  destruct (Z.leb_spec (capacity d) (bottom d - top d)) as [Hfull|Hfree].
  - unfold resize in Hpush.
    destruct (int_ (capacity d * 2)) as [nc|] eqn:Hnc; [|done].
    apply int_Some in Hnc as [-> Hnc]. simpl in Hpush.
    destruct (Z.ltb_spec (capacity d * 2) 0); [done|].
    destruct (resize_copy _ _ _ _ _ _) as [nb|] eqn:Hcopy; [|done].
    apply resize_copy_length in Hcopy. rewrite length_replicate in Hcopy.
    simpl in Hpush.
    destruct (int_rem (bottom d) (capacity d * 2)) as [k|]; [|done].
    simpl in Hpush.
    destruct (vec_set nb k task) as [buf|] eqn:Hbuf; [|done].
    apply vec_set_Some in Hbuf as [_ ->]. simpl in Hpush.
    destruct (int_ (bottom d + 1)) as [b1|] eqn:Hb1; [|done].
    apply int_Some in Hb1 as [-> Hb1]. injection Hpush as <-.
    split; simpl; rewrite ?length_insert; lia.
  - simpl in Hpush.
    destruct (int_rem (bottom d) (capacity d)) as [k|]; [|done].
    simpl in Hpush.
    destruct (vec_set (buffer d) k task) as [buf|] eqn:Hbuf; [|done].
    apply vec_set_Some in Hbuf as [_ ->]. simpl in Hpush.
    destruct (int_ (bottom d + 1)) as [b1|] eqn:Hb1; [|done].
    apply int_Some in Hb1 as [-> Hb1]. injection Hpush as <-.
    split; simpl; rewrite ?length_insert; lia.
Qed.

Lemma apply_ops_inv (os : list (deque_op W)) d d' :
  deque_inv d → apply_ops os d = Some d' →
  deque_inv d' ∧ -1 ≤ bottom d' - top d' ≤ capacity d'.
Proof.
  intros Hinv Hrun.
  assert (deque_inv d') as Hinv'; [|split; [done|destruct Hinv'; lia]].
  revert Hinv Hrun. apply for_each_preserves.
  intros [task| |] d1 d2 Hd1; simpl.
  - by apply push_inv.
  - destruct (pop None d1) as [[[ok x] d3]|] eqn:Hpop; [|done].
    simpl. intros [= <-]. by eapply pop_inv.
  - destruct (steal None d1) as [[[ok x] d3]|] eqn:Hs; [|done].
    simpl. intros [= <-]. by eapply steal_inv.
Qed.

(** The same from any deque holding exactly one live task. *)
Lemma pop_last_general task d :
  deque_inv d → top d = bottom d - 1 →
  ∃ x d', pop task d = Some (true, x, d') ∧ bottom d' - top d' = -1.
Proof.
  intros Hinv Hone.
  destruct (pop_nonempty task d Hinv) as (x & _ & Hpop); [lia|].
  eexists _, _. split; [exact Hpop|]. simpl.
  destruct (Z.eqb_spec (top d) (bottom d - 1)); lia.
Qed.

(** [steal] hands out a task only through a successful exchange on
    [top]: the one access that yields [StealReturn true] is the
    exchange, and it does so exactly when [top] still held [t]. *)
Lemma steal_step_success (pc : steal_pc) task task' d d' :
  steal_step (pc, task) d = Some ((StealReturn true, task'), d') →
  pc = StealReturn true
  ∨ ∃ t, pc = StealCas t ∧ top d = t ∧ top d' = t + 1.
Proof.
  destruct pc as [|t|t b|t cap|t|r]; simpl.
  - done.
  - done.
  - destruct (t <? b); done.
  - destruct (int_rem t cap) as [k|]; simpl; [|done].
    destruct (move_slot k d) as [[x d1]|]; simpl; done.
  - destruct (int_ (t + 1)) as [t1|] eqn:Ht1; simpl; [|done].
    apply int_Some in Ht1 as [-> _].
    unfold compare_exchange_top.
    destruct (Z.eqb_spec (top d) t); [|done].
    intros [= <- <-]. right. exists t. simpl. done.
  - intros [= -> <- <-]. by left.
Qed.

(** Only the slot move and a successful exchange write to the deque. *)
Lemma steal_step_writes (pc pc' : steal_pc) task task' d d' :
  steal_step (pc, task) d = Some ((pc', task'), d') →
  d' = d ∨ (∃ t cap, pc = StealMove t cap) ∨ (∃ t, pc = StealCas t ∧ pc' = StealReturn true).
Proof.
  destruct pc as [|t|t b|t cap|t|r]; simpl.
  - intros [= <- <- <-]. by left.
  - intros [= <- <- <-]. by left.
  - destruct (t <? b); intros [= <- <- <-]; by left.
  - intros _. right. left. eauto.
  - destruct (int_ (t + 1)) as [t1|]; simpl; [|done].
    unfold compare_exchange_top. destruct (top d =? t).
    + intros [= <- <- <-]. right. right. eauto.
    + intros [= <- <- <-]. by left.
  - intros [= <- <- <-]. by left.
Qed.

(** C7 (fails on the code).  A deque holds one task [t].  Thief A loads
    [top], [bottom] and [capacity] and moves the task out of slot 0,
    which leaves the slot empty.  Thief B then runs a whole [steal]: it
    moves the now empty slot and wins the exchange on [top].  Thief A's
    exchange fails and A returns empty.  A has returned empty, yet slot
    0 went from [t] to empty by A's own access; B returned success
    holding an empty function, and [t] is in neither the deque nor a
    successful result. *)
Theorem failed_steal_empties_slot (t : Task W) :
  ∃ d0 d1 d2,
    push (Some t) new_deque = Some d0
    ∧ buffer d0 !! 0%nat = Some (Some t)
    ∧ interleave [ThiefA; ThiefA; ThiefA; ThiefA]
        ((StealLoadTop, None), (StealLoadTop, None), d0)
      = Some ((StealCas 0, Some t), (StealLoadTop, None), d1)
    ∧ buffer d1 !! 0%nat = Some None
    ∧ top d1 = top d0 ∧ bottom d1 = bottom d0
    ∧ interleave [ThiefB; ThiefB; ThiefB; ThiefB; ThiefB; ThiefA]
        ((StealCas 0, Some t), (StealLoadTop, None), d1)
      = Some ((StealReturn false, Some t), (StealReturn true, None), d2)
    ∧ top d2 = 1 ∧ bottom d2 = 1.
Proof.
  eexists _, _, _.
  split; [vm_compute; reflexivity|].
  split; [reflexivity|].
  split; [vm_compute; reflexivity|].
  split; [reflexivity|].
  split; [reflexivity|].
  split; [reflexivity|].
  split; [vm_compute; reflexivity|].
  split; reflexivity.
Qed.

(** ** Claims about the scheduler *)

(** C10.  [operator==] answers [true] for every pair of schedulers,
    whatever their priorities, thread counts and queues. *)
Theorem scheduler_eq_always_true (a b : system_scheduler W) :
  scheduler_eq a b = true.
Proof. reflexivity. Qed.

(** C4.  Once the stop flag is set, [schedule] returns normally and the
    scheduler is left exactly as it was: the task is in no queue, no
    queue changed, and not even the round-robin counter moved. *)
Theorem schedule_after_stop_is_dropped task (priority : option priority_t) s :
  stop_flag s = true →
  schedule task priority s = Some s.
Proof. intros Hstop. unfold schedule. by rewrite Hstop. Qed.

(** ** The priority scan of a work queue *)

Lemma pop_fails_cleanly : fails_cleanly (W:=W) pop.
Proof.
  intros task d Hinv. destruct (Z.lt_ge_cases (top d) (bottom d)) as [Hlt|Hge].
  - right. destruct (pop_nonempty task d Hinv Hlt) as (x & _ & ->). eauto.
  - left. by apply pop_empty.
Qed.

Lemma steal_fails_cleanly : fails_cleanly (W:=W) steal.
Proof.
  intros task d Hinv. destruct (Z.lt_ge_cases (top d) (bottom d)) as [Hlt|Hge].
  - right. destruct (steal_nonempty task d Hinv Hlt) as (x & _ & ->). eauto.
  - left. by apply steal_empty.
Qed.

Lemma set_task_queues_same q : set_task_queues (task_queues q) q = q.
Proof. by destruct q. Qed.

Lemma priority_scan_outcome op (n : nat) task q :
  fails_cleanly op → Forall deque_inv (task_queues q) →
  (n ≤ length (task_queues q))%nat →
  ∃ r, priority_scan op n task q = Some r ∧ scan_outcome op n task q r.
Proof.
  intros Hop Hinv. induction n as [|p IH]; intros Hn.
  - eexists. split; [reflexivity|]. right. split; [|done]. intros; lia.
  - destruct (lookup_lt_is_Some_2 (task_queues q) p ltac:(lia)) as [d Hd].
    pose proof (Forall_lookup_1 _ _ _ _ Hinv Hd) as Hdinv.
    cbn [priority_scan]. rewrite vec_at_lookup, Nat2Z.id, Hd by lia. simpl.
    destruct (Hop task d Hdinv) as [Hfail|(x & d' & Hok)].
    + rewrite Hfail. simpl. rewrite vec_set_in_range, Nat2Z.id by lia. simpl.
      rewrite list_insert_id, set_task_queues_same by done.
      destruct IH as (r & Hr & Hout); [lia|].
      exists r. split; [done|].
      destruct Hout as [(p0 & d0 & x & d' & Hp0 & Hd0 & Hop0 & Habove & ->)|[Hall ->]].
      * left. exists p0, d0, x, d'. repeat split; try done; [lia|].
        intros p' dp Hp' Hdp. destruct (decide (p' = p)) as [->|].
        -- by simplify_eq.
        -- apply (Habove p'); [lia|done].
      * right. split; [|done]. intros p' dp Hp' Hdp.
        destruct (decide (p' = p)) as [->|].
        -- by simplify_eq.
        -- apply (Hall p'); [lia|done].
    + rewrite Hok. simpl. rewrite vec_set_in_range, Nat2Z.id by lia. simpl.
      eexists. split; [reflexivity|]. left.
      exists p, d, x, d'. repeat split; try done; [lia|]. intros; lia.
Qed.

(** C6.  On a work queue with its four deques, [pop_task] and
    [steal_task] try the deques from CRITICAL (3) down to LOW (0) and
    return the task of the first deque on which [pop] (or [steal])
    succeeds; the deques above it failed and are untouched, and the
    result is empty, with the queue unchanged, only when all four
    failed.  So when the CRITICAL deque has a task available, that
    task is the one returned, whatever the LOW deque holds. *)
Theorem priority_scan_highest_first task q :
  length (task_queues q) = 4%nat → Forall deque_inv (task_queues q) →
  (∃ r, pop_task task q = Some r ∧ scan_outcome pop 4 task q r)
  ∧ (∃ r, steal_task task q = Some r ∧ scan_outcome steal 4 task q r)
  ∧ (∀ dc, task_queues q !! 3%nat = Some dc → top dc < bottom dc →
       ∃ x dc',
         buffer dc !! Z.to_nat ((bottom dc - 1) mod capacity dc) = Some x
         ∧ pop task dc = Some (true, x, dc')
         ∧ pop_task task q
           = Some (true, x, set_task_queues (<[3%nat := dc']> (task_queues q)) q))
  ∧ (∀ dc, task_queues q !! 3%nat = Some dc → top dc < bottom dc →
       ∃ x dc',
         buffer dc !! Z.to_nat (top dc mod capacity dc) = Some x
         ∧ steal task dc = Some (true, x, dc')
         ∧ steal_task task q
           = Some (true, x, set_task_queues (<[3%nat := dc']> (task_queues q)) q)).
Proof.
  intros Hlen Hinv.
  split; [apply priority_scan_outcome; [apply pop_fails_cleanly|done|lia]|].
  split; [apply priority_scan_outcome; [apply steal_fails_cleanly|done|lia]|].
  split; intros dc Hdc Hlt;
    pose proof (Forall_lookup_1 _ _ _ _ Hinv Hdc) as Hdinv.
  - destruct (pop_nonempty task dc Hdinv Hlt) as (x & Hx & Hpop).
    eexists x, _. split; [done|]. split; [exact Hpop|].
    change (pop_task task q) with (priority_scan pop 4 task q).
    cbn [priority_scan]. rewrite vec_at_lookup, Nat2Z.id, Hdc by lia. simpl.
    rewrite Hpop. simpl. rewrite vec_set_in_range, Nat2Z.id by lia. done.
  - destruct (steal_nonempty task dc Hdinv Hlt) as (x & Hx & Hs).
    eexists x, _. split; [done|]. split; [exact Hs|].
    change (steal_task task q) with (priority_scan steal 4 task q).
    cbn [priority_scan]. rewrite vec_at_lookup, Nat2Z.id, Hdc by lia. simpl.
    rewrite Hs. simpl. rewrite vec_set_in_range, Nat2Z.id by lia. done.
Qed.

(** ** Submission *)

Lemma wrap64_small (z : Z) : 0 ≤ z < 2 ^ 64 → wrap64 z = z.
Proof. intros. unfold wrap64. by apply Z.mod_small. Qed.

Lemma wrap64_range (z : Z) : 0 ≤ wrap64 z < 2 ^ 64.
Proof. unfold wrap64. apply Z.mod_pos_bound. lia. Qed.

Lemma deque_room_weaken (m m' : Z) d : m' ≤ m → deque_room m d → deque_room m' d.
Proof. intros Hm [Hinv Hb]. split; [done|lia]. Qed.

Lemma queue_room_weaken (m m' : Z) q : m' ≤ m → queue_room m q → queue_room m' q.
Proof.
  intros Hm [Hlen Hall]. split; [done|].
  eapply Forall_impl; [exact Hall|]. intros d. by apply deque_room_weaken.
Qed.

(** [push_task] on a queue with room pushes on the deque of the given
    priority and leaves the queue with one submission less of room. *)
Lemma push_task_defined (m : Z) (p : priority_t) task q :
  0 ≤ m → queue_room (m + 1) q →
  ∃ q', push_task (priority_int p) task q = Some q' ∧ queue_room m q'
        ∧ active q' = active q.
Proof.
  intros Hm [Hlen Hall]. unfold push_task.
  assert (0 ≤ priority_int p < 4) as Hp by (destruct p; simpl; lia).
  destruct (lookup_lt_is_Some_2 (task_queues q) (Z.to_nat (priority_int p)))
    as [d Hd]; [lia|].
  rewrite vec_at_lookup, Hd by lia. simpl.
  destruct (Forall_lookup_1 _ _ _ _ Hall Hd) as [Hinv Hb].
  destruct (push_defined task d Hinv) as (d' & -> & Hinv' & Hb' & _); [lia|].
  simpl. rewrite vec_set_in_range by lia. simpl.
  eexists. split; [done|]. split; [|done].
  split; simpl; [by rewrite length_insert|].
  apply Forall_insert.
  - eapply Forall_impl; [exact Hall|]. intros d0. apply deque_room_weaken. lia.
  - split; [done|lia].
Qed.

(** The probe loop stops at once on an active queue. *)
Lemma skip_inactive_here (fuel : nat) (qs : list (work_queue_t W)) (num chosen : Z) q :
  0 ≤ chosen → qs !! Z.to_nat chosen = Some q → active q = true →
  skip_inactive (S fuel) qs num chosen = Some chosen.
Proof.
  intros Hc Hq Hact. simpl. rewrite vec_at_lookup, Hq by done. simpl.
  by rewrite Hact.
Qed.

(** The probe loop finds an active queue when one lies within [fuel]
    probes of [chosen], going round. *)
Lemma skip_inactive_defined (fuel : nat) (qs : list (work_queue_t W)) (num chosen : Z) :
  0 < num < 2 ^ 64 → Z.of_nat (length qs) = num → 0 ≤ chosen < num →
  (∃ (j : nat) q, (j < fuel)%nat
      ∧ qs !! Z.to_nat ((chosen + Z.of_nat j) mod num) = Some q
      ∧ active q = true) →
  ∃ c q, skip_inactive fuel qs num chosen = Some c ∧ 0 ≤ c < num
         ∧ qs !! Z.to_nat c = Some q ∧ active q = true.
Proof.
  intros Hnum Hlen. revert chosen.
  induction fuel as [|fuel IH]; intros chosen Hc (j & q & Hj & Hq & Hact); [lia|].
  destruct (lookup_lt_is_Some_2 qs (Z.to_nat chosen)) as [q0 Hq0]; [lia|].
  cbn [skip_inactive]. rewrite vec_at_lookup, Hq0 by lia. simpl.
  destruct (active q0) eqn:Hact0; [by exists chosen, q0|].
  destruct j as [|j].
  { rewrite Z.add_0_r, Z.mod_small in Hq by lia. congruence. }
  unfold size_rem. destruct (Z.eqb_spec num 0); [lia|]. simpl.
  rewrite wrap64_small by lia.
  apply IH; [apply Z.mod_pos_bound; lia|].
  exists j, q. split; [lia|]. split; [|done].
  rewrite Zplus_mod_idemp_l.
  by replace (chosen + 1 + Z.of_nat j) with (chosen + Z.of_nat (S j)) by lia.
Qed.

Lemma some_queue_within_reach (qs : list (work_queue_t W)) (num chosen : Z) :
  0 < num → Z.of_nat (length qs) = num → 0 ≤ chosen < num →
  Exists (λ q, active q = true) qs →
  ∃ (j : nat) q, (j < Z.to_nat num)%nat
      ∧ qs !! Z.to_nat ((chosen + Z.of_nat j) mod num) = Some q
      ∧ active q = true.
Proof.
  intros Hnum Hlen Hc Hex.
  apply Exists_exists in Hex as (q & Hin & Hact).
  apply list_elem_of_lookup in Hin as [i Hi].
  pose proof (lookup_lt_Some _ _ _ Hi) as Hilt.
  exists (Z.to_nat ((Z.of_nat i - chosen) mod num)), q.
  pose proof (Z.mod_pos_bound (Z.of_nat i - chosen) num Hnum).
  split; [lia|]. split; [|done].
  rewrite Z2Nat.id by lia.
  rewrite Zplus_mod_idemp_r.
  replace (chosen + (Z.of_nat i - chosen)) with (Z.of_nat i) by lia.
  rewrite Z.mod_small by lia. by rewrite Nat2Z.id.
Qed.

(** [schedule] on a running scheduler with an active queue: the counter
    advances, the probe settles on an active queue [c], and the task is
    pushed there at the priority of the call. *)
Lemma schedule_defined (m : Z) task (priority : option priority_t) s :
  0 ≤ m → scheduler_room (m + 1) s → stop_flag s = false →
  Exists (λ q, active q = true) (work_queues s) →
  ∃ (c : Z) q q',
    skip_inactive (Z.to_nat (num_queues s)) (work_queues s) (num_queues s)
      (next_queue s mod num_queues s) = Some c
    ∧ 0 ≤ c < num_queues s
    ∧ work_queues s !! Z.to_nat c = Some q
    ∧ push_task (priority_int (priority_argument priority)) task q = Some q'
    ∧ queue_room m q'
    ∧ active q' = active q
    ∧ schedule task priority s
      = Some (set_work_queues (<[Z.to_nat c := q']> (work_queues s))
                (set_next_queue (wrap64 (next_queue s + 1)) s)).
Proof.
  intros Hm [Hnum Hpos Hnext Hqs] Hstop Hex.
  pose proof (Z.mod_pos_bound (next_queue s) (num_queues s) ltac:(lia)) as Hr.
  destruct (skip_inactive_defined (Z.to_nat (num_queues s)) (work_queues s)
              (num_queues s) (next_queue s mod num_queues s))
    as (c & q & Hskip & Hc & Hq & Hact); [lia|lia|done| |].
  { apply some_queue_within_reach; try done; lia. }
  destruct (push_task_defined m (priority_argument priority) task q Hm)
    as (q' & Hpush & Hroom & Hactive).
  { by apply (Forall_lookup_1 _ _ _ _ Hqs Hq). }
  exists c, q, q'. do 6 (split; [done || lia|]).
  unfold schedule. rewrite Hstop. unfold size_rem.
  destruct (Z.eqb_spec (num_queues s) 0); [lia|]. simpl.
  rewrite Hskip. simpl. rewrite vec_at_lookup, Hq by lia. simpl.
  rewrite Hpush. simpl. by rewrite vec_set_in_range by lia.
Qed.

Lemma schedule_keeps_room (m : Z) s (c : Z) q' :
  0 ≤ m → scheduler_room (m + 1) s → queue_room m q' →
  scheduler_room m
    (set_work_queues (<[Z.to_nat c := q']> (work_queues s))
       (set_next_queue (wrap64 (next_queue s + 1)) s)).
Proof.
  intros Hm [Hnum Hpos Hnext Hqs] Hq'. split; simpl.
  - by rewrite length_insert.
  - done.
  - apply wrap64_range.
  - apply Forall_insert; [|done].
    eapply Forall_impl; [exact Hqs|]. intros q0. apply queue_room_weaken. lia.
Qed.

Lemma set_priority_room (m : Z) (p : priority_t) s :
  scheduler_room m s → scheduler_room m (set_priority p s).
Proof. intros []. by split. Qed.

(** C3 (as amended).  A call of [schedule] that omits the priority
    enqueues the task at NORMAL, whatever default priority [p] the
    scheduler was given; that default stays what [get_priority]
    returns and takes no part in the submission. *)
Theorem omitted_priority_is_normal (p : priority_t) task s :
  scheduler_room 1 s → stop_flag s = false →
  Exists (λ q, active q = true) (work_queues s) →
  ∃ s', schedule task None (set_priority p s) = Some s'
        ∧ enqueues_at task NORMAL (set_priority p s) s'
        ∧ get_priority s' = p.
Proof.
  intros Hroom Hstop Hex.
  destruct (schedule_defined 0 task None (set_priority p s))
    as (c & q & q' & _ & Hc & Hq & Hpush & _ & _ & Hsched);
    [lia|by apply set_priority_room|done|done|].
  pose proof Hroom as [Hnum _ _ _]. simpl in *.
  eexists. split; [exact Hsched|]. split; [|done].
  exists c, q, q'. simpl. split; [by rewrite vec_at_lookup by lia|].
  split; [done|]. by rewrite vec_set_in_range by lia.
Qed.

(** ** Round-robin placement *)

Lemma div_step (y n : Z) :
  0 < n → y / n - (y - 1) / n = if y mod n =? 0 then 1 else 0.
Proof.
  intros Hn. pose proof (Z.div_mod y n ltac:(lia)) as Hy.
  pose proof (Z.mod_pos_bound y n Hn) as Hr.
  destruct (Z.eqb_spec (y mod n) 0) as [H0|H0].
  - rewrite <- (Z.div_unique (y - 1) n (y / n - 1) (n - 1)); lia.
  - rewrite <- (Z.div_unique (y - 1) n (y / n) (y mod n - 1)); lia.
Qed.

(** How many of [len] consecutive counter values starting at [c] fall on
    queue [i]. *)
Lemma length_dealt {A} (num c i : Z) (ts : list A) :
  0 < num → 0 ≤ i < num →
  Z.of_nat (length (dealt num c i ts))
  = (c + Z.of_nat (length ts) - 1 - i) / num - (c - 1 - i) / num.
Proof.
  intros Hnum Hi. revert c. induction ts as [|t ts IH]; intros c.
  - simpl. rewrite Z.add_0_r. lia.
  - pose proof (div_step (c - i) num Hnum) as Hstep.
    replace (c - i - 1) with (c - 1 - i) in Hstep by lia.
    assert ((c mod num =? i) = ((c - i) mod num =? 0)) as Heq.
    { destruct (Z.eqb_spec (c mod num) i) as [Hc|Hc],
        (Z.eqb_spec ((c - i) mod num) 0) as [Hd|Hd]; try done; exfalso.
      - apply Hd. rewrite Zminus_mod, Hc, (Z.mod_small i) by lia.
        by rewrite Z.sub_diag.
      - apply Hc. apply Z.mod_divide in Hd as [z Hz]; [|lia].
        replace c with (i + z * num) by lia.
        rewrite Z.mod_add by lia. apply Z.mod_small; lia. }
    cbn [dealt length]. rewrite Heq.
    replace (c + Z.of_nat (S (length ts)) - 1 - i)
      with (c + 1 + Z.of_nat (length ts) - 1 - i) by lia.
    specialize (IH (c + 1)).
    replace (c + 1 - 1 - i) with (c - i) in IH by lia.
    destruct ((c - i) mod num =? 0); cbn [length]; lia.
Qed.

(** A whole number of rounds gives every queue the same share. *)
Lemma length_dealt_rounds {A} (num c i k : Z) (ts : list A) :
  0 < num → 0 ≤ i < num → Z.of_nat (length ts) = k * num →
  Z.of_nat (length (dealt num c i ts)) = k.
Proof.
  intros Hnum Hi Hlen. rewrite length_dealt, Hlen by done.
  replace (c + k * num - 1 - i) with (c - 1 - i + k * num) by lia.
  rewrite Z.div_add by lia. lia.
Qed.

(** Submitting [ts] to a running scheduler whose queues are all active:
    queue [i] ends up as itself after the pushes [dealt] hands it. *)
Lemma submissions_dealt (ts : list (submission W)) s :
  scheduler_room (Z.of_nat (length ts)) s → stop_flag s = false →
  Forall (λ q, active q = true) (work_queues s) →
  next_queue s + Z.of_nat (length ts) ≤ 2 ^ 64 →
  ∃ s', for_each submit ts s = Some s'
    ∧ length (work_queues s') = length (work_queues s)
    ∧ ∀ (i : nat) q, work_queues s !! i = Some q →
        ∃ q', work_queues s' !! i = Some q'
          ∧ for_each deposit
              (dealt (num_queues s) (next_queue s) (Z.of_nat i) ts) q = Some q'.
Proof.
  revert s. induction ts as [|t ts IH]; intros s Hroom Hstop Hact Hwrap.
  { exists s. split; [done|]. split; [done|]. intros i q Hq. by exists q. }
  cbn [length] in Hroom, Hwrap. rewrite Nat2Z.inj_succ in Hroom, Hwrap.
  unfold Z.succ in Hroom, Hwrap.
  pose proof Hroom as [Hnum Hpos Hnext Hqs].
  assert (Exists (λ q, active q = true) (work_queues s)) as Hex.
  { destruct (work_queues s) as [|q0 qs] eqn:Hw; [simpl in Hnum; lia|].
    apply Exists_cons_hd. by inversion Hact. }
  destruct (schedule_defined (Z.of_nat (length ts)) t.1 t.2 s)
    as (c & q & q' & Hskip & Hc & Hq & Hpush & Hq'room & Hq'act & Hsched);
    [lia|done|done|done|].
  (* every queue is active, so the probe stays on the counter's queue *)
  pose proof (Z.mod_pos_bound (next_queue s) (num_queues s) ltac:(lia)) as Hr.
  destruct (lookup_lt_is_Some_2 (work_queues s)
              (Z.to_nat (next_queue s mod num_queues s))) as [q0 Hq0]; [lia|].
  assert (c = next_queue s mod num_queues s) as ->.
  { replace (Z.to_nat (num_queues s)) with (S (Z.to_nat (num_queues s) - 1))
      in Hskip by lia.
    rewrite (skip_inactive_here _ _ _ _ q0) in Hskip; [congruence|lia|done|].
    by apply (Forall_lookup_1 _ _ _ _ Hact Hq0). }
  set (s1 := set_work_queues _ _) in Hsched.
  assert (scheduler_room (Z.of_nat (length ts)) s1) as Hroom1.
  { apply schedule_keeps_room; [lia|done|done]. }
  assert (work_queues s1
          = <[Z.to_nat (next_queue s mod num_queues s) := q']> (work_queues s))
    as Hw1 by done.
  assert (∀ (i : nat) qi, work_queues s !! i = Some qi →
            work_queues s1 !! i
            = Some (if next_queue s mod num_queues s =? Z.of_nat i then q' else qi)
            ∧ (next_queue s mod num_queues s = Z.of_nat i → qi = q)) as Hat.
  { intros i qi Hqi. rewrite Hw1.
    destruct (Z.eqb_spec (next_queue s mod num_queues s) (Z.of_nat i)) as [Hi|Hi].
    - rewrite Hi, Nat2Z.id in *. split; [|congruence].
      apply list_lookup_insert_eq. by eapply lookup_lt_Some.
    - split; [|done]. rewrite list_lookup_insert_ne by lia. done. }
  cbn [for_each]. change (submit t s) with (schedule t.1 t.2 s).
  rewrite Hsched. simpl.
  assert (∀ (i : nat) qi (l : list (submission W)) qf,
            work_queues s !! i = Some qi →
            for_each deposit l
              (if next_queue s mod num_queues s =? Z.of_nat i then q' else qi)
            = Some qf →
            for_each deposit
              (if next_queue s mod num_queues s =? Z.of_nat i then t :: l else l)
              qi = Some qf) as Hhead.
  { intros i qi l qf Hqi Hl. destruct (Hat i qi Hqi) as [_ Hsame].
    destruct (Z.eqb_spec (next_queue s mod num_queues s) (Z.of_nat i)) as [Hi|Hi];
      [|done].
    rewrite (Hsame Hi). cbn [for_each].
    change (deposit t q) with
      (push_task (priority_int (priority_argument t.2)) t.1 q).
    by rewrite Hpush. }
  destruct ts as [|t' ts'].
  { exists s1. split; [done|]. split; [by rewrite Hw1, length_insert|].
    intros i qi Hqi. destruct (Hat i qi Hqi) as [Hi1 _].
    eexists. split; [exact Hi1|]. cbn [dealt]. by apply Hhead. }
  assert (next_queue s1 = next_queue s + 1) as Hn1.
  { unfold s1. simpl. cbn [length] in Hwrap. rewrite wrap64_small; lia. }
  destruct (IH s1) as (s' & Hrun & Hlen & Hdealt); [done|done| | |].
  { rewrite Hw1. apply Forall_insert; [done|].
    rewrite Hq'act. by apply (Forall_lookup_1 _ _ _ _ Hact Hq). }
  { rewrite Hn1. lia. }
  exists s'. split; [done|]. split; [by rewrite Hlen, Hw1, length_insert|].
  intros i qi Hqi. destruct (Hat i qi Hqi) as [Hi1 _].
  change (num_queues s1) with (num_queues s) in Hdealt. rewrite Hn1 in Hdealt.
  destruct (Hdealt i _ Hi1) as (qf & Hqf & Hdep).
  exists qf. split; [done|]. cbn [dealt].
  specialize (Hhead i qi _ qf Hqi Hdep).
  by destruct (next_queue s mod num_queues s =? Z.of_nat i).
Qed.

(** Round-robin placement.  On a running scheduler with [N] queues, all
    active, and no other activity, [k·N] calls of [schedule] return and
    make exactly [k] calls of [push_task] on every queue [i]: those of
    the calls whose counter value is [i] modulo [N].  The counter is
    taken not to wrap around [2^64] within the [k·N] calls.  Whether a
    queue then holds the tasks pushed depends on its deques: one that
    a pop has drained does not. *)
Theorem round_robin_coverage (k : Z) (ts : list (submission W)) s :
  1 ≤ k → Z.of_nat (length ts) = k * num_queues s →
  scheduler_room (k * num_queues s) s → stop_flag s = false →
  Forall (λ q, active q = true) (work_queues s) →
  next_queue s + k * num_queues s ≤ 2 ^ 64 →
  ∃ s', for_each submit ts s = Some s'
    ∧ length (work_queues s') = length (work_queues s)
    ∧ ∀ (i : nat) q, work_queues s !! i = Some q →
        ∃ q' ts_i,
          work_queues s' !! i = Some q'
          ∧ ts_i = dealt (num_queues s) (next_queue s) (Z.of_nat i) ts
          ∧ Z.of_nat (length ts_i) = k
          ∧ for_each deposit ts_i q = Some q'.
Proof.
  intros Hk Hlen Hroom Hstop Hact Hwrap.
  rewrite <- Hlen in Hroom, Hwrap.
  destruct (submissions_dealt ts s Hroom Hstop Hact Hwrap)
    as (s' & Hrun & Hlen' & Hdealt).
  exists s'. split; [done|]. split; [done|].
  intros i q Hq. destruct (Hdealt i q Hq) as (q' & Hq' & Hdep).
  exists q', (dealt (num_queues s) (next_queue s) (Z.of_nat i) ts).
  split; [done|]. split; [done|]. split; [|done].
  pose proof Hroom as [Hnum Hpos _ _].
  apply length_dealt_rounds; [lia| |done].
  apply lookup_lt_Some in Hq. lia.
Qed.

(** ** The worker count *)

Lemma schedule_active_count task (priority : option priority_t) s s' :
  schedule task priority s = Some s' →
  active_thread_count s' = active_thread_count s.
Proof.
  unfold schedule. destruct (stop_flag s); [by intros [= <-]|].
  intros Hs. simplify_option_eq. done.
Qed.

Lemma bulk_schedule_active_count (n : Z) (task : IndexedTask W)
    (priority : option priority_t) s s' :
  bulk_schedule n task priority s = Some s' →
  active_thread_count s' = active_thread_count s.
Proof.
  unfold bulk_schedule, bulk_schedule_on.
  apply (for_each_preserves
           (λ s1, active_thread_count s1 = active_thread_count s)); [|done].
  intros chunk s1 s2 Hs1. case_match.
  - intros Hs2. apply schedule_active_count in Hs2. congruence.
  - intros [= <-]. done.
Qed.

Lemma worker_iteration_active_count (thread_id : nat) (shuffled : list nat)
    s (w w' : W) s' (ret : bool) :
  worker_iteration thread_id shuffled s w = Some (s', w', ret) →
  active_thread_count s' = active_thread_count s.
Proof.
  unfold worker_iteration. intros Hw.
  repeat (simplify_option_eq || case_match); done.
Qed.

Lemma step_active_count (e : event W) (p p' : pool W) :
  step e p = Some p' →
  active_thread_count (scheduler p') = active_thread_count (scheduler p).
Proof.
  destruct e as [task pr|n task pr|pr| |err|thread_id shuffled|]; simpl.
  - destruct (schedule task pr (scheduler p)) as [s'|] eqn:Hs; [|done].
    intros [= <-]. simpl. by eapply schedule_active_count.
  - case_match; [|done].
    destruct (bulk_schedule n task pr (scheduler p)) as [s'|] eqn:Hs; [|done].
    intros [= <-]. simpl. by eapply bulk_schedule_active_count.
  - by intros [= <-].
  - by intros [= <-].
  - destruct err; simpl; [| |done]; by intros [= <-].
  - case_match; [|done].
    destruct (worker_iteration thread_id shuffled (scheduler p) (program p))
      as [[[s' w'] ret]|] eqn:Hw; [|done].
    intros [= <-]. simpl. by eapply worker_iteration_active_count.
  - by intros [= <-].
Qed.

(** C9.  [get_active_thread_count] returns the worker count fixed by the
    constructor ([thread_count] if positive, else the hardware
    concurrency) after every execution: no call of [schedule],
    [bulk_schedule], [set_priority], [set_stopped], [set_error], no
    worker turn and not the destructor's stop changes it. *)
Theorem active_thread_count_constant (hardware_concurrency num_nodes : Z)
    (priority : priority_t) (thread_count : Z) (es : list (event W))
    (w : W) (p' : pool W) :
  execute es
    (mk_pool (new_system_scheduler hardware_concurrency num_nodes priority
                thread_count) w []) = Some p' →
  get_active_thread_count (scheduler p')
  = if 0 <? thread_count then thread_count else hardware_concurrency.
Proof.
  intros Hrun. unfold get_active_thread_count.
  apply (for_each_preserves
           (λ p : pool W, active_thread_count (scheduler p)
              = if 0 <? thread_count then thread_count else hardware_concurrency))
    in Hrun; [done| |done].
  intros e p1 p2 Hp1 Hstep. apply step_active_count in Hstep. congruence.
Qed.

Lemma new_scheduler_room (m hardware_concurrency num_nodes : Z)
    (priority : priority_t) (thread_count : Z) :
  0 < (if 0 <? thread_count then thread_count else hardware_concurrency) < 2 ^ 64 →
  m ≤ 2 ^ 30 →
  scheduler_room m
    (@new_system_scheduler W hardware_concurrency num_nodes priority thread_count).
Proof.
  intros Hn Hm. split; simpl.
  - rewrite length_replicate. lia.
  - done.
  - lia.
  - apply Forall_replicate. split; [done|].
    apply Forall_replicate. split; [apply new_deque_inv|]. simpl. lia.
Qed.

Lemma new_scheduler_active (hardware_concurrency num_nodes : Z)
    (priority : priority_t) (thread_count : Z) :
  Forall (λ q, active q = true)
    (work_queues (@new_system_scheduler W hardware_concurrency num_nodes
                    priority thread_count)).
Proof. simpl. by apply Forall_replicate. Qed.

(** ** Reachable schedulers are well formed *)

Lemma push_task_wf (prio : Z) task q q' :
  queue_wf q → push_task prio task q = Some q' → queue_wf q'.
Proof.
  intros [Hlen Hall]. unfold push_task. intros Hp.
  destruct (vec_at (task_queues q) prio) as [d|] eqn:Hd; [|done].
  simpl in Hp. destruct (push task d) as [d'|] eqn:Hpush; [|done].
  simpl in Hp. destruct (vec_set (task_queues q) prio d') as [l|] eqn:Hl; [|done].
  injection Hp as <-.
  apply vec_at_Some in Hd as [_ Hd]. apply vec_set_Some in Hl as [_ ->].
  split; simpl; [by rewrite length_insert|].
  apply Forall_insert; [done|].
  eapply push_inv; [|done]. by eapply Forall_lookup_1.
Qed.

Lemma priority_scan_wf op (n : nat) task q (ok : bool) x q' :
  (∀ task d ok x d', deque_inv d → op task d = Some (ok, x, d') → deque_inv d') →
  queue_wf q → priority_scan op n task q = Some (ok, x, q') → queue_wf q'.
Proof.
  intros Hop. revert task q. induction n as [|p IH]; intros task q Hwf; simpl.
  - by intros [= <- <- <-].
  - intros Hs.
    destruct (vec_at (task_queues q) (Z.of_nat p)) as [d|] eqn:Hd; [|done].
    simpl in Hs. destruct (op task d) as [[[ok1 x1] d1]|] eqn:Hop1; [|done].
    simpl in Hs.
    destruct (vec_set (task_queues q) (Z.of_nat p) d1) as [l|] eqn:Hl; [|done].
    simpl in Hs.
    apply vec_at_Some in Hd as [_ Hd]. apply vec_set_Some in Hl as [_ ->].
    assert (queue_wf (set_task_queues
              (<[Z.to_nat (Z.of_nat p) := d1]> (task_queues q)) q)) as Hwf'.
    { destruct Hwf as [Hlen Hall]. split; simpl; [by rewrite length_insert|].
      apply Forall_insert; [done|].
      eapply Hop; [|done]. by eapply Forall_lookup_1. }
    destruct ok1; [by injection Hs as <- <- <-|]. by eapply IH.
Qed.

Lemma pop_task_wf task q (ok : bool) x q' :
  queue_wf q → pop_task task q = Some (ok, x, q') → queue_wf q'.
Proof. apply priority_scan_wf. intros ?????. apply pop_inv. Qed.

Lemma steal_task_wf task q (ok : bool) x q' :
  queue_wf q → steal_task task q = Some (ok, x, q') → queue_wf q'.
Proof. apply priority_scan_wf. intros ?????. apply steal_inv. Qed.

Lemma steal_sweep_wf (ids : list nat) task (qs qs' : list (work_queue_t W))
    (ok : bool) x :
  Forall queue_wf qs → steal_sweep ids task qs = Some (ok, x, qs') →
  Forall queue_wf qs' ∧ length qs' = length qs.
Proof.
  revert task qs. induction ids as [|i ids IH]; intros task qs Hwf; simpl.
  - by intros [= <- <- <-].
  - intros Hs. destruct (qs !! i) as [q|] eqn:Hq; [|done]. simpl in Hs.
    destruct (active q); [|by eapply IH].
    destruct (steal_task task q) as [[[ok1 x1] q1]|] eqn:Hst; [|done].
    simpl in Hs.
    assert (Forall queue_wf (<[i := q1]> qs)) as Hwf1.
    { apply Forall_insert; [done|].
      eapply steal_task_wf; [|done]. by eapply Forall_lookup_1. }
    destruct ok1.
    + injection Hs as <- <- <-. by rewrite length_insert.
    + apply IH in Hs as [? Hlen]; [|done]. by rewrite length_insert in Hlen.
Qed.

Lemma schedule_wf task (priority : option priority_t) s s' :
  scheduler_wf s → schedule task priority s = Some s' → scheduler_wf s'.
Proof.
  intros [Hnum Hall]. unfold schedule.
  destruct (stop_flag s); [by intros [= <-]|].
  intros Hs.
  destruct (size_rem _ _) as [c0|]; [|done]. simpl in Hs.
  destruct (skip_inactive _ _ _ _) as [c|]; [|done]. simpl in Hs.
  destruct (vec_at (work_queues s) c) as [q|] eqn:Hq; [|done]. simpl in Hs.
  destruct (push_task _ task q) as [q'|] eqn:Hpush; [|done]. simpl in Hs.
  destruct (vec_set (work_queues s) c q') as [qs|] eqn:Hqs; [|done].
  injection Hs as <-.
  apply vec_at_Some in Hq as [_ Hq]. apply vec_set_Some in Hqs as [_ ->].
  split; simpl; [by rewrite length_insert|].
  apply Forall_insert; [done|].
  eapply push_task_wf; [|done]. by eapply Forall_lookup_1.
Qed.

Lemma bulk_schedule_wf (n : Z) (task : IndexedTask W)
    (priority : option priority_t) s s' :
  scheduler_wf s → bulk_schedule n task priority s = Some s' → scheduler_wf s'.
Proof.
  unfold bulk_schedule, bulk_schedule_on. apply for_each_preserves.
  intros chunk s1 s2 Hs1. case_match.
  - by apply schedule_wf.
  - by intros [= <-].
Qed.

Lemma worker_iteration_wf (thread_id : nat) (shuffled : list nat)
    s (w w' : W) s' (ret : bool) :
  scheduler_wf s →
  worker_iteration thread_id shuffled s w = Some (s', w', ret) →
  scheduler_wf s'.
Proof.
  intros Hwf. unfold worker_iteration.
  (* the worker's own queue *)
  set (own := if bool_decide _ then _ else _).
  destruct own as [[[found1 task1] s1]|] eqn:Hown; [|done]. simpl.
  assert (scheduler_wf s1) as Hwf1.
  { subst own. destruct (bool_decide _); [|by injection Hown as <- <- <-].
    destruct (work_queues s !! thread_id) as [q|] eqn:Hq; [|done].
    simpl in Hown.
    destruct (pop_task None q) as [[[ok x] q1]|] eqn:Hpop; [|done].
    injection Hown as <- <- <-. destruct Hwf as [Hnum Hall].
    split; simpl; [by rewrite length_insert|].
    apply Forall_insert; [done|].
    eapply pop_task_wf; [|done]. by eapply Forall_lookup_1. }
  clear Hown own.
  (* the sweep over the peers *)
  set (sweep := if negb found1 then _ else _).
  destruct sweep as [[[found2 task2] s2]|] eqn:Hsweep; [|done]. simpl.
  assert (scheduler_wf s2) as Hwf2.
  { subst sweep. destruct (negb found1); [|by injection Hsweep as <- <- <-].
    destruct (steal_sweep shuffled task1 (work_queues s1))
      as [[[ok x] qs]|] eqn:Hsw; [|done].
    injection Hsweep as <- <- <-. destruct Hwf1 as [Hnum Hall].
    apply steal_sweep_wf in Hsw as [? Hlen]; [|done].
    split; simpl; [by rewrite Hlen|done]. }
  clear Hsweep sweep.
  destruct found2.
  - destruct task2 as [run|]; simpl; [|done]. by intros [= <- <- <-].
  - assert (scheduler_wf
              (set_idle_count (wrap32 (idle_count
                 (set_idle_count (wrap32 (idle_count s2 + 1)) s2) - 1))
                 (set_idle_count (wrap32 (idle_count s2 + 1)) s2))) as Hidle.
    { destruct Hwf2. by split. }
    case_match; by intros [= <- <- <-].
Qed.

Lemma step_wf (e : event W) (p p' : pool W) :
  scheduler_wf (scheduler p) → step e p = Some p' → scheduler_wf (scheduler p').
Proof.
  intros Hwf.
  destruct e as [task pr|n task pr|pr| |err|thread_id shuffled|]; simpl.
  - destruct (schedule task pr (scheduler p)) as [s'|] eqn:Hs; [|done].
    intros [= <-]. simpl. by eapply schedule_wf.
  - case_match; [|done].
    destruct (bulk_schedule n task pr (scheduler p)) as [s'|] eqn:Hs; [|done].
    intros [= <-]. simpl. by eapply bulk_schedule_wf.
  - intros [= <-]. destruct Hwf. by split.
  - intros [= <-]. destruct Hwf. by split.
  - destruct err; simpl; [| |done]; by intros [= <-].
  - case_match; [|done].
    destruct (worker_iteration thread_id shuffled (scheduler p) (program p))
      as [[[s' w'] ret]|] eqn:Hw; [|done].
    intros [= <-]. simpl. by eapply worker_iteration_wf.
  - intros [= <-]. destruct Hwf. by split.
Qed.

Lemma new_scheduler_wf (hardware_concurrency num_nodes : Z)
    (priority : priority_t) (thread_count : Z) :
  0 ≤ (if 0 <? thread_count then thread_count else hardware_concurrency) →
  scheduler_wf
    (@new_system_scheduler W hardware_concurrency num_nodes priority thread_count).
Proof.
  intros Hn. split; simpl.
  - rewrite length_replicate. lia.
  - apply Forall_replicate. split; [done|].
    apply Forall_replicate, new_deque_inv.
Qed.

(** Every scheduler an execution reaches has queues of four deques, each
    within [deque_inv]: what the claims on work queues assume holds
    along every execution. *)
Lemma execute_wf (es : list (event W)) (p p' : pool W) :
  scheduler_wf (scheduler p) → execute es p = Some p' →
  scheduler_wf (scheduler p').
Proof.
  apply (for_each_preserves (λ p : pool W, scheduler_wf (scheduler p))).
  intros e p1 p2. apply step_wf.
Qed.

End Properties.

(** ** Bulk submission *)

Lemma for_each_fmap {A B S} (g : A → B) (body : B → S → option S)
    (l : list A) (s : S) :
  for_each body (g <$> l) s = for_each (λ x, body (g x)) l s.
Proof.
  revert s. induction l as [|x l IH]; intros s; simpl; [done|].
  destruct (body (g x) s); simpl; [apply IH|done].
Qed.

(** A loop whose body acts only on the elements passing a test is the
    loop over those elements. *)
Lemma for_each_filter {A S} (P : A → Prop) `{!∀ x, Decision (P x)}
    (test : A → bool) (body : A → S → option S) (l : list A) (s : S) :
  (∀ x, test x = true ↔ P x) →
  for_each (λ x s, if test x then body x s else Some s) l s
  = for_each body (filter P l) s.
Proof.
  intros Htest. revert s. induction l as [|x l IH]; intros s; [done|].
  cbn [for_each]. rewrite filter_cons.
  destruct (test x) eqn:Hx, (decide (P x)) as [HP|HP].
  - cbn [for_each]. destruct (body x s); simpl; [apply IH|done].
  - by apply Htest in Hx.
  - apply Htest in HP. congruence.
  - simpl. apply IH.
Qed.

Lemma for_each_record {A B} (g : A → B) (l : list A) (calls : list B) :
  for_each (λ x calls, Some (calls ++ [g x])) l calls = Some (calls ++ (g <$> l)).
Proof.
  revert calls. induction l as [|x l IH]; intros calls; simpl.
  - by rewrite app_nil_r.
  - rewrite IH. by rewrite <- app_assoc.
Qed.

Lemma concat_singletons (l : list Z) : concat ((λ c, [c]) <$> l) = l.
Proof. induction l as [|x l IH]; simpl; [done|]. f_equal. exact IH. Qed.

Lemma concat_fmap_filter {A B} (P : A → Prop) `{!∀ x, Decision (P x)}
    (f : A → list B) (l : list A) :
  (∀ x, ¬ P x → f x = []) →
  concat (f <$> filter P l) = concat (f <$> l).
Proof.
  intros Hf. induction l as [|x l IH]; [done|].
  rewrite filter_cons. destruct (decide (P x)) as [HP|HP].
  - cbn [fmap list_fmap concat]. f_equal. exact IH.
  - cbn [fmap list_fmap concat]. rewrite (Hf x HP). exact IH.
Qed.

(** The closure of a chunk calls the indexed task on the indices of the
    chunk in ascending order. *)
Lemma chunk_closure_log (start end_ : Z) (l : list Z) :
  chunk_closure start end_ index_log l = l ++ seqZ start (end_ - start).
Proof.
  unfold chunk_closure. generalize (seqZ start (end_ - start)) as k.
  intros k. revert l. induction k as [|i k IH]; intros l; simpl.
  - by rewrite app_nil_r.
  - rewrite IH. unfold index_log. by rewrite <- app_assoc.
Qed.

Lemma wrap32_small (z : Z) : 0 ≤ z < 2 ^ 32 → wrap32 z = z.
Proof. intros. unfold wrap32. by apply Z.mod_small. Qed.

Lemma bulk_num_chunks_max (active_threads n : Z) :
  0 < n →
  bulk_num_chunks active_threads n = Z.max (wrap32 (active_threads * 8)) n.
Proof.
  intros Hn. unfold bulk_num_chunks.
  destruct (Z.eqb_spec (Z.max (wrap32 (active_threads * 8)) n) 0); lia.
Qed.

Lemma bulk_num_chunks_range (active_threads n : Z) :
  0 < n < 2 ^ 32 →
  n ≤ bulk_num_chunks active_threads n < 2 ^ 32.
Proof.
  intros Hn. rewrite bulk_num_chunks_max by lia.
  pose proof (Z.mod_pos_bound (active_threads * 8) (2 ^ 32) ltac:(lia)).
  unfold wrap32. lia.
Qed.

(** With at least [n] chunks the quotient is [1] and the remainder [0],
    or the quotient is [0] and the remainder [n]. *)
Lemma bulk_quotient (chunks n : Z) :
  0 < n ≤ chunks →
  (chunks = n ∧ n / chunks = 1 ∧ n mod chunks = 0)
  ∨ (n < chunks ∧ n / chunks = 0 ∧ n mod chunks = n).
Proof.
  intros Hn. destruct (decide (chunks = n)) as [->|Hne].
  - left. rewrite Z.div_same, Z.mod_same by lia. done.
  - right. rewrite Z.div_small, Z.mod_small by lia. lia.
Qed.

(** Chunk [c] is the range from [min c n] to [min (c+1) n]; the 32-bit
    arithmetic of the source never wraps. *)
Lemma chunk_bounds (chunks n c : Z) :
  0 < n ≤ chunks → chunks < 2 ^ 32 → 0 ≤ c < chunks →
  chunk_start c (n / chunks) (n mod chunks) = Z.min c n
  ∧ chunk_end c (n / chunks) (n mod chunks) = Z.min (c + 1) n.
Proof.
  intros Hn Hchunks Hc. unfold chunk_end, chunk_start.
  destruct (bulk_quotient chunks n Hn) as [(-> & -> & ->)|(Hlt & -> & ->)].
  - rewrite Z.mul_1_r, (wrap32_small c) by lia.
    rewrite (Z.min_r c 0), Z.add_0_r, (wrap32_small c) by lia.
    destruct (Z.ltb_spec c 0); [lia|].
    rewrite (wrap32_small (c + 1)), Z.add_0_r, (wrap32_small (c + 1)) by lia.
    lia.
  - rewrite Z.mul_0_r, (wrap32_small 0), Z.add_0_l by lia.
    rewrite (wrap32_small (Z.min c n)), Z.add_0_r by lia.
    rewrite (wrap32_small (Z.min c n)) by lia.
    split; [done|].
    destruct (Z.ltb_spec c n); rewrite wrap32_small; lia.
Qed.

Lemma bulk_ranges_min (active_threads n : Z) :
  0 < n < 2 ^ 32 →
  bulk_ranges active_threads n
  = (λ c, (Z.min c n, Z.min (c + 1) n))
      <$> seqZ 0 (bulk_num_chunks active_threads n).
Proof.
  intros Hn. pose proof (bulk_num_chunks_range active_threads n Hn).
  unfold bulk_ranges. apply list_fmap_ext. intros i c Hc.
  apply lookup_seqZ in Hc as [-> Hi].
  destruct (chunk_bounds (bulk_num_chunks active_threads n) n (0 + Z.of_nat i))
    as [-> ->]; [lia|lia|lia|done].
Qed.

(** The first [n] chunks hold one index each and the others are empty. *)
Lemma bulk_ranges_shape (active_threads n : Z) :
  0 < n < 2 ^ 32 →
  bulk_ranges active_threads n
  = ((λ c, (c, c + 1)) <$> seqZ 0 n)
    ++ ((λ c, (n, n)) <$> seqZ n (bulk_num_chunks active_threads n - n)).
Proof.
  intros Hn. pose proof (bulk_num_chunks_range active_threads n Hn).
  rewrite bulk_ranges_min by done.
  replace (bulk_num_chunks active_threads n)
    with (n + (bulk_num_chunks active_threads n - n)) at 1 by lia.
  rewrite seqZ_app, fmap_app by lia. f_equal.
  - apply list_fmap_ext. intros i c Hc. apply lookup_seqZ in Hc as [-> Hi].
    f_equal; lia.
  - apply list_fmap_ext. intros i c Hc. apply lookup_seqZ in Hc as [-> Hi].
    f_equal; lia.
Qed.

Lemma filter_nonempty_ranges (active_threads n : Z) :
  0 < n < 2 ^ 32 →
  filter (λ r : Z * Z, r.1 < r.2) (bulk_ranges active_threads n)
  = (λ c, (c, c + 1)) <$> seqZ 0 n.
Proof.
  intros Hn. rewrite bulk_ranges_shape, filter_app by done.
  generalize (seqZ n (bulk_num_chunks active_threads n - n)) as l2.
  generalize (seqZ 0 n) as l1. intros l1 l2.
  assert (filter (λ r : Z * Z, r.1 < r.2) ((λ c, (n, n)) <$> l2) = []) as ->.
  { induction l2 as [|x l2 IH]; [done|]. cbn [fmap list_fmap].
    rewrite filter_cons_False by (simpl; lia). done. }
  rewrite app_nil_r.
  induction l1 as [|x l1 IH]; [done|]. cbn [fmap list_fmap].
  rewrite filter_cons_True by (simpl; lia). by rewrite IH.
Qed.

Lemma concat_bulk_ranges (active_threads n : Z) :
  0 < n < 2 ^ 32 →
  concat (range_indices <$> bulk_ranges active_threads n) = seqZ 0 n.
Proof.
  intros Hn.
  rewrite <- (concat_fmap_filter (λ r : Z * Z, r.1 < r.2)).
  - rewrite filter_nonempty_ranges by done.
    rewrite <- list_fmap_compose.
    rewrite <- (concat_singletons (seqZ 0 n)) at 2. f_equal.
    apply list_fmap_ext. intros i c _. unfold range_indices. simpl.
    replace (c + 1 - c) with 1 by lia. done.
  - intros r Hr. unfold range_indices. apply seqZ_nil. lia.
Qed.

(** [bulk_schedule] calls [schedule] once for every non-empty range, in
    chunk order, with the closure of that range. *)
Lemma bulk_schedule_on_calls {W S : Type}
    (sched : fn W → option priority_t → S → option S)
    (active_threads n : Z) (task : IndexedTask W)
    (priority : option priority_t) (s : S) :
  bulk_schedule_on sched active_threads n task priority s
  = for_each (λ r s, sched (Some (chunk_closure r.1 r.2 task))
                       (Some (priority_argument priority)) s)
      (filter (λ r : Z * Z, r.1 < r.2) (bulk_ranges active_threads n)) s.
Proof.
  rewrite <- (for_each_filter (λ r : Z * Z, r.1 < r.2) (λ r, r.1 <? r.2)).
  - unfold bulk_ranges. rewrite for_each_fmap. done.
  - intros r. apply Z.ltb_lt.
Qed.

Lemma bulk_ranges_lookup (active_threads n : Z) (c : nat) (r : Z * Z) :
  0 < n < 2 ^ 32 →
  bulk_ranges active_threads n !! c = Some r →
  r = (Z.min (Z.of_nat c) n, Z.min (Z.of_nat c + 1) n)
  ∧ Z.of_nat c < bulk_num_chunks active_threads n.
Proof.
  intros Hn. rewrite bulk_ranges_min by done.
  rewrite list_lookup_fmap. intros Hr.
  destruct (seqZ 0 (bulk_num_chunks active_threads n) !! c) as [i|] eqn:Hi;
    [|done].
  apply lookup_seqZ in Hi as [-> Hc]. simpl in Hr. injection Hr as <-.
  rewrite Z.add_0_l. done.
Qed.

(** C1.  For [0 < n] (an [uint32_t]), [bulk_schedule(n, f, p)] on a
    scheduler with [active_threads] workers computes
    [chunks = max(active_threads * 8, n)] ranges ([active_threads * 8]
    taken in 32 bits).  The ranges are contiguous and cover [0, n) in
    order; range [c] has [n / chunks] indices plus one when
    [c < n mod chunks].  [schedule] is called once per non-empty range,
    in chunk order and at the priority of the call, with the closure of
    that range; run with an indexed task that logs its argument, each
    closure logs the indices of its range in ascending order and the
    closures together log [0, 1, ..., n-1], each index once. *)
Theorem bulk_schedule_partition (active_threads n : Z)
    (priority : option priority_t) :
  0 < n < 2 ^ 32 →
  let chunks := Z.max (wrap32 (active_threads * 8)) n in
  let ranges := bulk_ranges active_threads n in
  let nonempty := filter (λ r : Z * Z, r.1 < r.2) ranges in
  (0 ≤ active_threads * 8 < 2 ^ 32 → chunks = Z.max (active_threads * 8) n)
  ∧ Z.of_nat (length ranges) = chunks
  ∧ concat (range_indices <$> ranges) = seqZ 0 n
  ∧ (∀ (c : nat) r, ranges !! c = Some r →
       0 ≤ r.1 ≤ r.2
       ∧ r.2 - r.1
         = n / chunks + (if Z.of_nat c <? n mod chunks then 1 else 0))
  ∧ (∀ (c : nat) r r', ranges !! c = Some r → ranges !! S c = Some r' →
       r'.1 = r.2)
  ∧ (∀ (W S : Type) (sched : fn W → option priority_t → S → option S)
       (task : IndexedTask W) (s : S),
       bulk_schedule_on sched active_threads n task priority s
       = for_each (λ r s, sched (Some (chunk_closure r.1 r.2 task))
                            (Some (priority_argument priority)) s)
           nonempty s)
  ∧ (∀ (W : Type) (task : IndexedTask W) (s : system_scheduler W),
       active_thread_count s = active_threads →
       bulk_schedule n task priority s
       = for_each (λ r s, schedule (Some (chunk_closure r.1 r.2 task))
                            (Some (priority_argument priority)) s)
           nonempty s)
  ∧ ∃ calls,
      bulk_schedule_on record_schedule active_threads n index_log priority []
      = Some calls
      ∧ Forall2 (λ x r, x.2 = Some (priority_argument priority)
                        ∧ invocations x = range_indices r) calls nonempty
      ∧ concat (invocations <$> calls) = seqZ 0 n.
Proof.
  intros Hn chunks ranges nonempty.
  pose proof (bulk_num_chunks_max active_threads n ltac:(lia)) as Hchunks.
  fold chunks in Hchunks.
  pose proof (bulk_num_chunks_range active_threads n Hn) as Hrange.
  rewrite Hchunks in Hrange.
  split; [intros Hsmall; unfold chunks; by rewrite wrap32_small|].
  split.
  { unfold ranges, bulk_ranges. rewrite length_fmap, length_seqZ, Hchunks. lia. }
  split; [by apply concat_bulk_ranges|].
  split.
  { intros c r Hr. apply bulk_ranges_lookup in Hr as [-> Hc]; [|done].
    rewrite Hchunks in Hc. simpl.
    destruct (bulk_quotient chunks n ltac:(lia))
      as [(Hsame & -> & ->)|(Hmore & -> & ->)];
      destruct (Z.ltb_spec (Z.of_nat c) 0), (Z.ltb_spec (Z.of_nat c) n); lia. }
  split.
  { intros c r r' Hr Hr'.
    apply bulk_ranges_lookup in Hr as [-> _]; [|done].
    apply bulk_ranges_lookup in Hr' as [-> _]; [|done]. simpl. lia. }
  split; [intros W S sched task s; apply bulk_schedule_on_calls|].
  split.
  { intros W task s <-. apply bulk_schedule_on_calls. }
  rewrite bulk_schedule_on_calls. fold ranges. fold nonempty.
  unfold record_schedule. rewrite for_each_record. simpl.
  eexists. split; [reflexivity|].
  assert (∀ r : Z * Z,
            invocations (Some (chunk_closure r.1 r.2 index_log),
                         Some (priority_argument priority))
            = range_indices r) as Hinv.
  { intros r. unfold invocations. simpl. by rewrite chunk_closure_log. }
  split.
  - apply Forall2_fmap_l, Forall_Forall2_diag, Forall_forall.
    intros r _. split; [done|apply Hinv].
  - rewrite <- list_fmap_compose.
    rewrite (list_fmap_ext _ range_indices nonempty) by
      (intros i r _; apply Hinv).
    unfold nonempty. rewrite concat_fmap_filter.
    + by apply concat_bulk_ranges.
    + intros r Hr. unfold range_indices. apply seqZ_nil. lia.
Qed.

(** The witness of C1: five indices on a scheduler with one worker, so
    eight chunks of which five are non-empty. *)
Lemma bulk_schedule_partition_witness :
  0 < 5 < 2 ^ 32
  ∧ bulk_ranges 1 5
    = [(0, 1); (1, 2); (2, 3); (3, 4); (4, 5); (5, 5); (5, 5); (5, 5)]
  ∧ concat (range_indices <$> bulk_ranges 1 5) = seqZ 0 5.
Proof.
  split; [lia|]. split; [reflexivity|].
  apply (bulk_schedule_partition 1 5 None). lia.
Defined.

(** The witness of C4: a scheduler of two workers after [set_stopped]. *)
Lemma schedule_after_stop_is_dropped_witness :
  let s := set_stopped (new_system_scheduler 2 1 NORMAL 2) in
  stop_flag s = true
  ∧ schedule (log_task 7) (Some HIGH) s = Some s.
Proof.
  split; [reflexivity|].
  apply (schedule_after_stop_is_dropped (log_task 7) (Some HIGH)
           (set_stopped (new_system_scheduler 2 1 NORMAL 2))).
  reflexivity.
Defined.

(** A CRITICAL task pushed after a LOW one is popped first, and stolen
    first. *)
Example critical_before_low :
  ∃ q1 q2 q3 q4,
    push_task (priority_int LOW) (log_task 1) new_work_queue = Some q1
    ∧ push_task (priority_int CRITICAL) (log_task 2) q1 = Some q2
    ∧ pop_task None q2 = Some (true, log_task 2, q3)
    ∧ steal_task None q2 = Some (true, log_task 2, q4).
Proof.
  eexists _, _, _, _.
  split; [vm_compute; reflexivity|]. split; [vm_compute; reflexivity|].
  split; vm_compute; reflexivity.
Qed.

(** C3, the counterexample.  A scheduler built with default priority
    HIGH: [schedule] without a priority puts the task in the NORMAL
    deque, not in the deque of the configured default. *)
Lemma omitted_priority_ignores_default :
  let s0 : system_scheduler (list nat) := new_system_scheduler 1 1 HIGH 1 in
  get_priority s0 = HIGH
  ∧ ∃ s1, schedule (log_task 1) None s0 = Some s1
          ∧ ¬ enqueues_at (log_task 1) (get_priority s0) s0 s1
          ∧ enqueues_at (log_task 1) NORMAL s0 s1.
Proof.
  split; [reflexivity|].
  eexists. split; [vm_compute; reflexivity|]. split.
  - intros (i & q & q' & Hq & Hpush & Hset).
    apply vec_set_Some in Hset as [Hi Hset]. simpl in Hi.
    assert (i = 0) as -> by lia.
    apply vec_at_Some in Hq as [_ Hq]. simpl in Hq. injection Hq as <-.
    vm_compute in Hpush. injection Hpush as <-.
    apply (f_equal (λ qs : list (work_queue_t (list nat)),
             q ← qs !! 0%nat; d ← task_queues q !! 2%nat; Some (bottom d)))
      in Hset.
    vm_compute in Hset. discriminate Hset.
  - exists 0. eexists _, _. split; [reflexivity|].
    split; vm_compute; reflexivity.
Qed.

(** The witness of C3 as amended: the same scheduler, with the default
    priority set to CRITICAL before the call. *)
Lemma omitted_priority_is_normal_witness :
  let s0 : system_scheduler (list nat) := new_system_scheduler 1 1 HIGH 1 in
  scheduler_room 1 s0 ∧ stop_flag s0 = false
  ∧ Exists (λ q, active q = true) (work_queues s0)
  ∧ ∃ s', schedule (log_task 1) None (set_priority CRITICAL s0) = Some s'
          ∧ enqueues_at (log_task 1) NORMAL (set_priority CRITICAL s0) s'
          ∧ get_priority s' = CRITICAL.
Proof.
  assert (scheduler_room 1 (@new_system_scheduler (list nat) 1 1 HIGH 1)) as Hroom.
  { apply new_scheduler_room; simpl; lia. }
  assert (Exists (λ q, active q = true)
            (work_queues (@new_system_scheduler (list nat) 1 1 HIGH 1))) as Hex.
  { apply Exists_cons_hd. reflexivity. }
  split; [exact Hroom|]. split; [reflexivity|]. split; [exact Hex|].
  apply (omitted_priority_is_normal CRITICAL (log_task 1)
           (new_system_scheduler 1 1 HIGH 1) Hroom eq_refl Hex).
Defined.

(** Round-robin placement on two rounds over three queues. *)
Lemma round_robin_coverage_witness :
  let s0 : system_scheduler (list nat) := new_system_scheduler 3 1 NORMAL 0 in
  let ts : list (submission (list nat)) :=
    [(log_task 0, None); (log_task 1, Some HIGH); (log_task 2, None);
     (log_task 3, Some LOW); (log_task 4, None); (log_task 5, Some CRITICAL)] in
  1 ≤ 2 ∧ Z.of_nat (length ts) = 2 * num_queues s0
  ∧ scheduler_room (2 * num_queues s0) s0 ∧ stop_flag s0 = false
  ∧ Forall (λ q, active q = true) (work_queues s0)
  ∧ next_queue s0 + 2 * num_queues s0 ≤ 2 ^ 64
  ∧ ∃ s', for_each submit ts s0 = Some s'
      ∧ length (work_queues s') = length (work_queues s0)
      ∧ ∀ (i : nat) q, work_queues s0 !! i = Some q →
          ∃ q' ts_i,
            work_queues s' !! i = Some q'
            ∧ ts_i = dealt (num_queues s0) (next_queue s0) (Z.of_nat i) ts
            ∧ Z.of_nat (length ts_i) = 2
            ∧ for_each deposit ts_i q = Some q'.
Proof.
  assert (scheduler_room (2 * 3) (@new_system_scheduler (list nat) 3 1 NORMAL 0))
    as Hroom.
  { apply new_scheduler_room; simpl; lia. }
  split; [lia|]. split; [reflexivity|]. split; [exact Hroom|].
  split; [reflexivity|]. split; [apply new_scheduler_active|].
  split; [simpl; lia|].
  apply (round_robin_coverage 2 _ (new_system_scheduler 3 1 NORMAL 0));
    [lia|reflexivity|exact Hroom|reflexivity|apply new_scheduler_active|simpl; lia].
Defined.

(** The witness of C9: a pool of two workers that takes submissions,
    runs a task, changes priority and is stopped. *)
Lemma active_thread_count_constant_witness :
  ∃ p',
    execute [Schedule (log_task 1) None; BulkSchedule 3 (λ i l, l ++ [Z.to_nat i]) None;
             WorkerTurn 1 [0%nat]; SetPriority HIGH; SetError StdException;
             SetStopped; Schedule (log_task 2) None; WorkerTurn 0 [1%nat];
             DestructorStop]
      (mk_pool (new_system_scheduler 8 1 NORMAL 2) [] []) = Some p'
    ∧ get_active_thread_count (scheduler p') = 2.
Proof.
  eexists. split; [vm_compute; reflexivity|].
  apply (active_thread_count_constant 8 1 NORMAL 2
           [Schedule (log_task 1) None; BulkSchedule 3 (λ i l, l ++ [Z.to_nat i]) None;
            WorkerTurn 1 [0%nat]; SetPriority HIGH; SetError StdException;
            SetStopped; Schedule (log_task 2) None; WorkerTurn 0 [1%nat];
            DestructorStop] []).
  vm_compute; reflexivity.
Defined.

(** C2 (fails on the code).  A scheduler with one worker: a task is
    submitted and run, a second task is submitted, then the destructor
    sets the stop flag.  The worker's next turn finds nothing to pop
    or steal, sees every queue report empty and returns, so the
    destructor's join completes: the log holds only task 1, task 2 was
    accepted and never run.  The first pop took the last task and left
    [bottom] one below [top], so the slot the second submission wrote
    (slot 0 of the NORMAL deque, still holding task 2 at the end) lies
    outside [top, bottom). *)
Theorem submitted_task_is_lost :
  ∃ p,
    execute [Schedule (log_task 1) None; WorkerTurn 0 [];
             Schedule (log_task 2) None; DestructorStop; WorkerTurn 0 []]
      (mk_pool (new_system_scheduler 1 1 NORMAL 1) [] []) = Some p
    ∧ joined p = true
    ∧ program p = [1%nat]
    ∧ forallb queue_empty (work_queues (scheduler p)) = true
    ∧ (q ← work_queues (scheduler p) !! 0%nat;
       d ← task_queues q !! 1%nat;
       x ← buffer d !! 0%nat;
       Some (top d, bottom d, x)) = Some (1, 1, log_task 2).
Proof.
  eexists. split; [vm_compute; reflexivity|].
  split; [vm_compute; reflexivity|].
  split; [reflexivity|]. split; reflexivity.
Qed.

(** C8 (fails on the code).  A scheduler with two workers: a task is
    submitted and run by worker 0, which leaves the scheduler idle, not
    stopped, with both queues active and empty.  Two more calls of
    [schedule] ([k = 1], [N = 2]) return, and the counter sends one to
    each queue; queue 1 then holds one task, queue 0 holds none: its
    [size] is [0], it reports empty and [pop_task] and [steal_task]
    find nothing.  The pop that took the first task left [bottom] one
    below [top] in the NORMAL deque of queue 0, so the task the later
    call wrote (slot 0, still there) lies outside [top, bottom).  On
    the scheduler as constructed the same two calls leave one task in
    each queue. *)
Theorem round_robin_misses_drained_queue :
  let ts : list (submission (list nat)) :=
    [(log_task 2, None); (log_task 3, None)] in
  ∃ p s' s'',
    execute [Schedule (log_task 1) None; WorkerTurn 0 [1%nat]]
      (mk_pool (new_system_scheduler 2 1 NORMAL 2) [] []) = Some p
    ∧ program p = [1%nat]
    ∧ stop_flag (scheduler p) = false
    ∧ num_queues (scheduler p) = 2
    ∧ forallb active (work_queues (scheduler p)) = true
    ∧ queue_size <$> work_queues (scheduler p) = [0; 0]
    ∧ for_each submit ts (scheduler p) = Some s'
    ∧ queue_size <$> work_queues s' = [0; 1]
    ∧ (q ← work_queues s' !! 0%nat;
       '(popped, _, _) ← pop_task None q;
       '(stolen, _, _) ← steal_task None q;
       Some (queue_empty q, popped, stolen)) = Some (true, false, false)
    ∧ (q ← work_queues s' !! 0%nat;
       d ← task_queues q !! 1%nat;
       x ← buffer d !! 0%nat;
       Some (top d, bottom d, x)) = Some (1, 1, log_task 3)
    ∧ for_each submit ts (new_system_scheduler 2 1 NORMAL 2) = Some s''
    ∧ queue_size <$> work_queues s'' = [1; 1].
Proof.
  intros ts. eexists _, _, _.
  split; [vm_compute; reflexivity|].
  split; [reflexivity|]. split; [reflexivity|]. split; [reflexivity|].
  split; [reflexivity|]. split; [vm_compute; reflexivity|].
  split; [vm_compute; reflexivity|].
  split; [vm_compute; reflexivity|].
  split; [vm_compute; reflexivity|].
  split; [vm_compute; reflexivity|].
  split; [vm_compute; reflexivity|].
  vm_compute. reflexivity.
Qed.

(** * The rest of the code *)

Lemma mod_distinct (i j c : Z) :
  0 < c → i ≠ j → - c < i - j < c → i mod c ≠ j mod c.
Proof.
  intros Hc Hne Hd Heq.
  pose proof (Z.div_mod i c ltac:(lia)) as Hi.
  pose proof (Z.div_mod j c ltac:(lia)) as Hj.
  rewrite Heq in Hi.
  generalize dependent (i / c). generalize dependent (j / c).
  generalize dependent (j mod c). intros r _ qj Hj qi Hi.
  assert (qi = qj) by nia. subst. lia.
Qed.

Lemma mod_slot_distinct (i j c : Z) :
  0 < c → i ≠ j → - c < i - j < c →
  Z.to_nat (i mod c) ≠ Z.to_nat (j mod c).
Proof.
  intros Hc Hne Hd Heq. apply (mod_distinct i j c Hc Hne Hd).
  pose proof (Z.mod_pos_bound i c Hc). pose proof (Z.mod_pos_bound j c Hc). lia.
Qed.

Section Deque.

Context {W : Type}.

Implicit Types (d : lock_free_deque W) (task : fn W) (l : list (fn W)).

(** ** The deque as a list of tasks *)

Lemma new_deque_holds : holds (@new_deque W) [].
Proof. split; [apply new_deque_inv|done|done]. Qed.

(** The copy loop of [resize] puts the slot of every index it visits at
    the place of that index in the new buffer and writes nowhere else. *)
Lemma resize_copy_spec (n : nat) (i oc nc : Z) (old new new' : list (fn W)) :
  0 ≤ i → 0 < oc → 0 < nc → Z.of_nat n ≤ oc → Z.of_nat n ≤ nc →
  resize_copy n i oc nc old new = Some new' →
  (∀ j, i ≤ j < i + Z.of_nat n →
     new' !! Z.to_nat (j mod nc) = old !! Z.to_nat (j mod oc))
  ∧ (∀ s : nat, (∀ j, i ≤ j < i + Z.of_nat n → Z.to_nat (j mod nc) ≠ s) →
       new' !! s = new !! s).
Proof.
  revert i old new. induction n as [|n IH]; intros i old new Hi Hoc Hnc Hno Hnn.
  - simpl. intros [= <-]. split; [intros; lia|done].
  - cbn [resize_copy]. intros Hr.
    destruct (int_rem i oc) as [ko|] eqn:Hko; [|done]. simpl in Hr.
    destruct (vec_at old ko) as [x|] eqn:Hx; [|done]. simpl in Hr.
    destruct (int_rem i nc) as [kn|] eqn:Hkn; [|done]. simpl in Hr.
    destruct (vec_set new kn x) as [new1|] eqn:Hn1; [|done]. simpl in Hr.
    destruct (vec_set old ko None) as [old1|] eqn:Ho1; [|done]. simpl in Hr.
    destruct (int_ (i + 1)) as [i1|] eqn:Hi1; [|done]. simpl in Hr.
    apply int_Some in Hi1 as [-> Hi1].
    rewrite int_rem_nonneg in Hko, Hkn by lia.
    injection Hko as <-. injection Hkn as <-.
    apply vec_at_Some in Hx as [_ Hx].
    apply vec_set_Some in Hn1 as [Hn1r ->]. apply vec_set_Some in Ho1 as [_ ->].
    apply IH in Hr as [Hmoved Hkept]; [|lia..].
    split.
    + intros j Hj. destruct (decide (j = i)) as [->|Hne].
      * rewrite Hkept.
        -- rewrite list_lookup_insert_eq by lia. done.
        -- intros j' Hj'. apply mod_slot_distinct; lia.
      * rewrite Hmoved by lia. apply list_lookup_insert_ne.
        apply mod_slot_distinct; lia.
    + intros s Hs. rewrite Hkept.
      * apply list_lookup_insert_ne. apply Hs. lia.
      * intros j Hj. apply Hs. lia.
Qed.

(** [resize] on a full deque: the capacity doubles and the deque holds
    the same tasks. *)
Lemma resize_holds d l :
  holds d l → bottom d < 2 ^ 30 → capacity d ≤ bottom d - top d →
  ∃ d', resize d = Some d' ∧ holds d' l ∧ capacity d' = 2 * capacity d
        ∧ top d' = top d ∧ bottom d' = bottom d.
Proof.
  intros [Hinv Hlen Hslots] Hb Hfull.
  destruct (resize_defined d Hinv Hb Hfull)
    as (d' & Hres & Hcap & Hbuf & Ht & Hbot).
  exists d'. split; [done|]. split; [|done].
  pose proof Hinv as [].
  split; [split; lia|lia|].
  intros k x Hk. rewrite Ht, Hcap.
  unfold resize in Hres.
  rewrite int_in_range in Hres by (unfold INT_MIN, INT_MAX; lia).
  simpl in Hres. destruct (Z.ltb_spec (capacity d * 2) 0); [lia|].
  destruct (resize_copy _ _ _ _ _ _) as [nb|] eqn:Hcopy; [|done].
  injection Hres as <-. simpl.
  apply resize_copy_spec in Hcopy as [Hmoved _]; [|lia..].
  apply lookup_lt_Some in Hk as Hklt.
  replace (2 * capacity d) with (capacity d * 2) by lia.
  rewrite Hmoved by lia. by apply Hslots.
Qed.

(** A push that needs no growth writes the slot at [bottom]. *)
Lemma push_room task d :
  deque_inv d → bottom d - top d < capacity d → bottom d < INT_MAX →
  push task d
  = Some (mk_deque (capacity d)
            (<[Z.to_nat (bottom d mod capacity d) := task]> (buffer d))
            (top d) (bottom d + 1)).
Proof.
  intros [] Hroom Hb. unfold push.
  rewrite int_in_range by (unfold INT_MIN, INT_MAX in *; lia). simpl.
  destruct (Z.leb_spec (capacity d) (bottom d - top d)); [lia|]. simpl.
  rewrite int_rem_nonneg by lia. simpl.
  pose proof (mod_index (bottom d) (capacity d) ltac:(lia)).
  rewrite vec_set_in_range by lia. simpl.
  rewrite int_in_range by (unfold INT_MIN, INT_MAX in *; lia). done.
Qed.

(** A push on a full deque is a push on the grown deque. *)
Lemma push_full task d d1 :
  deque_inv d → capacity d ≤ bottom d - top d → resize d = Some d1 →
  deque_inv d1 → bottom d1 - top d1 < capacity d1 → bottom d1 < INT_MAX →
  push task d = push task d1.
Proof.
  intros [] Hfull Hres Hinv1 Hroom1 Hb1.
  rewrite (push_room task d1) by done. unfold push.
  rewrite int_in_range by (unfold INT_MIN, INT_MAX in *; lia). simpl.
  destruct (Z.leb_spec (capacity d) (bottom d - top d)); [|lia].
  rewrite Hres. simpl. destruct Hinv1.
  rewrite int_rem_nonneg by lia. simpl.
  pose proof (mod_index (bottom d1) (capacity d1) ltac:(lia)).
  rewrite vec_set_in_range by lia. simpl.
  rewrite int_in_range by (unfold INT_MIN, INT_MAX in *; lia). done.
Qed.

Lemma push_room_holds task d l :
  holds d l → bottom d - top d < capacity d → bottom d < INT_MAX →
  holds (mk_deque (capacity d)
           (<[Z.to_nat (bottom d mod capacity d) := task]> (buffer d))
           (top d) (bottom d + 1)) (l ++ [task]).
Proof.
  intros [Hinv Hlen Hslots] Hroom Hb. pose proof Hinv as [].
  pose proof (mod_index (bottom d) (capacity d) ltac:(lia)).
  split; simpl.
  - split; simpl; rewrite ?length_insert; lia.
  - rewrite length_app. simpl. lia.
  - intros k x Hk. apply lookup_app_Some in Hk as [Hk|[Hge Hk]].
    + apply lookup_lt_Some in Hk as Hklt.
      rewrite list_lookup_insert_ne by (apply mod_slot_distinct; lia).
      by apply Hslots.
    + destruct (k - length l)%nat as [|k'] eqn:Hk'; [|done].
      injection Hk as <-.
      replace (top d + Z.of_nat k) with (bottom d) by lia.
      apply list_lookup_insert_eq. lia.
Qed.

(** [push] appends to the tasks held, growing the buffer when it is
    full. *)
Lemma push_holds task d l :
  holds d l → bottom d < 2 ^ 30 →
  ∃ d', push task d = Some d' ∧ holds d' (l ++ [task])
        ∧ capacity d'
          = (if capacity d <=? bottom d - top d then 2 * capacity d
             else capacity d)
        ∧ top d' = top d ∧ bottom d' = bottom d + 1.
Proof.
  intros Hl Hb. pose proof Hl as [Hinv Hlen _]. pose proof Hinv as [].
  destruct (Z.leb_spec (capacity d) (bottom d - top d)) as [Hfull|Hroom].
  - destruct (resize_holds d l Hl Hb Hfull)
      as (d1 & Hres & Hl1 & Hcap & Ht & Hbot).
    pose proof Hl1 as [Hinv1 _ _].
    rewrite (push_full task d d1), (push_room task d1);
      try done; try (unfold INT_MAX; lia).
    eexists. split; [done|]. split; [|simpl; lia].
    apply push_room_holds; [done|lia|unfold INT_MAX; lia].
  - rewrite push_room by (done || unfold INT_MAX; lia).
    eexists. split; [done|]. split; [|simpl; lia].
    apply push_room_holds; [done|lia|unfold INT_MAX; lia].
Qed.

(** A run of pushes appends the pushed tasks in order. *)
Lemma pushes_hold (ts : list (fn W)) d l :
  holds d l → bottom d + Z.of_nat (length ts) ≤ 2 ^ 30 →
  ∃ d', apply_ops (Push <$> ts) d = Some d' ∧ holds d' (l ++ ts)
        ∧ top d' = top d ∧ bottom d' = bottom d + Z.of_nat (length ts).
Proof.
  revert d l. induction ts as [|t ts IH]; intros d l Hl Hb.
  - exists d. rewrite app_nil_r. simpl. split; [done|]. split; [done|lia].
  - cbn [length] in Hb.
    destruct (push_holds t d l Hl) as (d1 & Hpush & Hl1 & _ & Ht & Hbot); [lia|].
    destruct (IH d1 (l ++ [t]) Hl1) as (d' & Hrun & Hl' & Ht' & Hbot'); [lia|].
    exists d'. cbn [fmap list_fmap]. unfold apply_ops in *. cbn [for_each apply_op].
    rewrite Hpush. simpl. split; [exact Hrun|].
    rewrite <- app_assoc in Hl'. split; [exact Hl'|]. cbn [length]. lia.
Qed.

(** [steal] takes the oldest task. *)
Lemma steal_holds task d x l :
  holds d (x :: l) →
  ∃ d', steal task d = Some (true, x, d') ∧ holds d' l.
Proof.
  intros [Hinv Hlen Hslots]. pose proof Hinv as []. simpl in Hlen.
  destruct (steal_nonempty task d Hinv) as (y & Hy & Hs); [lia|].
  pose proof (Hslots 0%nat x eq_refl) as Hx. rewrite Z.add_0_r in Hx.
  assert (y = x) as -> by congruence.
  eexists. split; [exact Hs|].
  pose proof (mod_index (top d) (capacity d) ltac:(lia)).
  split; simpl.
  - split; simpl; rewrite ?length_insert; lia.
  - lia.
  - intros k z Hk. apply lookup_lt_Some in Hk as Hklt.
    rewrite list_lookup_insert_ne by (apply mod_slot_distinct; lia).
    pose proof (Hslots (S k) z Hk) as Hz.
    by replace (top d + 1 + Z.of_nat k) with (top d + Z.of_nat (S k)) by lia.
Qed.

(** [pop] takes the newest task; the rest stays when there is one. *)
Lemma pop_holds task d l x :
  holds d (l ++ [x]) →
  ∃ d', pop task d = Some (true, x, d') ∧ (l ≠ [] → holds d' l).
Proof.
  intros [Hinv Hlen Hslots]. pose proof Hinv as [].
  rewrite length_app in Hlen. simpl in Hlen.
  destruct (pop_nonempty task d Hinv) as (y & Hy & Hp); [lia|].
  assert ((l ++ [x]) !! length l = Some x) as Hx.
  { rewrite lookup_app_r, Nat.sub_diag by lia. done. }
  apply Hslots in Hx.
  replace (top d + Z.of_nat (length l)) with (bottom d - 1) in Hx by lia.
  assert (y = x) as -> by congruence.
  eexists. split; [exact Hp|]. intros Hne.
  assert (0 < length l)%nat by (destruct l; [done|simpl; lia]).
  destruct (Z.eqb_spec (top d) (bottom d - 1)); [lia|].
  pose proof (mod_index (bottom d - 1) (capacity d) ltac:(lia)).
  split; simpl.
  - split; simpl; rewrite ?length_insert; lia.
  - lia.
  - intros k z Hk. apply lookup_lt_Some in Hk as Hklt.
    rewrite list_lookup_insert_ne by (apply mod_slot_distinct; lia).
    apply Hslots. by apply lookup_app_l_Some.
Qed.

Lemma holds_nil_empty d : holds d [] → bottom d ≤ top d.
Proof. intros [_ Hlen _]. simpl in Hlen. lia. Qed.

Lemma deque_after_holds (ts : list (fn W)) :
  Z.of_nat (length ts) ≤ 2 ^ 30 →
  holds (deque_after ts) ts
  ∧ top (deque_after ts) = 0
  ∧ bottom (deque_after ts) = Z.of_nat (length ts).
Proof.
  intros Hlen.
  destruct (pushes_hold ts new_deque [] new_deque_holds)
    as (d & Hrun & Hd & Ht & Hb); [simpl; lia|].
  unfold deque_after. rewrite Hrun. simpl. done.
Qed.

(** X1.  A task pushed on a deque with tasks is the one the next [pop]
    returns, and the deque then holds what it held before. *)
Theorem push_pop_round_trip x task d l :
  holds d l → bottom d < 2 ^ 30 →
  ∃ d1 d2, push x d = Some d1 ∧ pop task d1 = Some (true, x, d2)
           ∧ (l ≠ [] → holds d2 l).
Proof.
  intros Hl Hb.
  destruct (push_holds x d l Hl Hb) as (d1 & Hpush & Hl1 & _).
  destruct (pop_holds task d1 l x Hl1) as (d2 & Hpop & Hl2).
  by exists d1, d2.
Qed.

(** X2.  The owner takes tasks newest first: two pops return the last two
    tasks pushed, the later one first. *)
Theorem pops_newest_first task task' d l a b :
  holds d (l ++ [a; b]) →
  ∃ d1 d2, pop task d = Some (true, b, d1) ∧ pop task' d1 = Some (true, a, d2)
           ∧ (l ≠ [] → holds d2 l).
Proof.
  intros Hl. change (l ++ [a; b]) with (l ++ [a] ++ [b]) in Hl.
  rewrite app_assoc in Hl.
  destruct (pop_holds task d (l ++ [a]) b Hl) as (d1 & Hpop1 & Hl1).
  specialize (Hl1 ltac:(by destruct l)).
  destruct (pop_holds task' d1 l a Hl1) as (d2 & Hpop2 & Hl2).
  by exists d1, d2.
Qed.

(** X3.  Thieves take tasks oldest first: two steals return the first two
    tasks pushed, in push order, and the rest stays. *)
Theorem steals_oldest_first task task' d l a b :
  holds d (a :: b :: l) →
  ∃ d1 d2, steal task d = Some (true, a, d1)
           ∧ steal task' d1 = Some (true, b, d2) ∧ holds d2 l.
Proof.
  intros Hl.
  destruct (steal_holds task d a (b :: l) Hl) as (d1 & Hs1 & Hl1).
  destruct (steal_holds task' d1 b l Hl1) as (d2 & Hs2 & Hl2).
  by exists d1, d2.
Qed.

(** X4.  A push on a full deque doubles the capacity, keeps every task
    the deque held, in order, and adds the new one. *)
Theorem push_grows_full_deque task d l :
  holds d l → bottom d - top d = capacity d → bottom d < 2 ^ 30 →
  ∃ d', push task d = Some d' ∧ capacity d' = 2 * capacity d
        ∧ holds d' (l ++ [task]).
Proof.
  intros Hl Hfull Hb.
  destruct (push_holds task d l Hl Hb) as (d' & Hpush & Hl' & Hcap & _).
  exists d'. split; [done|]. split; [|done].
  destruct (Z.leb_spec (capacity d) (bottom d - top d)); [done|lia].
Qed.

(** X5.  [size] is the number of tasks held and [empty] tells whether
    there is none; on an empty deque [pop] and [steal] fail and change
    nothing, on any other both succeed. *)
Theorem size_and_empty_agree task d l :
  holds d l →
  deque_size d = Z.of_nat (length l)
  ∧ (deque_empty d = true ↔ l = [])
  ∧ (l = [] → pop task d = Some (false, task, d)
              ∧ steal task d = Some (false, task, d))
  ∧ (l ≠ [] → (∃ x d', pop task d = Some (true, x, d'))
              ∧ (∃ x d', steal task d = Some (true, x, d'))).
Proof.
  intros Hl. pose proof Hl as [Hinv Hlen _].
  split; [|split; [|split]].
  - unfold deque_size. destruct (Z.leb_spec (top d) (bottom d)); lia.
  - unfold deque_empty. rewrite Z.leb_le.
    destruct l as [|y l]; simpl in Hlen; split; intros Hx;
      first [done | lia].
  - intros ->. simpl in Hlen.
    split; [apply pop_empty|apply steal_empty]; (done || lia).
  - intros Hne. assert (top d < bottom d) as Hlt.
    { destruct l; [done|]. simpl in Hlen. lia. }
    destruct (pop_nonempty task d Hinv Hlt) as (x & _ & Hp).
    destruct (steal_nonempty task d Hinv Hlt) as (y & _ & Hs).
    split; eexists _, _; [exact Hp|exact Hs].
Qed.

(** X6.  When [bottom] is one below [top], the state a pop of the last
    task leaves, a pushed task lands outside the live range: [empty]
    stays true, [size] stays [0], and [pop] and [steal] both fail. *)
Theorem push_after_last_pop_is_unreachable x task d :
  deque_inv d → bottom d = top d - 1 → bottom d < 2 ^ 30 →
  ∃ d', push x d = Some d'
        ∧ buffer d' !! Z.to_nat (bottom d mod capacity d') = Some x
        ∧ deque_empty d' = true ∧ deque_size d' = 0
        ∧ pop task d' = Some (false, task, d')
        ∧ steal task d' = Some (false, task, d').
Proof.
  intros Hinv Hlow Hb. pose proof Hinv as [].
  rewrite push_room by (done || unfold INT_MAX; lia).
  pose proof (mod_index (bottom d) (capacity d) ltac:(lia)).
  eexists. split; [done|]. simpl.
  split; [apply list_lookup_insert_eq; lia|].
  assert (deque_inv (mk_deque (capacity d)
            (<[Z.to_nat (bottom d mod capacity d) := x]> (buffer d))
            (top d) (bottom d + 1))) as Hinv'.
  { split; simpl; rewrite ?length_insert; unfold INT_MAX; lia. }
  split; [unfold deque_empty; simpl; apply Z.leb_le; lia|].
  split.
  { unfold deque_size. simpl.
    destruct (Z.leb_spec (top d) (bottom d + 1)); lia. }
  split; [apply pop_empty|apply steal_empty]; simpl; (done || lia).
Qed.

End Deque.

Section Pool.

Context {W : Type}.

Implicit Types (d : lock_free_deque W) (task : fn W) (q : work_queue_t W).
Implicit Types (s : system_scheduler W).

(** ** Work queues *)

(** A scan that finds every deque empty fails and changes nothing; a
    scan over a queue with a non-empty deque succeeds. *)
Lemma priority_scan_by_emptiness op task q :
  fails_cleanly op →
  (∀ t d, deque_inv d → bottom d ≤ top d → op t d = Some (false, t, d)) →
  (∀ t d, deque_inv d → top d < bottom d → ∃ x d', op t d = Some (true, x, d')) →
  queue_wf q →
  (queue_empty q = true → priority_scan op 4 task q = Some (false, task, q))
  ∧ (queue_empty q = false →
       ∃ x q', priority_scan op 4 task q = Some (true, x, q')).
Proof.
  intros Hclean Hempty Hfull [Hlen Hinv].
  destruct (priority_scan_outcome op 4 task q Hclean Hinv ltac:(lia))
    as (r & Hr & Hout).
  rewrite Hr. unfold queue_empty. split.
  - intros He. rewrite forallb_forall in He.
    destruct Hout as [(p & d & x & d' & _ & Hd & Hop & _)|[_ ->]]; [|done].
    exfalso. rewrite Hempty in Hop; [done| |].
    + by eapply Forall_lookup_1.
    + apply Z.leb_le. apply He. apply list_elem_of_In.
      by eapply list_elem_of_lookup_2.
  - intros He.
    destruct Hout as [(p & d & x & d' & _ & _ & _ & _ & ->)|[Hall _]]; [eauto|].
    exfalso. apply not_true_iff_false in He. apply He.
    apply forallb_forall. intros d Hd. apply list_elem_of_In in Hd.
    apply list_elem_of_lookup in Hd as [p Hp].
    apply Z.leb_le. destruct (Z.le_gt_cases (bottom d) (top d)) as [|Hlt]; [done|].
    destruct (Hfull task d) as (x & d' & Hx); [by eapply Forall_lookup_1|lia|].
    apply lookup_lt_Some in Hp as Hplt.
    rewrite (Hall p d) in Hx; [done|lia|done].
Qed.

Lemma pop_task_by_emptiness task q :
  queue_wf q →
  (queue_empty q = true → pop_task task q = Some (false, task, q))
  ∧ (queue_empty q = false → ∃ x q', pop_task task q = Some (true, x, q')).
Proof.
  apply priority_scan_by_emptiness.
  - apply pop_fails_cleanly.
  - intros t d. apply pop_empty.
  - intros t d Hinv Hlt.
    destruct (pop_nonempty t d Hinv Hlt) as (x & _ & ->). eauto.
Qed.

Lemma steal_task_by_emptiness task q :
  queue_wf q →
  (queue_empty q = true → steal_task task q = Some (false, task, q))
  ∧ (queue_empty q = false → ∃ x q', steal_task task q = Some (true, x, q')).
Proof.
  apply priority_scan_by_emptiness.
  - apply steal_fails_cleanly.
  - intros t d _. apply steal_empty.
  - intros t d Hinv Hlt.
    destruct (steal_nonempty t d Hinv Hlt) as (x & _ & ->). eauto.
Qed.

(** X7.  [work_queue_t::empty] tells exactly whether [pop_task] and
    [steal_task] find a task: on an empty queue both fail and leave the
    queue and the task reference alone, on any other both succeed. *)
Theorem queue_empty_decides_scans task q :
  queue_wf q →
  (queue_empty q = true →
     pop_task task q = Some (false, task, q)
     ∧ steal_task task q = Some (false, task, q))
  ∧ (queue_empty q = false →
       (∃ x q', pop_task task q = Some (true, x, q'))
       ∧ (∃ x q', steal_task task q = Some (true, x, q'))).
Proof.
  intros Hwf.
  destruct (pop_task_by_emptiness task q Hwf) as [Hp1 Hp2].
  destruct (steal_task_by_emptiness task q Hwf) as [Hs1 Hs2].
  split; intros He; split; auto.
Qed.

(** ** What an execution keeps *)

Lemma schedule_stop_flag task (priority : option priority_t) s s' :
  schedule task priority s = Some s' → stop_flag s' = stop_flag s.
Proof.
  unfold schedule. destruct (stop_flag s) eqn:Hstop; [by intros [= <-]|].
  intros Hs. simplify_option_eq. done.
Qed.

Lemma schedule_priority_level task (priority : option priority_t) s s' :
  schedule task priority s = Some s' → priority_level s' = priority_level s.
Proof.
  unfold schedule. destruct (stop_flag s); [by intros [= <-]|].
  intros Hs. simplify_option_eq. done.
Qed.

Lemma bulk_schedule_keeps {A} (f : system_scheduler W → A) (n : Z)
    (task : IndexedTask W) (priority : option priority_t) s s' :
  (∀ t pr s1 s2, schedule t pr s1 = Some s2 → f s2 = f s1) →
  bulk_schedule n task priority s = Some s' → f s' = f s.
Proof.
  intros Hf. unfold bulk_schedule, bulk_schedule_on.
  apply (for_each_preserves (λ s1, f s1 = f s)); [|done].
  intros chunk s1 s2 Hs1. case_match.
  - intros Hs2. apply Hf in Hs2. congruence.
  - by intros [= <-].
Qed.

Lemma worker_iteration_flags (thread_id : nat) (shuffled : list nat)
    s (w w' : W) s' (ret : bool) :
  worker_iteration thread_id shuffled s w = Some (s', w', ret) →
  stop_flag s' = stop_flag s ∧ priority_level s' = priority_level s.
Proof.
  unfold worker_iteration. intros Hw.
  repeat (simplify_option_eq || case_match); done.
Qed.

Lemma step_stop_flag (e : event W) (p p' : pool W) :
  step e p = Some p' →
  stop_flag (scheduler p') = stop_flag (scheduler p) || requests_stop e.
Proof.
  destruct e as [task pr|n task pr|pr| |err|thread_id shuffled|]; simpl;
    rewrite ?orb_false_r, ?orb_true_r.
  - destruct (schedule task pr (scheduler p)) as [s'|] eqn:Hs; [|done].
    intros [= <-]. simpl. by eapply schedule_stop_flag.
  - case_match; [|done].
    destruct (bulk_schedule n task pr (scheduler p)) as [s'|] eqn:Hs; [|done].
    intros [= <-]. simpl.
    eapply (bulk_schedule_keeps stop_flag); [|done]. apply schedule_stop_flag.
  - by intros [= <-].
  - by intros [= <-].
  - destruct err; simpl; [| |done]; by intros [= <-].
  - case_match; [|done].
    destruct (worker_iteration thread_id shuffled (scheduler p) (program p))
      as [[[s' w'] ret]|] eqn:Hw; [|done].
    intros [= <-]. simpl. by eapply worker_iteration_flags.
  - by intros [= <-].
Qed.

(** X8.  The stop flag after an execution is set exactly when it was set
    before or the execution contains [set_stopped] or the destructor's
    stop: nothing ever clears it, and nothing else sets it. *)
Theorem stop_flag_after_execution (es : list (event W)) (p p' : pool W) :
  execute es p = Some p' →
  stop_flag (scheduler p')
  = stop_flag (scheduler p) || existsb requests_stop es.
Proof.
  unfold execute. revert p. induction es as [|e es IH]; intros p; simpl.
  - intros [= <-]. by rewrite orb_false_r.
  - destruct (step e p) as [p1|] eqn:Hstep; [|done]. simpl.
    intros Hrun. rewrite (IH p1 Hrun), (step_stop_flag e p p1 Hstep).
    by rewrite orb_assoc.
Qed.

Lemma step_priority (e : event W) (p p' : pool W) :
  step e p = Some p' →
  priority_level (scheduler p')
  = match e with SetPriority q => q | _ => priority_level (scheduler p) end.
Proof.
  destruct e as [task pr|n task pr|pr| |err|thread_id shuffled|]; simpl.
  - destruct (schedule task pr (scheduler p)) as [s'|] eqn:Hs; [|done].
    intros [= <-]. simpl. by eapply schedule_priority_level.
  - case_match; [|done].
    destruct (bulk_schedule n task pr (scheduler p)) as [s'|] eqn:Hs; [|done].
    intros [= <-]. simpl.
    eapply (bulk_schedule_keeps priority_level); [|done].
    apply schedule_priority_level.
  - by intros [= <-].
  - by intros [= <-].
  - destruct err; simpl; [| |done]; by intros [= <-].
  - case_match; [|done].
    destruct (worker_iteration thread_id shuffled (scheduler p) (program p))
      as [[[s' w'] ret]|] eqn:Hw; [|done].
    intros [= <-]. simpl. by eapply worker_iteration_flags.
  - by intros [= <-].
Qed.

(** X9.  [get_priority] returns the argument of the last [set_priority],
    or the priority the scheduler had when there was none: submissions,
    worker turns and stop requests leave it alone. *)
Theorem get_priority_after_execution (es : list (event W)) (p p' : pool W) :
  execute es p = Some p' →
  get_priority (scheduler p')
  = last_set_priority es (get_priority (scheduler p)).
Proof.
  unfold execute, get_priority, last_set_priority.
  revert p. induction es as [|e es IH]; intros p; simpl.
  - by intros [= <-].
  - destruct (step e p) as [p1|] eqn:Hstep; [|done]. simpl.
    intros Hrun. rewrite (IH p1 Hrun), (step_priority e p p1 Hstep). done.
Qed.

(** X10.  After the stop flag is set, [bulk_schedule] returns for every
    [n] and leaves the scheduler exactly as it was: none of its
    closures is enqueued. *)
Theorem bulk_schedule_after_stop_is_dropped (n : Z) (task : IndexedTask W)
    (priority : option priority_t) s :
  stop_flag s = true →
  bulk_schedule n task priority s = Some s.
Proof.
  intros Hstop.
  assert (∀ t pr, schedule t pr s = Some s) as Hdrop.
  { intros t pr. unfold schedule. by rewrite Hstop. }
  unfold bulk_schedule, bulk_schedule_on.
  generalize (seqZ 0 (bulk_num_chunks (active_thread_count s) n)) as chunks.
  intros chunks. induction chunks as [|c chunks IH]; [done|].
  cbn [for_each]. case_match.
  - rewrite Hdrop. simpl. apply IH.
  - simpl. apply IH.
Qed.

(** ** Queues stay active *)

Lemma push_task_active (prio : Z) task q q' :
  push_task prio task q = Some q' → active q' = active q.
Proof. unfold push_task. intros Hp. simplify_option_eq. done. Qed.

Lemma priority_scan_active op (n : nat) task q (ok : bool) x q' :
  priority_scan op n task q = Some (ok, x, q') → active q' = active q.
Proof.
  revert task q. induction n as [|p IH]; intros task q; simpl.
  - by intros [= <- <- <-].
  - intros Hs.
    destruct (vec_at (task_queues q) (Z.of_nat p)) as [d|]; [|done].
    simpl in Hs. destruct (op task d) as [[[ok1 x1] d1]|]; [|done].
    simpl in Hs.
    destruct (vec_set (task_queues q) (Z.of_nat p) d1) as [l|]; [|done].
    simpl in Hs. destruct ok1; [by injection Hs as <- <- <-|].
    by apply IH in Hs.
Qed.

Lemma schedule_all_active task (priority : option priority_t) s s' :
  Forall (λ q, active q = true) (work_queues s) →
  schedule task priority s = Some s' →
  Forall (λ q, active q = true) (work_queues s').
Proof.
  intros Hall. unfold schedule.
  destruct (stop_flag s); [by intros [= <-]|]. intros Hs.
  destruct (size_rem _ _) as [c0|]; [|done]. simpl in Hs.
  destruct (skip_inactive _ _ _ _) as [c|]; [|done]. simpl in Hs.
  destruct (vec_at (work_queues s) c) as [q|] eqn:Hq; [|done]. simpl in Hs.
  destruct (push_task _ task q) as [q'|] eqn:Hpush; [|done]. simpl in Hs.
  destruct (vec_set (work_queues s) c q') as [qs|] eqn:Hqs; [|done].
  injection Hs as <-.
  apply vec_at_Some in Hq as [_ Hq]. apply vec_set_Some in Hqs as [_ ->].
  simpl. apply Forall_insert; [done|].
  apply push_task_active in Hpush. rewrite Hpush.
  by apply (Forall_lookup_1 _ _ _ _ Hall Hq).
Qed.

Lemma steal_sweep_all_active (ids : list nat) task
    (qs qs' : list (work_queue_t W)) (ok : bool) x :
  Forall (λ q, active q = true) qs →
  steal_sweep ids task qs = Some (ok, x, qs') →
  Forall (λ q, active q = true) qs'.
Proof.
  revert task qs. induction ids as [|i ids IH]; intros task qs Hall; simpl.
  - by intros [= <- <- <-].
  - intros Hs. destruct (qs !! i) as [q|] eqn:Hq; [|done]. simpl in Hs.
    destruct (active q) eqn:Hact; [|by eapply IH].
    destruct (steal_task task q) as [[[ok1 x1] q1]|] eqn:Hst; [|done].
    simpl in Hs.
    assert (Forall (λ q, active q = true) (<[i := q1]> qs)) as Hall1.
    { apply Forall_insert; [done|].
      apply priority_scan_active in Hst. congruence. }
    destruct ok1; [by injection Hs as <- <- <-|]. by eapply IH.
Qed.

Lemma worker_iteration_all_active (thread_id : nat) (shuffled : list nat)
    s (w w' : W) s' (ret : bool) :
  Forall (λ q, active q = true) (work_queues s) →
  worker_iteration thread_id shuffled s w = Some (s', w', ret) →
  Forall (λ q, active q = true) (work_queues s').
Proof.
  intros Hall. unfold worker_iteration.
  set (own := if bool_decide _ then _ else _).
  destruct own as [[[found1 task1] s1]|] eqn:Hown; [|done]. simpl.
  assert (Forall (λ q, active q = true) (work_queues s1)) as Hall1.
  { subst own. destruct (bool_decide _); [|by injection Hown as <- <- <-].
    destruct (work_queues s !! thread_id) as [q|] eqn:Hq; [|done].
    simpl in Hown.
    destruct (pop_task None q) as [[[ok x] q1]|] eqn:Hpop; [|done].
    injection Hown as <- <- <-. simpl. apply Forall_insert; [done|].
    apply priority_scan_active in Hpop. rewrite Hpop.
    by apply (Forall_lookup_1 _ _ _ _ Hall Hq). }
  clear Hown own.
  set (sweep := if negb found1 then _ else _).
  destruct sweep as [[[found2 task2] s2]|] eqn:Hsweep; [|done]. simpl.
  assert (Forall (λ q, active q = true) (work_queues s2)) as Hall2.
  { subst sweep. destruct (negb found1); [|by injection Hsweep as <- <- <-].
    destruct (steal_sweep shuffled task1 (work_queues s1))
      as [[[ok x] qs]|] eqn:Hsw; [|done].
    injection Hsweep as <- <- <-. simpl. by eapply steal_sweep_all_active. }
  clear Hsweep sweep.
  destruct found2.
  - destruct task2 as [run|]; simpl; [|done]. by intros [= <- <- <-].
  - case_match; by intros [= <- <- <-].
Qed.

Lemma step_all_active (e : event W) (p p' : pool W) :
  Forall (λ q, active q = true) (work_queues (scheduler p)) →
  step e p = Some p' →
  Forall (λ q, active q = true) (work_queues (scheduler p')).
Proof.
  intros Hall.
  destruct e as [task pr|n task pr|pr| |err|thread_id shuffled|]; simpl.
  - destruct (schedule task pr (scheduler p)) as [s'|] eqn:Hs; [|done].
    intros [= <-]. simpl. by eapply schedule_all_active.
  - case_match; [|done].
    destruct (bulk_schedule n task pr (scheduler p)) as [s'|] eqn:Hs; [|done].
    intros [= <-]. simpl. revert Hall Hs.
    unfold bulk_schedule, bulk_schedule_on.
    apply (for_each_preserves
             (λ s1, Forall (λ q, active q = true) (work_queues s1))).
    intros chunk s1 s2 Hs1. case_match; [by apply schedule_all_active|].
    by intros [= <-].
  - by intros [= <-].
  - by intros [= <-].
  - destruct err; simpl; [| |done]; by intros [= <-].
  - case_match; [|done].
    destruct (worker_iteration thread_id shuffled (scheduler p) (program p))
      as [[[s' w'] ret]|] eqn:Hw; [|done].
    intros [= <-]. simpl. by eapply worker_iteration_all_active.
  - by intros [= <-].
Qed.

(** X11.  Every scheduler an execution reaches from the constructor has
    one queue per worker, each with its four deques, each deque with
    [-1 ≤ bottom - top ≤ capacity], and every queue active: nothing
    ever clears an [active] flag, so the probe loop of [schedule] never
    has to advance. *)
Theorem reachable_scheduler_shape (hardware_concurrency num_nodes : Z)
    (priority : priority_t) (thread_count : Z) (es : list (event W))
    (w : W) (p' : pool W) :
  let init_threads :=
    if 0 <? thread_count then thread_count else hardware_concurrency in
  0 ≤ init_threads →
  execute es
    (mk_pool (new_system_scheduler hardware_concurrency num_nodes priority
                thread_count) w []) = Some p' →
  num_queues (scheduler p') = init_threads
  ∧ Z.of_nat (length (work_queues (scheduler p'))) = init_threads
  ∧ Forall (λ q, active q = true ∧ length (task_queues q) = 4%nat
                 ∧ Forall (λ d, -1 ≤ bottom d - top d ≤ capacity d)
                     (task_queues q))
      (work_queues (scheduler p')).
Proof.
  intros init_threads Hinit Hrun.
  pose proof (new_scheduler_wf (W:=W) hardware_concurrency num_nodes priority
                thread_count Hinit) as Hwf0.
  assert (scheduler_wf (scheduler p')) as [Hnum Hqs].
  { eapply execute_wf; [|exact Hrun]. exact Hwf0. }
  assert (Forall (λ q, active q = true) (work_queues (scheduler p'))) as Hact.
  { revert Hrun. unfold execute.
    apply (for_each_preserves
             (λ p : pool W, Forall (λ q, active q = true)
                              (work_queues (scheduler p)))).
    - intros e p1 p2. apply step_all_active.
    - apply new_scheduler_active. }
  assert (num_queues (scheduler p') = init_threads) as Hn.
  { revert Hrun. unfold execute.
    apply (for_each_preserves
             (λ p : pool W, num_queues (scheduler p) = init_threads));
      [|done].
    intros e p1 p2 Hp1 Hstep. rewrite <- Hp1. clear Hp1.
    destruct e as [task pr|n task pr|pr| |err|thread_id shuffled|];
      simpl in Hstep.
    - destruct (schedule task pr (scheduler p1)) as [s'|] eqn:Hs; [|done].
      injection Hstep as <-. simpl. revert Hs. unfold schedule.
      destruct (stop_flag _); [by intros [= <-]|].
      intros Hs. simplify_option_eq. done.
    - case_match; [|done].
      destruct (bulk_schedule n task pr (scheduler p1)) as [s'|] eqn:Hs;
        [|done].
      injection Hstep as <-. simpl.
      eapply (bulk_schedule_keeps num_queues); [|done].
      intros t pr0 s1 s2. unfold schedule.
      destruct (stop_flag _); [by intros [= <-]|].
      intros Hs2. simplify_option_eq. done.
    - by injection Hstep as <-.
    - by injection Hstep as <-.
    - destruct err; simpl in Hstep; [| |done]; by injection Hstep as <-.
    - case_match; [|done].
      destruct (worker_iteration thread_id shuffled (scheduler p1) (program p1))
        as [[[s' w'] ret]|] eqn:Hw; [|done].
      injection Hstep as <-. simpl. revert Hw. unfold worker_iteration.
      intros Hw. repeat (simplify_option_eq || case_match); done.
    - by injection Hstep as <-. }
  split; [done|]. split; [lia|].
  apply Forall_forall. intros q Hq.
  pose proof (proj1 (Forall_forall _ _) Hact q Hq) as Ha.
  pose proof (proj1 (Forall_forall _ _) Hqs q Hq) as [Hlen Hds].
  split; [done|]. split; [done|].
  eapply Forall_impl; [exact Hds|]. intros d []. lia.
Qed.

(** X12.  With no queue at all (a thread count of [0] on a machine whose
    [hardware_concurrency] reports [0]), [schedule] on the running
    scheduler takes the counter modulo zero: it has no defined result. *)
Theorem schedule_without_queues_is_undefined task
    (priority : option priority_t) s :
  num_queues s = 0 → stop_flag s = false →
  schedule task priority s = None.
Proof. intros Hnum Hstop. unfold schedule. by rewrite Hstop, Hnum. Qed.

(** ** Worker turns *)

(** X13.  [worker_loop] returns only from a turn that found nothing to run,
    with the stop flag set and every queue reporting empty; that turn
    runs no task.  In particular no worker leaves before a stop is
    requested. *)
Theorem worker_returns_only_when_stopped_and_drained (thread_id : nat)
    (shuffled : list nat) s (w w' : W) s' :
  worker_iteration thread_id shuffled s w = Some (s', w', true) →
  stop_flag s = true ∧ w' = w
  ∧ forallb queue_empty (work_queues s') = true.
Proof.
  intros Hw. pose proof (worker_iteration_flags _ _ _ _ _ _ _ Hw) as [Hstop _].
  revert Hw. unfold worker_iteration.
  set (own := if bool_decide _ then _ else _).
  destruct own as [[[found1 task1] s1]|]; [|done]. simpl.
  set (sweep := if negb found1 then _ else _).
  destruct sweep as [[[found2 task2] s2]|]; [|done]. simpl.
  destruct found2.
  - destruct task2; simpl; [|done]. by intros [= _ _].
  - destruct (stop_flag _ && forallb _ _) eqn:Hexit; [|by intros [= _ _]].
    intros [= <- <-]. apply andb_prop in Hexit as [Hs He].
    simpl in *. rewrite <- Hstop. done.
Qed.

Lemma steal_sweep_all_empty (ids : list nat) task (qs : list (work_queue_t W)) :
  Forall queue_wf qs → forallb queue_empty qs = true →
  Forall (λ i, i < length qs)%nat ids →
  steal_sweep ids task qs = Some (false, task, qs).
Proof.
  intros Hwf Hempty Hids. induction Hids as [|i ids Hi Hids IH]; [done|].
  cbn [steal_sweep].
  destruct (lookup_lt_is_Some_2 qs i Hi) as [q Hq]. rewrite Hq. simpl.
  destruct (active q); [|exact IH].
  assert (queue_empty q = true) as Hqe.
  { rewrite forallb_forall in Hempty. apply Hempty. apply list_elem_of_In.
    by eapply list_elem_of_lookup_2. }
  destruct (steal_task_by_emptiness task q) as [Hfail _].
  { by eapply Forall_lookup_1. }
  rewrite (Hfail Hqe). simpl. rewrite list_insert_id by done. exact IH.
Qed.

Lemma steal_indices_in_range (thread_id : nat) s :
  Forall (λ i, i < length (work_queues s))%nat (steal_indices thread_id s).
Proof.
  unfold steal_indices. apply Forall_forall. intros i Hi.
  apply list_elem_of_filter in Hi as [_ Hi]. apply elem_of_seq in Hi. lia.
Qed.

(** A turn on a stopped scheduler whose queues are all empty returns and
    leaves the scheduler as it was. *)
Lemma worker_returns_when_drained (thread_id : nat) (shuffled : list nat)
    s (w : W) :
  scheduler_wf s → stop_flag s = true →
  forallb queue_empty (work_queues s) = true →
  0 ≤ idle_count s < 2 ^ 32 →
  Forall (λ i, i < length (work_queues s))%nat shuffled →
  worker_iteration thread_id shuffled s w = Some (s, w, true).
Proof.
  intros [Hnum Hwf] Hstop Hempty Hidle Hids. unfold worker_iteration.
  assert (set_work_queues (work_queues s) s = s) as Hsame by (by destruct s).
  set (own := if bool_decide _ then _ else _).
  assert (own = Some (false, None, s)) as ->.
  { subst own. case_bool_decide as Hlt; [|done].
    destruct (lookup_lt_is_Some_2 _ _ Hlt) as [q Hq]. rewrite Hq. simpl.
    assert (queue_empty q = true) as Hqe.
    { rewrite forallb_forall in Hempty. apply Hempty. apply list_elem_of_In.
      by eapply list_elem_of_lookup_2. }
    destruct (pop_task_by_emptiness None q) as [Hfail _].
    { by eapply Forall_lookup_1. }
    rewrite (Hfail Hqe). simpl. by rewrite list_insert_id, Hsame. }
  simpl. rewrite steal_sweep_all_empty by done. simpl.
  rewrite Hsame, Hstop, Hempty. simpl.
  do 3 f_equal. destruct s; simpl in *. unfold set_idle_count; simpl.
  f_equal. unfold wrap32.
  destruct (decide (idle_count0 + 1 = 2 ^ 32)) as [Heq|Hne].
  - rewrite Heq, Z.mod_same by lia. simpl.
    replace idle_count0 with (2 ^ 32 - 1) by lia. done.
  - rewrite (Z.mod_small (idle_count0 + 1)) by lia.
    rewrite Z.mod_small by lia. lia.
Qed.

(** X14.  Once the stop flag is set and every queue is empty, one more
    turn of each worker makes every [worker_loop] return, so the
    destructor's joins complete; the scheduler and the program state
    are left as they were. *)
Theorem destructor_joins_once_drained (p : pool W) :
  scheduler_wf (scheduler p) → stop_flag (scheduler p) = true →
  forallb queue_empty (work_queues (scheduler p)) = true →
  0 ≤ idle_count (scheduler p) < 2 ^ 32 →
  0 ≤ max_threads (scheduler p) → returned p = [] →
  ∃ p', execute (every_worker_turns (Z.to_nat (max_threads (scheduler p)))
                   (scheduler p)) p = Some p'
        ∧ joined p' = true
        ∧ scheduler p' = scheduler p ∧ program p' = program p.
Proof.
  intros Hwf Hstop Hempty Hidle Hmax Hret.
  destruct p as [s w ret]. simpl in *. subst ret.
  set (n := Z.to_nat (max_threads s)).
  assert (∀ (k : nat) (done_ : list nat), (k ≤ n)%nat →
            (∀ i, i ∈ done_ → (i < n - k)%nat) →
            execute ((λ i, WorkerTurn i (steal_indices i s)) <$> seq (n - k) k)
              (mk_pool s w done_)
            = Some (mk_pool s w (rev (seq (n - k) k) ++ done_))) as Hturns.
  { induction k as [|k IH]; intros done_ Hk Hdone; [done|].
    cbn [seq fmap list_fmap]. unfold execute. cbn [for_each step scheduler
      program returned].
    rewrite bool_decide_eq_true_2.
    2:{ split; [lia|]. split; [|done]. intros Hin. apply Hdone in Hin. lia. }
    rewrite worker_returns_when_drained;
      [|done|done|done|done|apply steal_indices_in_range].
    simpl. replace (S (n - S k)) with (n - k)%nat by lia.
    fold (execute ((λ i, WorkerTurn i (steal_indices i s)) <$> seq (n - k) k)
            (mk_pool s w ((n - S k)%nat :: done_))).
    rewrite IH; [|lia|].
    - by rewrite <- app_assoc.
    - intros i Hi. apply elem_of_cons in Hi as [->|Hi]; [lia|].
      apply Hdone in Hi. lia. }
  specialize (Hturns n [] ltac:(lia) ltac:(intros i Hi; by apply elem_of_nil in Hi)).
  rewrite Nat.sub_diag, app_nil_r in Hturns.
  eexists. split; [exact Hturns|]. split; [|done].
  unfold joined. simpl. fold n. apply bool_decide_eq_true_2.
  intros i Hi. apply list_elem_of_In, in_rev. rewrite rev_involutive.
  by apply list_elem_of_In.
Qed.

(** ** One worker, one batch *)

Lemma single_queue_new (hardware_concurrency num_nodes : Z)
    (priority p : priority_t) :
  single_queue p []
    (@new_system_scheduler W hardware_concurrency num_nodes priority 1).
Proof.
  split; try done. exists new_work_queue. do 3 (split; [done|]).
  intros j d Hd. simpl in Hd.
  assert (d = new_deque) as ->.
  { destruct j as [|[|[|[|j]]]]; simpl in Hd; by simplify_eq. }
  split; [|done]. case_decide; apply new_deque_holds.
Qed.

Lemma priority_index_range (p : priority_t) :
  (Z.to_nat (priority_int p) < 4)%nat ∧ 0 ≤ priority_int p < 4.
Proof. destruct p; simpl; lia. Qed.

Lemma single_queue_schedule (p : priority_t) task l s :
  single_queue p l s → Z.of_nat (length l) < 2 ^ 30 →
  ∃ s', schedule task (Some p) s = Some s' ∧ single_queue p (l ++ [task]) s'.
Proof.
  intros [(q & Hqs & Hact & Hlen & Hds) Hnum Hmax Hrun Hnext Hidle] Hroom.
  destruct (priority_index_range p) as [HP Hp].
  destruct (lookup_lt_is_Some_2 (task_queues q) (Z.to_nat (priority_int p)))
    as [d Hd]; [lia|].
  destruct (Hds _ d Hd) as [Hl Htop]. rewrite decide_True in Hl by done.
  pose proof Hl as [_ Hlenl _].
  destruct (push_holds task d l Hl) as (d' & Hpush & Hl' & _ & Htop' & _);
    [lia|].
  unfold schedule. rewrite Hrun, Hnum. unfold size_rem. simpl.
  rewrite Z.mod_1_r, Hqs. simpl. rewrite Hact. simpl.
  unfold push_task. rewrite vec_at_lookup, Hd by lia. simpl.
  rewrite Hpush. simpl. rewrite vec_set_in_range by lia. simpl.
  eexists. split; [done|]. split; simpl; try done.
  - eexists. split; [done|]. split; [done|].
    split; [simpl; by rewrite length_insert|].
    intros j dj Hj. simpl in Hj. destruct (decide (j = Z.to_nat (priority_int p))) as [->|Hne].
    + rewrite list_lookup_insert_eq in Hj by lia. injection Hj as <-.
      split; [done|lia].
    + rewrite list_lookup_insert_ne in Hj by done.
      specialize (Hds j dj Hj). by rewrite decide_False in Hds.
  - apply wrap64_range.
Qed.

Lemma single_queue_submit_all (p : priority_t) (ts l : list (fn W)) s :
  single_queue p l s → Z.of_nat (length l + length ts) < 2 ^ 30 →
  ∃ s', for_each (λ t s, schedule t (Some p) s) ts s = Some s'
        ∧ single_queue p (l ++ ts) s'.
Proof.
  revert l s. induction ts as [|t ts IH]; intros l s Hs Hroom.
  - exists s. by rewrite app_nil_r.
  - cbn [length] in Hroom.
    destruct (single_queue_schedule p t l s Hs) as (s1 & Hs1 & Hq1); [lia|].
    destruct (IH (l ++ [t]) s1 Hq1) as (s' & Hs' & Hq').
    { rewrite length_app. simpl. lia. }
    exists s'. cbn [for_each]. rewrite Hs1. simpl. split; [done|].
    by rewrite <- app_assoc in Hq'.
Qed.

(** [pop_task] takes from the deque of priority [p] when every deque of
    a higher priority is empty. *)
Lemma pop_task_at task q (p : nat) d x d' :
  queue_wf q → task_queues q !! p = Some d →
  pop task d = Some (true, x, d') →
  (∀ (j : nat) dj, (p < j)%nat → task_queues q !! j = Some dj →
     bottom dj ≤ top dj) →
  pop_task task q
  = Some (true, x, set_task_queues (<[p := d']> (task_queues q)) q).
Proof.
  intros [Hlen Hinv] Hd Hpop Habove.
  destruct (priority_scan_outcome pop 4 task q pop_fails_cleanly Hinv
              ltac:(lia)) as (r & Hr & Hout).
  change (pop_task task q) with (priority_scan pop 4 task q). rewrite Hr.
  apply lookup_lt_Some in Hd as Hplt.
  destruct Hout as [(p0 & d0 & x0 & d0' & Hp0 & Hd0 & Hop0 & Hfail & ->)|[Hall _]].
  - destruct (Nat.lt_trichotomy p0 p) as [Hlt|[->|Hgt]].
    + rewrite (Hfail p d) in Hpop; [done|lia|done].
    + by simplify_eq.
    + rewrite pop_empty in Hop0; [done| |by eapply Habove].
      by eapply Forall_lookup_1.
  - rewrite (Hall p d) in Hpop; [done|lia|done].
Qed.

(** A turn of the single worker runs the newest task of its queue. *)
Lemma single_queue_turn (p : priority_t) (run : Task W) l s (w : W) :
  single_queue p (l ++ [Some run]) s →
  ∃ s', worker_iteration 0 [] s w = Some (s', run w, false)
        ∧ (l ≠ [] → single_queue p l s')
        ∧ (l = [] → scheduler_wf s' ∧ stop_flag s' = false
             ∧ forallb queue_empty (work_queues s') = true
             ∧ 0 ≤ idle_count s' < 2 ^ 32 ∧ max_threads s' = 1
             ∧ length (work_queues s') = 1%nat).
Proof.
  intros [(q & Hqs & Hact & Hlen & Hds) Hnum Hmax Hrun Hnext Hidle].
  destruct (priority_index_range p) as [HP Hp].
  set (P := Z.to_nat (priority_int p)) in *.
  destruct (lookup_lt_is_Some_2 (task_queues q) P) as [d Hd]; [lia|].
  destruct (Hds _ d Hd) as [Hl Htop]. rewrite decide_True in Hl by done.
  pose proof Hl as [Hinv Hlenl _].
  rewrite length_app in Hlenl. simpl in Hlenl.
  destruct (pop_holds None d l (Some run) Hl) as (d' & Hpop & Hl').
  destruct (pop_nonempty None d Hinv) as (y & _ & Hpop'); [lia|].
  rewrite Hpop in Hpop'. injection Hpop' as _ Hd'.
  assert (queue_wf q) as Hwf.
  { split; [done|]. apply Forall_forall. intros dj Hj.
    apply list_elem_of_lookup in Hj as [j Hj]. by destruct (Hds j dj Hj) as [[] _]. }
  assert (pop_task None q
          = Some (true, Some run, set_task_queues (<[P := d']> (task_queues q)) q))
    as Hpt.
  { apply (pop_task_at None q P d); try done.
    intros j dj Hj Hdj. destruct (Hds j dj Hdj) as [Hh _].
    rewrite decide_False in Hh by lia. by apply holds_nil_empty. }
  unfold worker_iteration. rewrite Hqs. simpl. rewrite Hpt. simpl.
  eexists. split; [done|].
  assert (deque_inv d') as Hinv' by (by eapply pop_inv).
  split.
  - intros Hne. assert (0 < length l)%nat by (destruct l; [done|simpl; lia]).
    split; simpl; try done.
    eexists. split; [done|]. split; [done|].
    split; [simpl; by rewrite length_insert|].
    intros j dj Hj. simpl in Hj. fold P.
    destruct (decide (j = P)) as [->|Hnej].
    + rewrite list_lookup_insert_eq in Hj by lia. injection Hj as <-.
      split; [by apply Hl'|]. rewrite Hd'. simpl.
      destruct (Z.eqb_spec (top d) (bottom d - 1)); lia.
    + rewrite list_lookup_insert_ne in Hj by done.
      specialize (Hds j dj Hj). by rewrite decide_False in Hds.
  - intros ->. simpl in Hlenl.
    assert (Forall deque_inv (<[P := d']> (task_queues q))) as Hinvs.
    { apply Forall_insert; [|done]. by destruct Hwf. }
    split; [|split; [done|split; [|done]]].
    + split; simpl; [by rewrite Hnum|].
      constructor; [|done]. split; simpl; [by rewrite length_insert|done].
    + simpl. rewrite andb_true_r. unfold queue_empty. simpl.
      apply forallb_forall. intros dj Hj. apply list_elem_of_In in Hj.
      apply list_elem_of_lookup in Hj as [j Hj]. apply Z.leb_le.
      destruct (decide (j = P)) as [->|Hnej].
      * rewrite list_lookup_insert_eq in Hj by lia. injection Hj as <-.
        rewrite Hd'. simpl. destruct (Z.eqb_spec (top d) (bottom d - 1)); lia.
      * rewrite list_lookup_insert_ne in Hj by done.
        destruct (Hds j dj Hj) as [Hh _]. rewrite decide_False in Hh by done.
        by apply holds_nil_empty.
Qed.

Lemma single_queue_drain (p : priority_t) (rs : list (Task W)) s (w : W) :
  single_queue p (Some <$> rs) s → rs ≠ [] →
  ∃ s', execute (replicate (length rs) (WorkerTurn 0 [])) (mk_pool s w [])
        = Some (mk_pool s' (foldr (λ r acc, r acc) w rs) [])
        ∧ scheduler_wf s' ∧ stop_flag s' = false
        ∧ forallb queue_empty (work_queues s') = true
        ∧ 0 ≤ idle_count s' < 2 ^ 32 ∧ max_threads s' = 1
        ∧ length (work_queues s') = 1%nat.
Proof.
  revert s w. induction rs as [|r rs IH] using rev_ind; intros s w Hs Hne;
    [done|].
  rewrite fmap_app in Hs. cbn [fmap list_fmap] in Hs.
  destruct (single_queue_turn p r (Some <$> rs) s w Hs)
    as (s1 & Hturn & Hmore & Hlast).
  pose proof Hs as [(q & Hqs & _) _ Hmax _ _ _].
  rewrite length_app, Nat.add_1_r. cbn [replicate]. unfold execute.
  cbn [for_each step scheduler program returned].
  rewrite bool_decide_eq_true_2.
  2:{ rewrite Hmax. split; [simpl; lia|]. split; [apply not_elem_of_nil|].
      unfold steal_indices. rewrite Hqs. done. }
  rewrite Hturn. simpl. rewrite foldr_app. simpl.
  destruct rs as [|r0 rs0] eqn:Hrs.
  - exists s1. split; [done|]. by apply Hlast.
  - rewrite <- Hrs in *. apply IH; [|by rewrite Hrs].
    apply Hmore. by rewrite Hrs.
Qed.

Lemma chunk_closure_single (c : Z) (task : IndexedTask W) (w : W) :
  chunk_closure c (c + 1) task w = task c w.
Proof.
  unfold chunk_closure. replace (c + 1 - c) with 1 by lia.
  rewrite seqZ_cons, seqZ_nil by lia. done.
Qed.

(** X15.  A pool with one worker given one batch: [bulk_schedule(n, f, p)]
    on the fresh scheduler, [n] turns of the worker, then the
    destructor.  The worker runs [f] on every index exactly once, from
    [n-1] down to [0], every queue ends empty and the destructor's join
    completes. *)
Theorem single_worker_runs_whole_batch (hardware_concurrency num_nodes : Z)
    (default_priority : priority_t) (n : Z) (task : IndexedTask W)
    (priority : option priority_t) (w : W) :
  0 < n < 2 ^ 30 →
  ∃ p',
    execute (BulkSchedule n task priority
             :: replicate (Z.to_nat n) (WorkerTurn 0 [])
             ++ [DestructorStop; WorkerTurn 0 []])
      (mk_pool (new_system_scheduler hardware_concurrency num_nodes
                  default_priority 1) w []) = Some p'
    ∧ program p' = foldr (λ i acc, task i acc) w (seqZ 0 n)
    ∧ joined p' = true
    ∧ forallb queue_empty (work_queues (scheduler p')) = true.
Proof.
  intros Hn.
  set (s0 := new_system_scheduler hardware_concurrency num_nodes
               default_priority 1).
  set (p := priority_argument priority).
  set (rs := (λ c, chunk_closure c (c + 1) task) <$> seqZ 0 n).
  (* the batch *)
  assert (∃ s1, bulk_schedule n task priority s0 = Some s1
                ∧ single_queue p (Some <$> rs) s1) as (s1 & Hbulk & Hs1).
  { unfold bulk_schedule. rewrite bulk_schedule_on_calls.
    change (active_thread_count s0) with 1.
    rewrite filter_nonempty_ranges by lia. rewrite for_each_fmap. simpl.
    destruct (single_queue_submit_all p (Some <$> rs) [] s0) as (s1 & Hs1 & Hq1).
    { apply single_queue_new. }
    { simpl. unfold rs. rewrite !length_fmap, length_seqZ. lia. }
    exists s1. split; [|done].
    unfold rs in Hs1. rewrite <- list_fmap_compose, for_each_fmap in Hs1.
    exact Hs1. }
  (* the turns *)
  assert (length rs = Z.to_nat n) as Hlen.
  { unfold rs. by rewrite length_fmap, length_seqZ. }
  destruct (single_queue_drain p rs s1 w Hs1)
    as (s2 & Hdrain & Hwf2 & Hrun2 & Hempty2 & Hidle2 & Hmax2 & Hlen2).
  { intros Hnil. rewrite Hnil in Hlen. simpl in Hlen. lia. }
  rewrite Hlen in Hdrain.
  (* the destructor *)
  assert (worker_iteration 0 [] (set_stop_flag true s2)
            (foldr (λ r acc, r acc) w rs)
          = Some (set_stop_flag true s2, foldr (λ r acc, r acc) w rs, true))
    as Hlast.
  { apply worker_returns_when_drained; try done.
    destruct Hwf2. by split. }
  eexists. unfold execute in *. cbn [for_each step scheduler program returned].
  assert ((0 <=? n) && (n <? 2 ^ 32) = true) as ->.
  { apply andb_true_intro. split; [apply Z.leb_le|apply Z.ltb_lt]; lia. }
  fold s0. rewrite Hbulk. simpl. rewrite for_each_app, Hdrain. simpl.
  rewrite bool_decide_eq_true_2.
  2:{ rewrite Hmax2. split; [simpl; lia|]. split; [apply not_elem_of_nil|].
      unfold steal_indices. simpl.
      destruct (work_queues s2) as [|q [|q' qs]]; simpl in Hlen2; try lia.
      done. }
  rewrite Hlast. simpl. split; [reflexivity|]. simpl.
  split; [|split; [|done]].
  - unfold rs. rewrite foldr_fmap. apply foldr_ext; [|done..].
    intros c acc. apply chunk_closure_single.
  - unfold joined. simpl. rewrite Hmax2. done.
Qed.

(** ** The probe loop of [schedule] *)

Lemma skip_inactive_first (fuel : nat) (qs : list (work_queue_t W))
    (num chosen c : Z) :
  0 < num < 2 ^ 64 → Z.of_nat (length qs) = num → 0 ≤ chosen < num →
  skip_inactive fuel qs num chosen = Some c →
  ∃ j : nat, (j < fuel)%nat ∧ c = (chosen + Z.of_nat j) mod num
    ∧ (∃ q, qs !! Z.to_nat c = Some q ∧ active q = true)
    ∧ ∀ j' : nat, (j' < j)%nat →
        ∃ q, qs !! Z.to_nat ((chosen + Z.of_nat j') mod num) = Some q
             ∧ active q = false.
Proof.
  intros Hnum Hlen. revert chosen.
  induction fuel as [|fuel IH]; intros chosen Hc; [done|].
  cbn [skip_inactive]. intros Hs.
  destruct (vec_at qs chosen) as [q0|] eqn:Hq0; [|done]. simpl in Hs.
  apply vec_at_Some in Hq0 as [_ Hq0].
  destruct (active q0) eqn:Hact.
  - injection Hs as <-. exists 0%nat. split; [lia|].
    rewrite Z.add_0_r, Z.mod_small by lia. split; [done|].
    split; [eauto|]. intros; lia.
  - unfold size_rem in Hs. destruct (Z.eqb_spec num 0); [lia|]. simpl in Hs.
    rewrite wrap64_small in Hs by lia.
    apply IH in Hs as (j & Hj & -> & Hq & Hbefore);
      [|apply Z.mod_pos_bound; lia].
    assert (∀ k : nat, ((chosen + 1) mod num + Z.of_nat k) mod num
                       = (chosen + Z.of_nat (S k)) mod num) as Hshift.
    { intros k. rewrite Zplus_mod_idemp_l. f_equal. lia. }
    exists (S j). split; [lia|]. split; [apply Hshift|].
    split; [done|]. intros [|j'] Hj'.
    + rewrite Z.add_0_r, Z.mod_small by lia. eauto.
    + rewrite <- Hshift. apply Hbefore. lia.
Qed.

Lemma skip_inactive_none (fuel : nat) (qs : list (work_queue_t W))
    (num chosen : Z) :
  Forall (λ q, active q = false) qs →
  skip_inactive fuel qs num chosen = None.
Proof.
  intros Hall. revert chosen. induction fuel as [|fuel IH]; intros chosen;
    [done|].
  cbn [skip_inactive].
  destruct (vec_at qs chosen) as [q0|] eqn:Hq0; [|done]. simpl.
  apply vec_at_Some in Hq0 as [_ Hq0].
  rewrite (Forall_lookup_1 _ _ _ _ Hall Hq0).
  destruct (size_rem _ _); simpl; [apply IH|done].
Qed.

(** X16.  The probe loop of [schedule] settles on the first active queue
    at or after the counter's queue, going round: every queue it passed
    is inactive.  It ends within one round when some queue is active,
    and with no active queue it ends after no number of probes, so
    [schedule] does not return. *)
Theorem schedule_probes_to_first_active_queue task
    (priority : option priority_t) s :
  0 < num_queues s < 2 ^ 64 →
  Z.of_nat (length (work_queues s)) = num_queues s →
  stop_flag s = false →
  let start := next_queue s mod num_queues s in
  (∀ (fuel : nat) c,
     skip_inactive fuel (work_queues s) (num_queues s) start = Some c →
     ∃ j : nat, (j < fuel)%nat
       ∧ c = (start + Z.of_nat j) mod num_queues s
       ∧ (∃ q, work_queues s !! Z.to_nat c = Some q ∧ active q = true)
       ∧ ∀ j' : nat, (j' < j)%nat →
           ∃ q, work_queues s
                !! Z.to_nat ((start + Z.of_nat j') mod num_queues s) = Some q
                ∧ active q = false)
  ∧ (Exists (λ q, active q = true) (work_queues s) →
       ∃ c, skip_inactive (Z.to_nat (num_queues s)) (work_queues s)
              (num_queues s) start = Some c)
  ∧ (Forall (λ q, active q = false) (work_queues s) →
       (∀ fuel : nat,
          skip_inactive fuel (work_queues s) (num_queues s) start = None)
       ∧ schedule task priority s = None).
Proof.
  intros Hnum Hlen Hstop start.
  assert (0 ≤ start < num_queues s) as Hstart
    by (apply Z.mod_pos_bound; lia).
  split; [|split].
  - intros fuel c. by apply skip_inactive_first.
  - intros Hex.
    destruct (skip_inactive_defined (Z.to_nat (num_queues s)) (work_queues s)
                (num_queues s) start) as (c & q & Hc & _); try done.
    + apply some_queue_within_reach; (done || lia).
    + eauto.
  - intros Hall. split; [intros fuel; by apply skip_inactive_none|].
    unfold schedule. rewrite Hstop. unfold size_rem.
    destruct (Z.eqb_spec (num_queues s) 0); [lia|]. simpl.
    fold start. by rewrite skip_inactive_none.
Qed.

(** ** The size of a work queue *)

Lemma holds_size d (l : list (fn W)) :
  holds d l →
  deque_size d = Z.of_nat (length l) ∧ 0 ≤ deque_size d ≤ INT_MAX
  ∧ (deque_empty d = true ↔ l = []).
Proof.
  intros [[] Hlen _]. unfold deque_size, deque_empty.
  destruct (Z.leb_spec (top d) (bottom d)); [|lia].
  split; [lia|]. split; [lia|]. rewrite Z.leb_le.
  destruct l; simpl in Hlen; split; intros Hx; first [done | lia].
Qed.

(** X17.  [work_queue_t::size] is the number of tasks the four deques
    hold together, and [work_queue_t::empty] tells whether that is
    none. *)
Theorem queue_size_counts_tasks q (ls : list (list (fn W))) :
  length (task_queues q) = 4%nat → Forall2 holds (task_queues q) ls →
  queue_size q = Z.of_nat (length (concat ls))
  ∧ (queue_empty q = true ↔ concat ls = []).
Proof.
  intros Hlen Hall. unfold queue_size, queue_empty.
  destruct (task_queues q) as [|d0 [|d1 [|d2 [|d3 [|d4 ds]]]]]; try done.
  apply Forall2_cons_inv_l in Hall as (l0 & ls0 & H0 & Hall & ->).
  apply Forall2_cons_inv_l in Hall as (l1 & ls1 & H1 & Hall & ->).
  apply Forall2_cons_inv_l in Hall as (l2 & ls2 & H2 & Hall & ->).
  apply Forall2_cons_inv_l in Hall as (l3 & ls3 & H3 & Hall & ->).
  apply Forall2_nil_inv_l in Hall as ->.
  destruct (holds_size d0 l0 H0) as (S0 & B0 & E0).
  destruct (holds_size d1 l1 H1) as (S1 & B1 & E1).
  destruct (holds_size d2 l2 H2) as (S2 & B2 & E2).
  destruct (holds_size d3 l3 H3) as (S3 & B3 & E3).
  cbn [foldl forallb concat]. rewrite app_nil_r. split.
  - unfold INT_MAX in *. rewrite !length_app.
    rewrite (wrap64_small (0 + deque_size d0)) by lia.
    rewrite (wrap64_small (0 + deque_size d0 + deque_size d1)) by lia.
    rewrite (wrap64_small (0 + deque_size d0 + deque_size d1 + deque_size d2))
      by lia.
    rewrite wrap64_small by lia. lia.
  - rewrite !andb_true_iff, E0, E1, E2, E3.
    split.
    + by intros (-> & -> & -> & -> & _).
    + intros Hnil. apply app_eq_nil in Hnil as [-> Hnil].
      apply app_eq_nil in Hnil as [-> Hnil].
      by apply app_eq_nil in Hnil as [-> ->].
Qed.

(** ** The process-wide schedulers *)

Lemma process_step_grows (hardware_concurrency num_nodes : Z)
    (c : process_call) (g : process W) (i : nat) :
  let g' := (process_step hardware_concurrency num_nodes c g).2 in
  (context_instance g = Some i → context_instance g' = Some i)
  ∧ (fallback_scheduler g = Some i → fallback_scheduler g' = Some i)
  ∧ ∀ x, store g !! i = Some x → store g' !! i = Some x.
Proof.
  destruct c as [|scheduler|priority]; simpl.
  - unfold query_system_context.
    destruct (context_instance g) eqn:Hc; simpl; [by rewrite Hc|].
    split; [done|]. split; [done|].
    intros x Hx. by apply lookup_app_l_Some.
  - done.
  - unfold get_system_scheduler. destruct (current_scheduler g); simpl;
      [done|].
    destruct (fallback_scheduler g) eqn:Hf; simpl; [by rewrite Hf|].
    split; [done|]. split; [done|]. intros x Hx. by apply lookup_app_l_Some.
Qed.

Lemma process_run_grows (hardware_concurrency num_nodes : Z)
    (cs : list process_call) (g : process W) (i : nat) :
  let g' := process_run hardware_concurrency num_nodes cs g in
  (context_instance g = Some i → context_instance g' = Some i)
  ∧ (fallback_scheduler g = Some i → fallback_scheduler g' = Some i)
  ∧ ∀ x, store g !! i = Some x → store g' !! i = Some x.
Proof.
  unfold process_run. revert g. induction cs as [|c cs IH]; intros g; [done|].
  simpl.
  destruct (process_step_grows hardware_concurrency num_nodes c g i)
    as (Hc & Hf & Hs).
  destruct (IH (process_step hardware_concurrency num_nodes c g).2)
    as (Hc' & Hf' & Hs').
  split; [auto|]. split; auto.
Qed.

(** X18.  [query_system_context] returns the same scheduler on every
    call: the one its first call built, with NORMAL priority and one
    worker per hardware thread.  Installing another scheduler with
    [set_system_scheduler], or calling [get_system_scheduler], does not
    change what it returns. *)
Theorem query_system_context_is_stable (hardware_concurrency num_nodes : Z)
    (cs : list process_call) (g : process W) :
  context_instance g = None →
  let first := query_system_context hardware_concurrency num_nodes g in
  let g' := process_run hardware_concurrency num_nodes cs first.2 in
  query_system_context hardware_concurrency num_nodes g' = (first.1, g')
  ∧ store g' !! first.1
    = Some (PoolScheduler,
            new_system_scheduler hardware_concurrency num_nodes NORMAL 0).
Proof.
  intros Hnone first g'.
  assert (context_instance first.2 = Some first.1
          ∧ store first.2 !! first.1
            = Some (PoolScheduler,
                    new_system_scheduler hardware_concurrency num_nodes
                      NORMAL 0)) as [Hinst Hstore].
  { subst first. unfold query_system_context. rewrite Hnone. simpl.
    split; [done|]. rewrite lookup_app_r, Nat.sub_diag by lia. done. }
  destruct (process_run_grows hardware_concurrency num_nodes cs first.2 first.1)
    as (Hc & _ & Hs).
  fold g' in Hc, Hs. split; [|by apply Hs].
  unfold query_system_context. by rewrite (Hc Hinst).
Qed.

(** X19.  [get_system_scheduler] returns the installed scheduler when
    there is one, whatever priority it is called with.  Without one it
    returns the static built by the first such call: later calls return
    that same scheduler, whose priority is the priority of the first
    call, not their own.  Installing a scheduler and then a null pointer
    brings the static back. *)
Theorem get_system_scheduler_keeps_first_priority
    (hardware_concurrency num_nodes : Z) (priority later : option priority_t)
    (installed : nat) (g : process W) :
  current_scheduler g = None → fallback_scheduler g = None →
  let first := get_system_scheduler hardware_concurrency num_nodes priority g in
  let g1 := first.2 in
  (∃ s, store g1 !! first.1 = Some (MacosScheduler, s)
        ∧ get_priority s = priority_argument priority)
  ∧ get_system_scheduler hardware_concurrency num_nodes later g1
    = (first.1, g1)
  ∧ get_system_scheduler hardware_concurrency num_nodes later
      (set_system_scheduler (Some installed) g1)
    = (installed, set_system_scheduler (Some installed) g1)
  ∧ get_system_scheduler hardware_concurrency num_nodes later
      (set_system_scheduler None (set_system_scheduler (Some installed) g1))
    = (first.1,
       set_system_scheduler None (set_system_scheduler (Some installed) g1)).
Proof.
  intros Hcur Hfall first g1. subst g1 first.
  unfold get_system_scheduler. rewrite Hcur, Hfall. simpl.
  split; [|by repeat split].
  eexists. split;
    [rewrite lookup_app_r, Nat.sub_diag by lia; reflexivity|reflexivity].
Qed.

(** ** The dispatcher-backed scheduler *)

(** X20.  Through the dispatcher-backed [schedule], [bulk_schedule(n, f, p)]
    hands the dispatcher exactly [n] blocks, in index order, block [c]
    calling [f] on the single index [c], all at the dispatch priority
    the call's priority maps to (CRITICAL and HIGH both to high); no
    stop flag is consulted. *)
Theorem macos_bulk_schedule_dispatches_all (active_threads n : Z)
    (task : IndexedTask W) (priority : option priority_t)
    (dispatched : list (dispatch_priority * fn W)) :
  0 < n < 2 ^ 32 →
  bulk_schedule_on macos_schedule active_threads n task priority dispatched
  = Some (dispatched
          ++ ((λ c, (macos_dispatch_priority (priority_argument priority),
                     Some (chunk_closure c (c + 1) task))) <$> seqZ 0 n)).
Proof.
  intros Hn. rewrite bulk_schedule_on_calls.
  rewrite filter_nonempty_ranges by done. rewrite for_each_fmap.
  unfold macos_schedule. simpl.
  apply (for_each_record
           (λ c, (macos_dispatch_priority (priority_argument priority),
                  Some (chunk_closure c (c + 1) task)))).
Qed.

End Pool.

(** ** The matrix demo *)

Lemma mapM_total {A B} (f : A → option B) (g : A → B) (l : list A) :
  (∀ x, x ∈ l → f x = Some (g x)) → mapM f l = Some (g <$> l).
Proof.
  induction l as [|x l IH]; intros Hf; [done|].
  simpl. rewrite (Hf x) by (apply elem_of_cons; by left). simpl.
  rewrite IH; [done|]. intros y Hy. apply Hf. apply elem_of_cons. by right.
Qed.

Lemma concat_equal_blocks (bs : Z) (k : nat) :
  0 ≤ bs →
  concat ((λ t, seqZ (t * bs) bs) <$> seqZ 0 (Z.of_nat k))
  = seqZ 0 (Z.of_nat k * bs).
Proof.
  intros Hbs. induction k as [|k IH]; [done|].
  rewrite seqZ_S, fmap_app, concat_app, IH. simpl. rewrite app_nil_r.
  rewrite <- seqZ_app by lia. f_equal. lia.
Qed.

Lemma int_cast_small (z : Z) : 0 ≤ z ≤ INT_MAX → int_cast z = z.
Proof.
  unfold int_cast, INT_MAX. intros Hz. rewrite Z.mod_small; lia.
Qed.

(** The loop of [multiply_matrices]: one block per thread, in row order,
    the last block ending at [rowsA]. *)
Lemma row_loop_partition (rowsA num_threads : Z) :
  0 ≤ rowsA ≤ INT_MAX → 0 < num_threads ≤ INT_MAX →
  ∃ blocks,
    (block_size ← int_div rowsA num_threads;
     mapM (row_block rowsA num_threads block_size) (seqZ 0 num_threads))
    = Some blocks
    ∧ Z.of_nat (length blocks) = num_threads
    ∧ concat (range_indices <$> blocks) = seqZ 0 rowsA
    ∧ Forall (λ r, 0 ≤ r.1 ≤ r.2 ≤ rowsA) blocks.
Proof.
  intros Hrows Hnum.
  set (bs := rowsA / num_threads).
  assert (0 ≤ bs) as Hbs by (apply Z.div_pos; lia).
  assert (num_threads * bs ≤ rowsA) as Hfit by (apply Z.mul_div_le; lia).
  assert (bs ≤ rowsA) as Hle by nia.
  set (g := λ t, (t * bs, if t =? num_threads - 1 then rowsA else (t + 1) * bs)).
  exists (g <$> seqZ 0 num_threads). split.
  { unfold int_div.
    destruct (Z.eqb_spec num_threads 0); [lia|].
    rewrite Z.quot_div_nonneg by lia. fold bs.
    rewrite int_in_range by (unfold INT_MIN; lia). simpl.
    apply mapM_total. intros t Ht. apply elem_of_seqZ in Ht.
    unfold row_block.
    rewrite (int_in_range (t * bs)) by (unfold INT_MIN; nia). simpl.
    rewrite (int_in_range (t + 1)) by (unfold INT_MIN; lia). simpl.
    rewrite (int_in_range ((t + 1) * bs)) by (unfold INT_MIN; nia). simpl.
    rewrite (int_in_range (num_threads - 1)) by (unfold INT_MIN; lia). done. }
  split; [rewrite length_fmap, length_seqZ; lia|].
  split.
  - replace num_threads with (Z.of_nat (S (Z.to_nat (num_threads - 1)))) at 1
      by lia.
    rewrite seqZ_S, !fmap_app, concat_app. simpl. rewrite app_nil_r.
    rewrite Z2Nat.id by lia. rewrite <- list_fmap_compose.
    rewrite (list_fmap_ext _ (λ t, seqZ (t * bs) bs) (seqZ 0 _)).
    2:{ intros i t Ht. apply lookup_seqZ in Ht as [-> Hi].
        unfold range_indices, g. simpl.
        destruct (Z.eqb_spec (0 + Z.of_nat i) (num_threads - 1)); [lia|].
        f_equal. lia. }
    replace (num_threads - 1) with (Z.of_nat (Z.to_nat (num_threads - 1))) at 1
      by lia.
    rewrite concat_equal_blocks by done. rewrite Z2Nat.id by lia.
    unfold range_indices, g. simpl. rewrite Z.eqb_refl.
    rewrite <- seqZ_app by nia. f_equal. lia.
  - apply Forall_fmap, Forall_forall. intros t Ht. apply elem_of_seqZ in Ht.
    unfold g. simpl.
    destruct (Z.eqb_spec t (num_threads - 1)); nia.
Qed.

(** X21.  [multiply_matrices] on a matrix [A] with at least one row and
    a matrix [B] with at least one row, on a machine with at least one
    hardware thread: the closures capture the lengths of the first rows
    of [A] and [B], and their row blocks cover the rows [0 .. rowsA-1]
    in order, each row in exactly one block, one block per hardware
    thread; the last block takes the rows the division leaves over.
    With an empty [A] or an empty [B] the function indexes an empty
    vector before it computes any block, and when
    [hardware_concurrency] reports [0] the block size is a division by
    zero: none of the three has a defined result. *)
Theorem row_blocks_partition (A B : Matrix) (a0 b0 : list Z)
    (hardware_concurrency : Z) :
  A !! 0%nat = Some a0 → B !! 0%nat = Some b0 →
  Z.of_nat (length A) ≤ INT_MAX →
  Z.of_nat (length a0) ≤ INT_MAX → Z.of_nat (length b0) ≤ INT_MAX →
  0 < hardware_concurrency ≤ INT_MAX →
  row_blocks [] B hardware_concurrency = None
  ∧ row_blocks A [] hardware_concurrency = None
  ∧ row_blocks A B 0 = None
  ∧ ∃ blocks,
      row_blocks A B hardware_concurrency
      = Some (Z.of_nat (length a0), Z.of_nat (length b0), blocks)
      ∧ Z.of_nat (length blocks) = hardware_concurrency
      ∧ concat (range_indices <$> blocks) = seqZ 0 (Z.of_nat (length A))
      ∧ Forall (λ r, 0 ≤ r.1 ≤ r.2 ≤ Z.of_nat (length A)) blocks.
Proof.
  intros Ha0 Hb0 Hrows Hca Hcb Hnum.
  assert (vec_at A 0 = Some a0) as HA by (unfold vec_at; simpl; exact Ha0).
  assert (vec_at B 0 = Some b0) as HB by (unfold vec_at; simpl; exact Hb0).
  assert (resize_rows (Z.of_nat (length A)) (Z.of_nat (length b0)) = Some ())
    as Hres.
  { unfold resize_rows.
    destruct (Z.leb_spec 0 (Z.of_nat (length b0))); [|lia].
    destruct (Z.leb_spec 0 (Z.of_nat (length A))); [done|lia]. }
  split; [done|].
  split; [unfold row_blocks; by rewrite HA|].
  split.
  { unfold row_blocks. rewrite HA, HB. simpl.
    rewrite !int_cast_small by lia. rewrite Hres. done. }
  destruct (row_loop_partition (Z.of_nat (length A)) hardware_concurrency)
    as (blocks & Hloop & Hlen & Hcover & Hin); [lia|done|].
  exists blocks. split; [|done].
  unfold row_blocks. rewrite HA, HB. simpl.
  rewrite !int_cast_small by lia. rewrite Hres. simpl.
  destruct (int_div (Z.of_nat (length A)) hardware_concurrency) as [bs|];
    [|done].
  simpl in Hloop |- *. by rewrite Hloop.
Qed.

(** The witness of C6: a queue holding a LOW task and a CRITICAL task.
    Both scans return the CRITICAL one. *)
Lemma priority_scan_highest_first_witness :
  let q : work_queue_t (list nat) :=
    mk_work_queue [deque_after [log_task 1]; new_deque; new_deque;
                   deque_after [log_task 2]] true in
  length (task_queues q) = 4%nat
  ∧ Forall deque_inv (task_queues q)
  ∧ (∃ dl, task_queues q !! 0%nat = Some dl ∧ top dl < bottom dl
           ∧ buffer dl !! 0%nat = Some (log_task 1))
  ∧ (∃ dc, task_queues q !! 3%nat = Some dc ∧ top dc < bottom dc)
  ∧ (∃ q', pop_task None q = Some (true, log_task 2, q'))
  ∧ (∃ q', steal_task None q = Some (true, log_task 2, q')).
Proof.
  intros q.
  destruct (deque_after_holds [log_task 1]) as (Hl & Htl & Hbl); [simpl; lia|].
  destruct (deque_after_holds [log_task 2]) as (Hc & Htc & Hbc); [simpl; lia|].
  assert (top (deque_after [log_task 2]) < bottom (deque_after [log_task 2]))
    as Hlt by (rewrite Htc, Hbc; simpl; lia).
  assert (Forall deque_inv (task_queues q)) as Hinv.
  { constructor; [apply Hl|]. constructor; [apply new_deque_inv|].
    constructor; [apply new_deque_inv|]. constructor; [apply Hc|].
    constructor. }
  split; [reflexivity|]. split; [exact Hinv|].
  split.
  { eexists. split; [reflexivity|]. split; [rewrite Htl, Hbl; simpl; lia|].
    vm_compute. reflexivity. }
  split; [eexists; split; [reflexivity|exact Hlt]|].
  destruct (priority_scan_highest_first None q eq_refl Hinv)
    as (_ & _ & Hpop & Hsteal).
  destruct (Hpop (deque_after [log_task 2]) eq_refl Hlt)
    as (x & dc' & Hx & _ & Hq).
  destruct (Hsteal (deque_after [log_task 2]) eq_refl Hlt)
    as (y & dc'' & Hy & _ & Hq').
  assert (Some x = Some (log_task 2)) as Hx2
    by (rewrite <- Hx; vm_compute; reflexivity).
  assert (Some y = Some (log_task 2)) as Hy2
    by (rewrite <- Hy; vm_compute; reflexivity).
  injection Hx2 as ->. injection Hy2 as ->.
  split; eexists; [exact Hq|exact Hq'].
Defined.

(** Witnesses of X1 to X6, on deques reached from a fresh one. *)
Lemma push_pop_round_trip_witness :
  let d := deque_after [log_task 1] in
  holds d [log_task 1] ∧ bottom d < 2 ^ 30
  ∧ ∃ d1 d2, push (log_task 2) d = Some d1
             ∧ pop None d1 = Some (true, log_task 2, d2)
             ∧ ([log_task 1] ≠ [] → holds d2 [log_task 1]).
Proof.
  destruct (deque_after_holds [log_task 1]) as (Hd & Ht & Hb); [simpl; lia|].
  split; [exact Hd|]. split; [rewrite Hb; simpl; lia|].
  apply (push_pop_round_trip (log_task 2) None _ _ Hd).
  rewrite Hb. simpl. lia.
Defined.

Lemma pops_newest_first_witness :
  let d := deque_after [log_task 1; log_task 2; log_task 3] in
  holds d ([log_task 1] ++ [log_task 2; log_task 3])
  ∧ ∃ d1 d2, pop None d = Some (true, log_task 3, d1)
             ∧ pop None d1 = Some (true, log_task 2, d2)
             ∧ ([log_task 1] ≠ [] → holds d2 [log_task 1]).
Proof.
  destruct (deque_after_holds [log_task 1; log_task 2; log_task 3])
    as (Hd & _); [simpl; lia|].
  split; [exact Hd|].
  apply (pops_newest_first None None _ [log_task 1] _ _ Hd).
Defined.

Lemma steals_oldest_first_witness :
  let d := deque_after [log_task 1; log_task 2; log_task 3] in
  holds d [log_task 1; log_task 2; log_task 3]
  ∧ ∃ d1 d2, steal None d = Some (true, log_task 1, d1)
             ∧ steal None d1 = Some (true, log_task 2, d2)
             ∧ holds d2 [log_task 3].
Proof.
  destruct (deque_after_holds [log_task 1; log_task 2; log_task 3])
    as (Hd & _); [simpl; lia|].
  split; [exact Hd|].
  apply (steals_oldest_first None None _ _ _ _ Hd).
Defined.

Lemma push_grows_full_deque_witness :
  let l := replicate 1024 (log_task 0) in
  let d := deque_after l in
  holds d l ∧ bottom d - top d = capacity d ∧ bottom d < 2 ^ 30
  ∧ ∃ d', push (log_task 1) d = Some d' ∧ capacity d' = 2 * capacity d
          ∧ holds d' (l ++ [log_task 1]).
Proof.
  intros l d. subst l d.
  destruct (deque_after_holds (replicate 1024 (log_task 0))) as (Hd & Ht & Hb).
  { rewrite length_replicate. lia. }
  rewrite length_replicate in Hb.
  assert (capacity (deque_after (replicate 1024 (log_task 0))) = 1024) as Hcap
    by (vm_compute; reflexivity).
  assert (bottom (deque_after (replicate 1024 (log_task 0)))
          - top (deque_after (replicate 1024 (log_task 0)))
          = capacity (deque_after (replicate 1024 (log_task 0)))) as Hfull
    by (rewrite Hb, Ht, Hcap; lia).
  assert (bottom (deque_after (replicate 1024 (log_task 0))) < 2 ^ 30) as Hlt
    by (rewrite Hb; lia).
  split; [exact Hd|]. split; [exact Hfull|]. split; [exact Hlt|].
  exact (push_grows_full_deque (log_task 1) _ _ Hd Hfull Hlt).
Defined.

Lemma size_and_empty_agree_witness :
  let d := deque_after [log_task 1; log_task 2] in
  holds d [log_task 1; log_task 2]
  ∧ deque_size d = 2 ∧ deque_empty d = false.
Proof.
  destruct (deque_after_holds [log_task 1; log_task 2]) as (Hd & _);
    [simpl; lia|].
  split; [exact Hd|].
  destruct (size_and_empty_agree None _ _ Hd) as (Hsize & Hempty & _).
  split; [exact Hsize|].
  destruct (deque_empty _); [|reflexivity].
  discriminate (proj1 Hempty eq_refl).
Defined.

Lemma push_after_last_pop_is_unreachable_witness :
  let d : lock_free_deque (list nat) :=
    default new_deque (apply_ops [Push (log_task 1); Pop] new_deque) in
  deque_inv d ∧ bottom d = top d - 1 ∧ bottom d < 2 ^ 30
  ∧ ∃ d', push (log_task 2) d = Some d'
          ∧ buffer d' !! Z.to_nat (bottom d mod capacity d') = Some (log_task 2)
          ∧ deque_empty d' = true ∧ deque_size d' = 0
          ∧ pop None d' = Some (false, None, d')
          ∧ steal None d' = Some (false, None, d').
Proof.
  intros d.
  assert (apply_ops [Push (log_task 1); Pop] new_deque = Some d) as Hrun
    by (vm_compute; reflexivity).
  pose proof (proj1 (apply_ops_inv _ _ _ new_deque_inv Hrun)) as Hinv.
  assert (bottom d = top d - 1) as Hlow by (vm_compute; reflexivity).
  assert (bottom d < 2 ^ 30) as Hb by (vm_compute; reflexivity).
  split; [exact Hinv|]. split; [exact Hlow|]. split; [exact Hb|].
  exact (push_after_last_pop_is_unreachable (log_task 2) None d Hinv Hlow Hb).
Defined.

(** Witnesses of X7 to X21. *)
Lemma queue_empty_decides_scans_witness :
  let q : work_queue_t (list nat) := new_work_queue in
  queue_wf q
  ∧ (queue_empty q = true →
       pop_task None q = Some (false, None, q)
       ∧ steal_task None q = Some (false, None, q)).
Proof.
  assert (queue_wf (@new_work_queue (list nat))) as Hwf.
  { split; [reflexivity|]. apply Forall_replicate, new_deque_inv. }
  split; [exact Hwf|].
  exact (proj1 (queue_empty_decides_scans None new_work_queue Hwf)).
Defined.

Lemma stop_flag_after_execution_witness :
  let es := [Schedule (log_task 1) None; SetStopped;
             Schedule (log_task 2) None] in
  let p := mk_pool (new_system_scheduler 1 1 NORMAL 1) [] [] in
  ∃ p', execute es p = Some p'
        ∧ stop_flag (scheduler p')
          = stop_flag (scheduler p) || existsb requests_stop es.
Proof.
  intros es p. eexists. split; [vm_compute; reflexivity|].
  apply (stop_flag_after_execution es p). vm_compute. reflexivity.
Defined.

Lemma get_priority_after_execution_witness :
  let es := [SetPriority HIGH; Schedule (log_task 1) None;
             SetPriority LOW; WorkerTurn 0 []] in
  let p := mk_pool (new_system_scheduler 1 1 NORMAL 1) [] [] in
  ∃ p', execute es p = Some p'
        ∧ get_priority (scheduler p')
          = last_set_priority es (get_priority (scheduler p)).
Proof.
  intros es p. eexists. split; [vm_compute; reflexivity|].
  apply (get_priority_after_execution es p). vm_compute. reflexivity.
Defined.

Lemma bulk_schedule_after_stop_is_dropped_witness :
  let s : system_scheduler (list nat) :=
    set_stopped (new_system_scheduler 2 1 NORMAL 2) in
  stop_flag s = true
  ∧ bulk_schedule 100 (λ i l, l ++ [Z.to_nat i]) (Some HIGH) s = Some s.
Proof.
  intros s. split; [reflexivity|].
  apply (bulk_schedule_after_stop_is_dropped 100 _ (Some HIGH) s).
  reflexivity.
Defined.

Lemma reachable_scheduler_shape_witness :
  let es := [Schedule (log_task 1) None; WorkerTurn 1 [0%nat];
             Schedule (log_task 2) (Some CRITICAL); WorkerTurn 0 [1%nat]] in
  0 ≤ 2
  ∧ ∃ p',
      execute es (mk_pool (new_system_scheduler 8 1 NORMAL 2) [] [])
      = Some p'
      ∧ num_queues (scheduler p') = 2
      ∧ Z.of_nat (length (work_queues (scheduler p'))) = 2.
Proof.
  intros es. split; [lia|]. eexists. split; [vm_compute; reflexivity|].
  pose proof (reachable_scheduler_shape 8 1 NORMAL 2 es []) as Hshape.
  simpl in Hshape.
  edestruct Hshape as (Hn & Hl & _); [lia|vm_compute; reflexivity|].
  split; [exact Hn|exact Hl].
Defined.

Lemma schedule_without_queues_is_undefined_witness :
  let s : system_scheduler (list nat) := new_system_scheduler 0 1 NORMAL 0 in
  num_queues s = 0 ∧ stop_flag s = false
  ∧ schedule (log_task 1) None s = None.
Proof.
  intros s. split; [reflexivity|]. split; [reflexivity|].
  apply (schedule_without_queues_is_undefined (log_task 1) None s);
    reflexivity.
Defined.

Lemma worker_returns_only_when_stopped_and_drained_witness :
  let s : system_scheduler (list nat) :=
    set_stopped (new_system_scheduler 1 1 NORMAL 1) in
  worker_iteration 0 [] s [] = Some (s, [], true)
  ∧ stop_flag s = true
  ∧ forallb queue_empty (work_queues s) = true.
Proof.
  intros s.
  assert (worker_iteration 0 [] s [] = Some (s, [], true)) as Hturn
    by (vm_compute; reflexivity).
  split; [exact Hturn|].
  destruct (worker_returns_only_when_stopped_and_drained 0 [] s [] [] s Hturn)
    as (Hstop & _ & Hempty).
  split; [exact Hstop|exact Hempty].
Defined.

Lemma destructor_joins_once_drained_witness :
  let p : pool (list nat) :=
    mk_pool (set_stopped (new_system_scheduler 2 1 NORMAL 2)) [] [] in
  scheduler_wf (scheduler p) ∧ stop_flag (scheduler p) = true
  ∧ forallb queue_empty (work_queues (scheduler p)) = true
  ∧ 0 ≤ idle_count (scheduler p) < 2 ^ 32
  ∧ 0 ≤ max_threads (scheduler p) ∧ returned p = []
  ∧ ∃ p', execute (every_worker_turns (Z.to_nat (max_threads (scheduler p)))
                     (scheduler p)) p = Some p'
          ∧ joined p' = true
          ∧ scheduler p' = scheduler p ∧ program p' = program p.
Proof.
  intros p.
  assert (scheduler_wf (scheduler p)) as Hwf.
  { destruct (new_scheduler_wf (W:=list nat) 2 1 NORMAL 2) as [Hn Hq];
      [simpl; lia|]. by split. }
  assert (forallb queue_empty (work_queues (scheduler p)) = true) as Hempty
    by (vm_compute; reflexivity).
  assert (0 ≤ idle_count (scheduler p) < 2 ^ 32) as Hidle by (simpl; lia).
  assert (0 ≤ max_threads (scheduler p)) as Hmax by (simpl; lia).
  split; [exact Hwf|]. split; [reflexivity|]. split; [exact Hempty|].
  split; [exact Hidle|]. split; [exact Hmax|]. split; [reflexivity|].
  exact (destructor_joins_once_drained p Hwf eq_refl Hempty Hidle Hmax eq_refl).
Defined.

Lemma single_worker_runs_whole_batch_witness :
  0 < 3 < 2 ^ 30
  ∧ ∃ p',
      execute (BulkSchedule 3 (λ i l, l ++ [Z.to_nat i]) None
               :: replicate (Z.to_nat 3) (WorkerTurn 0 [])
               ++ [DestructorStop; WorkerTurn 0 []])
        (mk_pool (new_system_scheduler 1 1 NORMAL 1) [] []) = Some p'
      ∧ program p'
        = foldr (λ i acc, (λ i l, l ++ [Z.to_nat i]) i acc) [] (seqZ 0 3)
      ∧ joined p' = true
      ∧ forallb queue_empty (work_queues (scheduler p')) = true.
Proof.
  split; [lia|].
  exact (single_worker_runs_whole_batch 1 1 NORMAL 3
           (λ i l, l ++ [Z.to_nat i]) None [] ltac:(lia)).
Defined.

Lemma schedule_probes_to_first_active_queue_witness :
  let s : system_scheduler (list nat) := new_system_scheduler 3 1 NORMAL 3 in
  0 < num_queues s < 2 ^ 64
  ∧ Z.of_nat (length (work_queues s)) = num_queues s
  ∧ stop_flag s = false
  ∧ (Exists (λ q, active q = true) (work_queues s) →
       ∃ c, skip_inactive (Z.to_nat (num_queues s)) (work_queues s)
              (num_queues s) (next_queue s mod num_queues s) = Some c).
Proof.
  intros s.
  assert (0 < num_queues s < 2 ^ 64) as Hnum by (simpl; lia).
  split; [exact Hnum|]. split; [reflexivity|]. split; [reflexivity|].
  exact (proj1 (proj2 (schedule_probes_to_first_active_queue (log_task 1) None s
                         Hnum eq_refl eq_refl))).
Defined.

Lemma queue_size_counts_tasks_witness :
  let q : work_queue_t (list nat) :=
    mk_work_queue [deque_after [log_task 1]; new_deque;
                   deque_after [log_task 2; log_task 3]; new_deque] true in
  let ls := [[log_task 1]; []; [log_task 2; log_task 3]; []] in
  length (task_queues q) = 4%nat ∧ Forall2 holds (task_queues q) ls
  ∧ queue_size q = Z.of_nat (length (concat ls))
  ∧ (queue_empty q = true ↔ concat ls = []).
Proof.
  intros q ls.
  assert (Forall2 holds (task_queues q) ls) as Hall.
  { constructor; [apply deque_after_holds; simpl; lia|].
    constructor; [exact new_deque_holds|].
    constructor; [apply deque_after_holds; simpl; lia|].
    constructor; [exact new_deque_holds|]. constructor. }
  split; [reflexivity|]. split; [exact Hall|].
  exact (queue_size_counts_tasks q ls eq_refl Hall).
Defined.

Lemma query_system_context_is_stable_witness :
  let g : process (list nat) := new_process in
  let cs := [Install (Some 7%nat); GetScheduler (Some HIGH); QueryContext] in
  context_instance g = None
  ∧ query_system_context 4 1 (process_run 4 1 cs (query_system_context 4 1 g).2)
    = ((query_system_context 4 1 g).1,
       process_run 4 1 cs (query_system_context 4 1 g).2).
Proof.
  intros g cs. split; [reflexivity|].
  exact (proj1 (query_system_context_is_stable 4 1 cs g eq_refl)).
Defined.

Lemma get_system_scheduler_keeps_first_priority_witness :
  let g : process (list nat) := new_process in
  current_scheduler g = None ∧ fallback_scheduler g = None
  ∧ get_system_scheduler 4 1 (Some LOW)
      (get_system_scheduler 4 1 (Some HIGH) g).2
    = ((get_system_scheduler 4 1 (Some HIGH) g).1,
       (get_system_scheduler 4 1 (Some HIGH) g).2).
Proof.
  intros g. split; [reflexivity|]. split; [reflexivity|].
  exact (proj1 (proj2 (get_system_scheduler_keeps_first_priority 4 1
                         (Some HIGH) (Some LOW) 0 g eq_refl eq_refl))).
Defined.

Lemma macos_bulk_schedule_dispatches_all_witness :
  0 < 3 < 2 ^ 32
  ∧ bulk_schedule_on macos_schedule 4 3 (λ i (l : list nat), l ++ [Z.to_nat i])
      (Some CRITICAL) []
    = Some ([] ++ ((λ c, (macos_dispatch_priority
                            (priority_argument (Some CRITICAL)),
                          Some (chunk_closure c (c + 1)
                                  (λ i (l : list nat), l ++ [Z.to_nat i]))))
                   <$> seqZ 0 3)).
Proof.
  split; [lia|].
  exact (macos_bulk_schedule_dispatches_all 4 3
           (λ i (l : list nat), l ++ [Z.to_nat i]) (Some CRITICAL) []
           ltac:(lia)).
Defined.

Lemma row_blocks_partition_witness :
  let A : Matrix := replicate 10 [1; 2; 3] in
  let B : Matrix := replicate 3 [1; 2] in
  A !! 0%nat = Some [1; 2; 3] ∧ B !! 0%nat = Some [1; 2]
  ∧ Z.of_nat (length A) ≤ INT_MAX ∧ 0 < 4 ≤ INT_MAX
  ∧ row_blocks A B 4 = Some (3, 2, [(0, 2); (2, 4); (4, 6); (6, 10)])
  ∧ ∃ blocks,
      row_blocks A B 4
      = Some (Z.of_nat (length [1; 2; 3]), Z.of_nat (length [1; 2]), blocks)
      ∧ Z.of_nat (length blocks) = 4
      ∧ concat (range_indices <$> blocks) = seqZ 0 (Z.of_nat (length A))
      ∧ Forall (λ r, 0 ≤ r.1 ≤ r.2 ≤ Z.of_nat (length A)) blocks.
Proof.
  intros A B.
  assert (Z.of_nat (length A) ≤ INT_MAX) as Hrows
    by (unfold INT_MAX; simpl; lia).
  assert (0 < 4 ≤ INT_MAX) as Hnum by (unfold INT_MAX; lia).
  split; [reflexivity|]. split; [reflexivity|].
  split; [exact Hrows|]. split; [exact Hnum|].
  split; [vm_compute; reflexivity|].
  refine (proj2 (proj2 (proj2
            (row_blocks_partition A B [1; 2; 3] [1; 2] 4 eq_refl eq_refl Hrows
               _ _ Hnum)))); unfold INT_MAX; simpl; lia.
Defined.
